(** * KDT_WEB: keyword-driven test execution and agent coordination

    A shallow embedding of the agent registry ([agent/manager.py]), the
    polling routes ([agent/router.py]), the keyword engine
    ([core/keyword_engine.py]) and the run orchestrator ([core/runner.py]),
    with the properties of the specification stated over it. *)

From Stdlib Require Import ZArith Ascii String List Sorted Lia Bool.
From stdpp Require Import base option list gmap strings pretty.

Local Open Scope Z_scope.

(** ** Agent models, registry and routes *)

Module Agent.

(** [agent/models.py] *)

Inductive AgentStatus := ONLINE | OFFLINE | BUSY | ERROR.

Inductive AgentCommand :=
  RUN_TEST_CASE | RUN_MODULE | RUN_PROJECT | PING | SHUTDOWN.

#[global] Instance AgentStatus_eq_dec : EqDecision AgentStatus.
Proof. solve_decision. Defined.

#[global] Instance AgentCommand_eq_dec : EqDecision AgentCommand.
Proof. solve_decision. Defined.

(** Timestamps ([datetime]) are seconds on an integer clock. *)
Abbreviation Timestamp := Z (only parsing).

(** JSON objects ([Dict[str, Any]]) carried opaquely by commands. *)
Abbreviation Payload := (gmap string string) (only parsing).

Record AgentInfo := mkAgentInfo {
  id : string;
  name : string;
  hostname : string;
  ip_address : string;
  status : AgentStatus;
  last_seen : Timestamp;
  capabilities : list string;
  current_task : option string;
  created_at : Timestamp
}.

Record AgentRegistration := mkAgentRegistration {
  reg_name : string;
  reg_hostname : string;
  reg_ip_address : string;
  reg_capabilities : list string
}.

Record AgentCommandRequest := mkAgentCommandRequest {
  command : AgentCommand;
  payload : Payload;
  timeout : Z
}.

Record AgentCommandResponse := mkAgentCommandResponse {
  success : bool;
  message : string;
  result : option Payload;
  error : option string
}.

(** [agent/manager.py]: the three dictionaries of [AgentManager].  An
    [asyncio.Queue] is the list of its pending items, oldest first.  Calls
    to [logger] write to the process log only and are left out. *)

Record AgentManager := mkAgentManager {
  agents : gmap string AgentInfo;
  agent_connections : gmap string (list AgentCommandResponse);
  command_queues : gmap string (list AgentCommandRequest)
}.

Definition empty_manager : AgentManager :=
  {| agents := ∅; agent_connections := ∅; command_queues := ∅ |}.

(** [register_agent]: [uuid] is the value drawn by [str(uuid.uuid4())], the
    two timestamps are the two readings of [datetime.now()]. *)
Definition register_agent (m : AgentManager) (agent_info : AgentInfo)
    (uuid : string) (t_created t_seen : Timestamp) : string * AgentManager :=
  let agent_id := uuid in
  let agent_info :=
    {| id := agent_id;
       name := name agent_info;
       hostname := hostname agent_info;
       ip_address := ip_address agent_info;
       status := ONLINE;
       last_seen := t_seen;
       capabilities := capabilities agent_info;
       current_task := current_task agent_info;
       created_at := t_created |} in
  (agent_id,
   {| agents := <[agent_id := agent_info]> (agents m);
      agent_connections := <[agent_id := []]> (agent_connections m);
      command_queues := <[agent_id := []]> (command_queues m) |}).

(** [del d[k]] guarded by [if k in d]. *)
Definition del_if_present {V} (k : string) (d : gmap string V) : gmap string V :=
  match d !! k with
  | Some _ => delete k d
  | None => d
  end.

Definition unregister_agent (m : AgentManager) (agent_id : string) : AgentManager :=
  {| agents := del_if_present agent_id (agents m);
     agent_connections := del_if_present agent_id (agent_connections m);
     command_queues := del_if_present agent_id (command_queues m) |}.

Definition set_status (s : AgentStatus) (now : Timestamp) (a : AgentInfo) : AgentInfo :=
  {| id := id a; name := name a; hostname := hostname a;
     ip_address := ip_address a;
     status := s;
     last_seen := now;
     capabilities := capabilities a; current_task := current_task a;
     created_at := created_at a |}.

Definition update_agent_status (m : AgentManager) (agent_id : string)
    (s : AgentStatus) (now : Timestamp) : AgentManager :=
  match agents m !! agent_id with
  | Some a =>
      {| agents := <[agent_id := set_status s now a]> (agents m);
         agent_connections := agent_connections m;
         command_queues := command_queues m |}
  | None => m
  end.

Definition get_agent (m : AgentManager) (agent_id : string) : option AgentInfo :=
  agents m !! agent_id.

Definition get_all_agents (m : AgentManager) : list AgentInfo :=
  (map_to_list (agents m)).*2.

Definition get_available_agents (m : AgentManager) : list AgentInfo :=
  filter (λ a, status a = ONLINE) (get_all_agents m).

Definition handle_agent_response (m : AgentManager) (agent_id : string)
    (response : AgentCommandResponse) : AgentManager :=
  match agent_connections m !! agent_id with
  | Some q =>
      {| agents := agents m;
         agent_connections := <[agent_id := q ++ [response]]> (agent_connections m);
         command_queues := command_queues m |}
  | None => m
  end.

(** [cleanup_inactive_agents]: [now] is the reading of the clock, the
    threshold is in minutes. *)
Definition cleanup_inactive_agents (m : AgentManager) (now : Timestamp)
    (threshold_minutes : Z) : AgentManager :=
  let cutoff_time := now - threshold_minutes * 60 in
  let inactive_agents :=
    (filter (λ kv, last_seen kv.2 < cutoff_time) (map_to_list (agents m))).*1 in
  foldl unregister_agent m inactive_agents.

Definition is_execution (c : AgentCommand) : bool :=
  match c with
  | RUN_TEST_CASE | RUN_MODULE | RUN_PROJECT => true
  | PING | SHUTDOWN => false
  end.

(** What the other coroutines of the event loop do while [send_command] is
    suspended in [asyncio.wait_for]: each is one call on the manager. *)
Inductive Activity :=
  | ActResponse (agent_id : string) (response : AgentCommandResponse)
  | ActUnregister (agent_id : string)
  | ActStatus (agent_id : string) (s : AgentStatus) (now : Timestamp)
  | ActRegister (agent_info : AgentInfo) (uuid : string) (t_created t_seen : Timestamp).

Definition run_activity (m : AgentManager) (a : Activity) : AgentManager :=
  match a with
  | ActResponse agent_id r => handle_agent_response m agent_id r
  | ActUnregister agent_id => unregister_agent m agent_id
  | ActStatus agent_id s now => update_agent_status m agent_id s now
  | ActRegister info uuid t1 t2 => (register_agent m info uuid t1 t2).2
  end.

(** The awaited [self.agent_connections[agent_id].get()] under a timeout
    that lets it run: the oldest response is taken as soon as the queue
    holds one; [others] lists what happens before the timeout expires,
    [None] is [asyncio.TimeoutError].  A queue whose agent is unregistered
    meanwhile is out of reach of [handle_agent_response], so the wait times
    out. *)
Fixpoint queue_get (agent_id : string) (others : list Activity) (m : AgentManager)
    : option AgentCommandResponse * AgentManager :=
  match agent_connections m !! agent_id with
  | Some (r :: q) =>
      (Some r,
       {| agents := agents m;
          agent_connections := <[agent_id := q]> (agent_connections m);
          command_queues := command_queues m |})
  | Some [] =>
      match others with
      | [] => (None, m)
      | a :: others => queue_get agent_id others (run_activity m a)
      end
  | None => (None, foldl run_activity m others)
  end.

(** [asyncio.wait_for(self.agent_connections[agent_id].get(), timeout)].
    With a timeout that is not positive the [get()] is cancelled before it
    runs, whatever the queue holds, and [asyncio.TimeoutError] is raised;
    [others] is what the other coroutines do meanwhile. *)
Definition wait_for (agent_id : string) (timeout : Z) (others : list Activity)
    (m : AgentManager) : option AgentCommandResponse * AgentManager :=
  if bool_decide (timeout ≤ 0) then (None, foldl run_activity m others)
  else queue_get agent_id others m.

Definition not_found_response : AgentCommandResponse :=
  {| success := false;
     message := "Agent not found or not connected";
     result := None;
     error := Some "Agent not found" |}.

Definition timeout_response : AgentCommandResponse :=
  {| success := false;
     message := "Command timeout";
     result := None;
     error := Some "Timeout waiting for agent response" |}.

Definition failed_response (e : string) : AgentCommandResponse :=
  {| success := false;
     message := "Failed to send command";
     result := None;
     error := Some e |}.

(** First statement of [send_command] after the membership test: the
    status update for execution commands. *)
Definition mark_busy (m : AgentManager) (agent_id : string)
    (c : AgentCommandRequest) (t_busy : Timestamp) : AgentManager :=
  if is_execution (command c)
  then update_agent_status m agent_id BUSY t_busy
  else m.

(** [await self.command_queues[agent_id].put(command)] on a queue [q]. *)
Definition enqueue_command (m : AgentManager) (agent_id : string)
    (q : list AgentCommandRequest) (c : AgentCommandRequest) : AgentManager :=
  {| agents := agents m;
     agent_connections := agent_connections m;
     command_queues := <[agent_id := q ++ [c]]> (command_queues m) |}.

(** The [finally] clause of [send_command]. *)
Definition reset_online (m : AgentManager) (agent_id : string)
    (c : AgentCommandRequest) (t_fin : Timestamp) : AgentManager :=
  if is_execution (command c)
  then update_agent_status m agent_id ONLINE t_fin
  else m.

(** [send_command]: [t_busy], [t_err] and [t_fin] are the clock readings of
    the three possible status updates.  A missing key in
    [agent_connections] is the [KeyError] caught by [except Exception]. *)
Definition send_command (m : AgentManager) (agent_id : string)
    (c : AgentCommandRequest) (others : list Activity)
    (t_busy t_err t_fin : Timestamp) : AgentCommandResponse * AgentManager :=
  match command_queues m !! agent_id with
  | None => (not_found_response, m)
  | Some q =>
      let m1 := mark_busy m agent_id c t_busy in
      let '(response, m3) :=
        let m2 := enqueue_command m1 agent_id q c in
        match agent_connections m2 !! agent_id with
        | None =>
            (failed_response ("'" +:+ agent_id +:+ "'"),
             update_agent_status m2 agent_id ERROR t_err)
        | Some _ =>
            match wait_for agent_id (timeout c) others m2 with
            | (Some response, m') => (response, m')
            | (None, m') =>
                (timeout_response, update_agent_status m' agent_id ERROR t_err)
            end
        end in
      (response, reset_online m3 agent_id c t_fin)
  end.

(** [agent/router.py]: the module-level [agent_commands] dictionary next to
    the global manager. *)

Module Router.

Record State := mkState {
  agent_manager : AgentManager;
  agent_commands : gmap string (list AgentCommandRequest)
}.

Definition empty_router : State :=
  {| agent_manager := empty_manager; agent_commands := ∅ |}.

(** A route either returns a body or raises [HTTPException]. *)
Inductive Http (A : Type) :=
  | Ok200 (body : A)
  | HTTPException (status_code : Z) (detail : string).
Arguments Ok200 {A} body.
Arguments HTTPException {A} status_code detail.

(** Body of the polling route: [command.dict()] or the empty object. *)
Inductive PollBody :=
  | CommandDict (c : AgentCommandRequest)
  | EmptyDict.

Definition register_agent (r : State) (agent_info : AgentRegistration)
    (uuid : string) (t0 t1 t_created t_seen : Timestamp) : string * State :=
  let full_agent_info :=
    {| id := "";
       name := reg_name agent_info;
       hostname := reg_hostname agent_info;
       ip_address := reg_ip_address agent_info;
       status := ONLINE;
       last_seen := t0;
       capabilities := reg_capabilities agent_info;
       current_task := None;
       created_at := t1 |} in
  let '(agent_id, m) :=
    register_agent (agent_manager r) full_agent_info uuid t_created t_seen in
  (agent_id,
   {| agent_manager := m;
      agent_commands := <[agent_id := []]> (agent_commands r) |}).

Definition unregister_agent (r : State) (agent_id : string) : State :=
  {| agent_manager := unregister_agent (agent_manager r) agent_id;
     agent_commands := del_if_present agent_id (agent_commands r) |}.

(** [send_command_to_agent]: appends to the agent's pending list. *)
Definition send_command_to_agent (r : State) (agent_id : string)
    (c : AgentCommandRequest) : Http AgentCommandResponse * State :=
  match get_agent (agent_manager r) agent_id with
  | None => (HTTPException 404 "Agent not found", r)
  | Some _ =>
      let pending := default [] (agent_commands r !! agent_id) in
      (Ok200 {| success := true;
                message := "Command queued for agent " +:+ agent_id;
                result := None;
                error := None |},
       {| agent_manager := agent_manager r;
          agent_commands := <[agent_id := pending ++ [c]]> (agent_commands r) |})
  end.

(** [get_agent_commands]: one poll. *)
Definition get_agent_commands (r : State) (agent_id : string)
    (now : Timestamp) : Http PollBody * State :=
  match get_agent (agent_manager r) agent_id with
  | None => (HTTPException 404 "Agent not found", r)
  | Some agent =>
      let m := update_agent_status (agent_manager r) agent_id (status agent) now in
      match agent_commands r !! agent_id with
      | Some (c :: rest) =>
          (Ok200 (CommandDict c),
           {| agent_manager := m;
              agent_commands := <[agent_id := rest]> (agent_commands r) |})
      | _ => (Ok200 EmptyDict, {| agent_manager := m; agent_commands := agent_commands r |})
      end
  end.

End Router.

(** Vocabulary of the registry properties. *)

Definition registered (m : AgentManager) (agent_id : string) : Prop :=
  is_Some (agents m !! agent_id).

(** The three dictionaries hold the same keys, as [register_agent] and
    [unregister_agent] leave them. *)
Definition consistent (m : AgentManager) : Prop :=
  ∀ agent_id,
    (is_Some (agent_connections m !! agent_id) ↔ registered m agent_id) ∧
    (is_Some (command_queues m !! agent_id) ↔ registered m agent_id).

(** The pending commands of an agent; a missing key is an empty backlog. *)
Definition backlog (r : Router.State) (agent_id : string) : list AgentCommandRequest :=
  default [] (Router.agent_commands r !! agent_id).

(** Successive calls of [Router.send_command_to_agent]. *)
Definition enqueue_all (r : Router.State) (agent_id : string)
    (cs : list AgentCommandRequest) : Router.State :=
  foldl (λ r c, (Router.send_command_to_agent r agent_id c).2) r cs.

(** Successive polls, one per clock reading. *)
Fixpoint poll_all (r : Router.State) (agent_id : string) (nows : list Z)
    : list (Router.Http Router.PollBody) * Router.State :=
  match nows with
  | [] => ([], r)
  | now :: nows =>
      let '(body, r) := Router.get_agent_commands r agent_id now in
      let '(bodies, r) := poll_all r agent_id nows in
      (body :: bodies, r)
  end.

(** What the [i]-th poll of a backlog [pending] answers. *)
Definition poll_answer (pending : list AgentCommandRequest) (i : nat) : Router.Http Router.PollBody :=
  Router.Ok200 (from_option Router.CommandDict Router.EmptyDict (pending !! i)).

End Agent.

(** ** Keyword engine and run orchestrator

    Times are whole seconds.  Calls to [logging] and [print] other than
    opening and closing the run's file handler write to the process log
    only and are left out. *)

Module Core.

(** *** Python values and exceptions *)

(** An exception: its class and what [str(e)] prints. *)
Record Exc := mkExc { exc_class : string; exc_str : string }.

(** The classes that derive from [BaseException] and not from
    [Exception]: [asyncio.CancelledError] and the built-in ones.
    [except Exception] does not catch them. *)
Definition BASE_EXCEPTIONS : list string :=
  ["BaseException"; "BaseExceptionGroup"; "CancelledError"; "GeneratorExit";
   "KeyboardInterrupt"; "SystemExit"].

Definition is_Exception (e : Exc) : bool :=
  bool_decide (exc_class e ∉ BASE_EXCEPTIONS).

Definition ValueError (msg : string) : Exc := mkExc "ValueError" msg.
Definition IOError (msg : string) : Exc := mkExc "OSError" msg.
Definition ValidationError (msg : string) : Exc := mkExc "ValidationError" msg.
Definition AttributeError (msg : string) : Exc := mkExc "AttributeError" msg.

(** Truth value of an [Optional[str]]: [None] and [''] are false. *)
Definition truthy (v : option string) : bool :=
  match v with
  | Some s => negb (String.eqb s "")
  | None => false
  end.

(** A continuation byte of the UTF-8 text of a [str]: [10xxxxxx]. *)
Definition continuation (c : ascii) : bool :=
  match c with
  | Ascii _ _ _ _ _ _ b6 b7 => b7 && negb b6
  end.

(** [len] of a [str]: its characters, which are the bytes of its UTF-8
    text that are not continuation bytes. *)
Fixpoint py_len (s : string) : nat :=
  match s with
  | EmptyString => 0
  | String c rest => (if continuation c then 0 else 1) + py_len rest
  end.

(** [a or b] on strings. *)
Definition py_or (a : option string) (b : string) : string :=
  match a with
  | Some s => if String.eqb s "" then b else s
  | None => b
  end.

(** [str.startswith]. *)
Definition startswith (s p : string) : bool := String.prefix p s.

(** What an f-string prints for an [Optional[str]] and for an [int]. *)
Definition fmt_opt (v : option string) : string := default "None" v.
Definition fmt_int (n : Z) : string := pretty n.

Fixpoint endswith_slash (s : string) : bool :=
  match s with
  | EmptyString => false
  | String c EmptyString => Ascii.eqb c "/"%char
  | String _ rest => endswith_slash rest
  end.

(** [os.path.join] of two components (POSIX separator). *)
Definition os_path_join (a b : string) : string :=
  if startswith b "/" then b
  else if String.eqb a "" || endswith_slash a then a +:+ b
  else a +:+ "/" +:+ b.

(** *** The outside world

    Every call that leaves the process: the Playwright driver, the file
    system, the logging file handler and the MySQL connection.  Each may
    return normally or raise. *)
Inductive Call :=
  | OsMakedirs (path : string)
  | FileHandlerOpen (path : string)
  | FileHandlerClose
  | PlaywrightStart
  | BrowserLaunch (browser_type : string) (headless : bool)
  | BrowserClose
  | PlaywrightStop
  | NewContext
  | TracingStart
  | NewPage
  | TracingStop (path : string)
  | PageClose
  | ContextClose
  | PageGoto (url : string)
  | BodyWaitVisible
  | LocatorClick (selector : string)
  | LocatorFill (selector value : string)
  | LocatorPress (selector key : string)
  | LocatorSelectOption (selector value : string)
  | PageWaitForSelector (selector : string)
  | PageWaitForUrl (url : string)
  | ExpectToHaveText (selector expected : string)
  | ExpectToHaveTitle (expected : string)
  | PageScreenshot (path : string)
  | DbConnect
  | DbExecute (sql : string).

Class Driver := {
  World : Type;
  (** one external call: [None] when it returns, [Some e] when it raises *)
  perform : Call → World → option Exc * World;
  (** [browser.is_connected()] *)
  is_connected : World → bool;
  (** [time.time()] and [datetime.now()], in whole seconds *)
  clock : World → Z;
  (** [strftime("%Y%m%d_%H%M%S")] *)
  strftime : Z → string
}.

(** *** State and exception monad *)

Inductive Result (A : Type) :=
  | Return (a : A)
  | Raise (e : Exc).
Arguments Return {A} a.
Arguments Raise {A} e.

Definition M (S A : Type) : Type := S → Result A * S.

Definition ret {S A} (a : A) : M S A := λ s, (Return a, s).

Definition raise {S A} (e : Exc) : M S A := λ s, (Raise e, s).

Definition bind {S A B} (m : M S A) (k : A → M S B) : M S B :=
  λ s, match m s with
       | (Return a, s') => k a s'
       | (Raise e, s') => (Raise e, s')
       end.

(** [try: m except Exception as e: h e]: an exception that does not
    derive from [Exception] passes through. *)
Definition try_except {S A} (m : M S A) (h : Exc → M S A) : M S A :=
  λ s, match m s with
       | (Return a, s') => (Return a, s')
       | (Raise e, s') => if is_Exception e then h e s' else (Raise e, s')
       end.

(** [try: m finally: f] *)
Definition try_finally {S A} (m : M S A) (f : M S unit) : M S A :=
  λ s, match m s with
       | (r, s') =>
           match f s' with
           | (Return _, s'') => (r, s'')
           | (Raise e, s'') => (Raise e, s'')
           end
       end.

Definition gets {S A} (f : S → A) : M S A := λ s, (Return (f s), s).

Definition modify {S} (f : S → S) : M S unit := λ s, (Return tt, f s).

(** Run a computation on a component of the state. *)
Definition zoom {S T A} (get : S → T) (set : T → S → S) (m : M T A) : M S A :=
  λ s, match m (get s) with
       | (r, t') => (r, set t' s)
       end.

#[global] Instance M_ret {S} : MRet (M S) := λ A, ret.
#[global] Instance M_bind {S} : MBind (M S) := λ A B k m, bind m k.

Section Engine.
Context `{Driver}.

Definition call (c : Call) : M World unit :=
  λ w, match perform c w with
       | (None, w') => (Return tt, w')
       | (Some e, w') => (Raise e, w')
       end.

(** *** [core/keyword_engine.py] *)

(** A step dictionary: a row of [test_steps] as the cursor returns it.  A
    key that is absent or holds [None] is [None] here. *)
Record Step := mkStep {
  step_id : option Z;
  step_case_id : Z;
  step_order : Z;
  keyword : option string;
  locator : option string;
  value : option string;
  description : option string
}.

Definition KEYWORDS : list string :=
  ["goto"; "click"; "fill"; "press"; "select_option"; "wait_for_selector";
   "wait_for_url"; "expect_text"; "expect_title"; "screenshot"].

Record KeywordEngine := mkKeywordEngine {
  base_url : string;
  output_dir : string;
  screenshot_dir : string
}.

(** [KeywordEngine.__init__] *)
Definition KeywordEngine_init (base_url output_dir : string) : M World KeywordEngine :=
  let screenshot_dir := os_path_join output_dir "screenshots" in
  call (OsMakedirs screenshot_dir) ;;
  ret {| base_url := base_url; output_dir := output_dir;
         screenshot_dir := screenshot_dir |}.

Definition _get_locator (locator : string) : string :=
  if startswith locator "/" || startswith locator "("
  then "xpath=" +:+ locator
  else locator.

Definition goto (self : KeywordEngine) (locator value : option string) : M World unit :=
  if negb (truthy value) then
    raise (ValueError "'goto'关键词需要'value'字段中的URL。")
  else
    let value := default "" value in
    let url := if startswith value "http" then value else base_url self +:+ value in
    call (PageGoto url) ;;
    call BodyWaitVisible.

Definition click (self : KeywordEngine) (locator value : option string) : M World unit :=
  if negb (truthy locator) then
    raise (ValueError "'click'关键词需要'locator'。")
  else call (LocatorClick (_get_locator (default "" locator))).

Definition fill (self : KeywordEngine) (locator value : option string) : M World unit :=
  match value with
  | Some v =>
      if negb (truthy locator) then
        raise (ValueError "'fill'关键词需要'locator'和'value'。")
      else call (LocatorFill (_get_locator (default "" locator)) v)
  | None => raise (ValueError "'fill'关键词需要'locator'和'value'。")
  end.

Definition press (self : KeywordEngine) (locator value : option string) : M World unit :=
  if negb (truthy locator) || negb (truthy value) then
    raise (ValueError "'press'关键词需要'locator'和'value'中的按键。")
  else call (LocatorPress (_get_locator (default "" locator)) (default "" value)).

Definition select_option (self : KeywordEngine) (locator value : option string) : M World unit :=
  if negb (truthy locator) || negb (truthy value) then
    raise (ValueError "'select_option'关键词需要'locator'和'value'。")
  else call (LocatorSelectOption (_get_locator (default "" locator)) (default "" value)).

Definition wait_for_selector (self : KeywordEngine) (locator value : option string) : M World unit :=
  if negb (truthy locator) then
    raise (ValueError "'wait_for_selector'关键词需要'locator'。")
  else call (PageWaitForSelector (_get_locator (default "" locator))).

Definition wait_for_url (self : KeywordEngine) (locator value : option string) : M World unit :=
  if negb (truthy value) then
    raise (ValueError "'wait_for_url'关键词需要'value'中的URL模式。")
  else call (PageWaitForUrl (default "" value)).

Definition expect_text (self : KeywordEngine) (locator value : option string) : M World unit :=
  match value with
  | Some v =>
      if negb (truthy locator) then
        raise (ValueError "'expect_text'关键词需要'locator'和'value'。")
      else call (ExpectToHaveText (_get_locator (default "" locator)) v)
  | None => raise (ValueError "'expect_text'关键词需要'locator'和'value'。")
  end.

Definition expect_title (self : KeywordEngine) (locator value : option string) : M World unit :=
  match value with
  | Some v => call (ExpectToHaveTitle v)
  | None => raise (ValueError "'expect_title'关键词需要'value'中的标题。")
  end.

Definition screenshot (self : KeywordEngine) (value : option string) : M World string :=
  now ← gets clock;
  let filename := py_or value ("screenshot_" +:+ fmt_int now +:+ ".png") in
  let path := os_path_join (screenshot_dir self) filename in
  call (PageScreenshot path) ;;
  ret path.

(** [getattr(self, keyword)]: the bound method of that name. *)
Definition getattr_method (self : KeywordEngine) (keyword : string)
    : option (option string → option string → M World unit) :=
  if String.eqb keyword "goto" then Some (goto self)
  else if String.eqb keyword "click" then Some (click self)
  else if String.eqb keyword "fill" then Some (fill self)
  else if String.eqb keyword "press" then Some (press self)
  else if String.eqb keyword "select_option" then Some (select_option self)
  else if String.eqb keyword "wait_for_selector" then Some (wait_for_selector self)
  else if String.eqb keyword "wait_for_url" then Some (wait_for_url self)
  else if String.eqb keyword "expect_text" then Some (expect_text self)
  else if String.eqb keyword "expect_title" then Some (expect_title self)
  else if String.eqb keyword "screenshot" then
    Some (λ locator value, screenshot self value ;; ret tt)
  else None.

Definition keyword_in_KEYWORDS (keyword : option string) : bool :=
  match keyword with
  | Some k => bool_decide (k ∈ KEYWORDS)
  | None => false
  end.

(** The default description of [execute_step]. *)
Definition default_description (keyword locator : option string) : string :=
  fmt_opt keyword +:+ " " +:+
  (if truthy locator then "on " +:+ default "" locator else "").

(** The [try] block of [execute_step]. *)
Definition execute_step_try (self : KeywordEngine) (keyword locator value : option string)
    (description : string) : M World (bool * string * option string) :=
  if negb (keyword_in_KEYWORDS keyword) then
    raise (ValueError ("Unsupported keyword: " +:+ fmt_opt keyword))
  else
    match getattr_method self (default "" keyword) with
    | None =>
        raise (AttributeError ("'KeywordEngine' object has no attribute '"
                               +:+ default "" keyword +:+ "'"))
    | Some method =>
        method locator value ;;
        let message := "SUCCESS: " +:+ description in
        ret (true, message, None)
    end.

(** The name given to the screenshot of a failing step. *)
Definition failure_screenshot_name (step : Step) : string :=
  "step_" +:+ match step_id step with
              | Some n => fmt_int n
              | None => "unknown"
              end +:+ "_failure.png".

(** Where the screenshot of a failing step is written. *)
Definition failure_screenshot_path (self : KeywordEngine) (step : Step) : string :=
  os_path_join (screenshot_dir self) (failure_screenshot_name step).

(** The description [execute_step] logs for a step. *)
Definition step_description (step : Step) : string :=
  py_or (description step) (default_description (keyword step) (locator step)).

Definition execute_step (self : KeywordEngine) (step : Step)
    : M World (bool * string * option string) :=
  let keyword := keyword step in
  let locator := locator step in
  let value := value step in
  let description :=
    py_or (description step) (default_description keyword locator) in
  try_except
    (execute_step_try self keyword locator value description)
    (λ e,
       let message := "FAILURE: " +:+ description +:+ ". Error: " +:+ exc_str e in
       screenshot_path ← screenshot self (Some (failure_screenshot_name step));
       ret (false, message, Some screenshot_path)).

(** A locator written as a path expression: it starts with a slash or an
    opening parenthesis. *)
Definition path_expression (locator : string) : Prop :=
  ∃ rest, locator = String "/" rest ∨ locator = String "(" rest.

End Engine.

(** *** [app/models.py], [app/database.py], [app/crud.py]: the record store

    Tables are lists of rows in insertion order.  The schema is not part of
    the sources; columns are those the statements name. *)

Record ProjectRow := mkProjectRow {
  project_id : Z;
  project_name : string;
  project_description : option string;
  project_base_url : option string;
  project_browser : string;
  project_headless : option bool;
  project_created_at : Z
}.

(** [models.Project] after validation. *)
Record Project := mkProject {
  p_id : Z;
  p_name : string;
  p_description : option string;
  p_base_url : option string;
  p_browser : string;
  p_headless : bool;
  p_created_at : Z
}.

Record CaseRow := mkCaseRow {
  case_id : Z;
  case_project_id : Z;
  case_module_id : option Z;
  case_name : string;
  case_description : option string;
  case_created_at : Z
}.

(** The dictionary [get_test_case] returns: the row plus its ['steps']. *)
Record CaseData := mkCaseData {
  case_row : CaseRow;
  steps : list Step
}.

Record RunRow := mkRunRow {
  run_id : Z;
  run_case_id : Z;
  run_status : string;
  run_start_time : Z;
  run_end_time : Z;
  run_duration : Z;
  run_report_path : option string;
  run_log_path : option string
}.

Record LogRow := mkLogRow {
  log_run_id : Z;
  log_step_id : option Z;
  log_level : string;
  log_message : string;
  log_screenshot_path : option string
}.

Record Db := mkDb {
  projects : list ProjectRow;
  test_cases : list CaseRow;
  test_steps : list Step;
  test_runs : list RunRow;
  run_logs : list LogRow;
  (** the AUTO_INCREMENT counter of [test_runs.id] *)
  test_runs_next_id : Z
}.

Definition set_runs (runs : list RunRow) (next : Z) (d : Db) : Db :=
  {| projects := projects d; test_cases := test_cases d;
     test_steps := test_steps d; test_runs := runs;
     run_logs := run_logs d; test_runs_next_id := next |}.

Definition set_logs (logs : list LogRow) (d : Db) : Db :=
  {| projects := projects d; test_cases := test_cases d;
     test_steps := test_steps d; test_runs := test_runs d;
     run_logs := logs; test_runs_next_id := test_runs_next_id d |}.

(** [ORDER BY step_order ASC]: stable insertion into a sorted list. *)
Fixpoint insert_by_order (x : Step) (l : list Step) : list Step :=
  match l with
  | [] => [x]
  | y :: l' =>
      if bool_decide (step_order x < step_order y)
      then x :: y :: l'
      else y :: insert_by_order x l'
  end.

Definition order_by_step_order (l : list Step) : list Step :=
  foldr insert_by_order [] l.

(** [ORDER BY id DESC LIMIT 1] over a column of ids. *)
Definition max_id (ids : list Z) : option Z :=
  foldr (λ i acc, match acc with
                  | Some j => Some (Z.max i j)
                  | None => Some i
                  end) None ids.

Section Runner.
Context `{Driver}.

(** The process state the store functions see: the outside world and the
    database tables. *)
Record Sys := mkSys {
  world : World;
  db : Db
}.

Definition on_world {A} (m : M World A) : M Sys A :=
  zoom world (λ w s, {| world := w; db := db s |}) m.

Definition set_db (d : Db) (s : Sys) : Sys := {| world := world s; db := d |}.

(** [with get_db_cursor(commit) as cursor: body].  A failing
    [mysql.connector.connect] is turned into [IOError] by
    [get_db_connection]; a body that raises leaves nothing committed. *)
Definition get_db_cursor {A} (commit : bool) (body : M Sys A) : M Sys A :=
  λ s, match perform DbConnect (world s) with
       | (Some _, w) =>
           (Raise (IOError "无法连接到数据库。"), {| world := w; db := db s |})
       | (None, w) =>
           match body {| world := w; db := db s |} with
           | (Return a, s') =>
               (Return a, if commit then s' else set_db (db s) s')
           | (Raise e, s') => (Raise e, set_db (db s) s')
           end
       end.

(** [cursor.execute(sql, ...)] for a statement that writes. *)
Definition cursor_execute (sql : string) (effect : Db → Db) : M Sys unit :=
  on_world (call (DbExecute sql)) ;;
  modify (λ s, set_db (effect (db s)) s).

(** [cursor.execute(sql, ...)] followed by a fetch. *)
Definition cursor_query {A} (sql : string) (rows : Db → A) : M Sys A :=
  on_world (call (DbExecute sql)) ;;
  gets (λ s, rows (db s)).

Definition get_steps_for_case (id : Z) : M Sys (list Step) :=
  get_db_cursor false
    (cursor_query "SELECT * FROM test_steps WHERE case_id = %s ORDER BY step_order ASC"
       (λ d, order_by_step_order
               (filter (λ st, step_case_id st = id) (test_steps d)))).

Definition get_test_case (id : Z) : M Sys (option CaseData) :=
  get_db_cursor false
    (case_data ← cursor_query "SELECT * FROM test_cases WHERE id = %s"
                   (λ d, List.find (λ c, bool_decide (case_id c = id)) (test_cases d));
     match case_data with
     | Some row =>
         steps ← get_steps_for_case id;
         ret (Some {| case_row := row; steps := steps |})
     | None => ret None
     end).

(** The constraints of [models.ProjectBase] checked by [models.Project(...)]. *)
Definition valid_project (r : ProjectRow) : bool :=
  bool_decide (1 ≤ py_len (project_name r) ≤ 255)%nat
  && bool_decide (project_browser r ∈ ["chromium"; "firefox"; "webkit"]).

Definition get_project (id : Z) : M Sys (option Project) :=
  get_db_cursor false
    (project_data ← cursor_query "SELECT * FROM projects WHERE id = %s"
                      (λ d, List.find (λ p, bool_decide (project_id p = id)) (projects d));
     match project_data with
     | Some r =>
         let headless := default true (project_headless r) in
         if valid_project r then
           ret (Some {| p_id := project_id r; p_name := project_name r;
                        p_description := project_description r;
                        p_base_url := project_base_url r;
                        p_browser := project_browser r;
                        p_headless := headless;
                        p_created_at := project_created_at r |})
         else raise (ValidationError "validation error for Project")
     | None => ret None
     end).

(** *** [core/playwright_manager.py] *)

Definition PlaywrightManager_init (browser_type : string) (headless : bool)
    : M World unit :=
  if negb (bool_decide (browser_type ∈ ["chromium"; "firefox"; "webkit"])) then
    raise (ValueError "不支持的浏览器类型。请从'chromium'、'firefox'、'webkit'中选择。")
  else ret tt.

Definition PlaywrightManager_start (browser_type : string) (headless : bool)
    : M World unit :=
  call PlaywrightStart ;;
  call (BrowserLaunch browser_type headless).

Definition PlaywrightManager_stop : M World unit :=
  connected ← gets is_connected;
  ((if connected : bool then call BrowserClose else ret tt) : M World unit) ;;
  call PlaywrightStop.

(** *** [core/runner.py] *)

Record LogEntry := mkLogEntry {
  entry_step_id : option Z;
  level : string;
  message : string;
  screenshot_path : option string
}.

(** The local variables of [run_test_case] that outlive its [try] block. *)
Record Locals := mkLocals {
  run_log_entries : list LogEntry;
  test_status : string;
  report_path : option string;
  log_file_path : option string;
  (** ['file_handler' in locals()] *)
  file_handler : bool
}.

Record RunState := mkRunState {
  sys : Sys;
  locals : Locals
}.

Definition on_sys {A} (m : M Sys A) : M RunState A :=
  zoom sys (λ s st, {| sys := s; locals := locals st |}) m.

Definition on_page {A} (m : M World A) : M RunState A := on_sys (on_world m).

Definition set_locals (f : Locals → Locals) : M RunState unit :=
  modify (λ st, {| sys := sys st; locals := f (locals st) |}).

Definition append_log (e : LogEntry) (l : Locals) : Locals :=
  {| run_log_entries := run_log_entries l ++ [e];
     test_status := test_status l; report_path := report_path l;
     log_file_path := log_file_path l; file_handler := file_handler l |}.

Definition set_test_status (s : string) (l : Locals) : Locals :=
  {| run_log_entries := run_log_entries l;
     test_status := s; report_path := report_path l;
     log_file_path := log_file_path l; file_handler := file_handler l |}.

Definition set_report_path (p : string) (l : Locals) : Locals :=
  {| run_log_entries := run_log_entries l;
     test_status := test_status l; report_path := Some p;
     log_file_path := log_file_path l; file_handler := file_handler l |}.

Definition set_log_file_path (p : string) (l : Locals) : Locals :=
  {| run_log_entries := run_log_entries l;
     test_status := test_status l; report_path := report_path l;
     log_file_path := Some p; file_handler := file_handler l |}.

Definition set_file_handler (l : Locals) : Locals :=
  {| run_log_entries := run_log_entries l;
     test_status := test_status l; report_path := report_path l;
     log_file_path := log_file_path l; file_handler := true |}.

Definition initial_locals : Locals :=
  {| run_log_entries := []; test_status := "Failed"; report_path := None;
     log_file_path := None; file_handler := false |}.

(** [step['id'] = i + 1] *)
Definition set_step_id (n : Z) (step : Step) : Step :=
  {| step_id := Some n; step_case_id := step_case_id step;
     step_order := step_order step; keyword := keyword step;
     locator := locator step; value := value step;
     description := description step |}.

(** The [for i, step in enumerate(...)] loop from index [i] on; the result
    is [all_steps_succeeded]. *)
Fixpoint step_loop (engine : KeywordEngine) (i : Z) (steps : list Step)
    : M RunState bool :=
  match steps with
  | [] => ret true
  | step :: rest =>
      let step := set_step_id (i + 1) step in
      r ← on_page (execute_step engine step);
      let '(success, message, screenshot_path) := r in
      let log_level := if success : bool then "INFO" else "ERROR" in
      set_locals (append_log {| entry_step_id := step_id step;
                                level := log_level;
                                message := message;
                                screenshot_path := screenshot_path |}) ;;
      if success then step_loop engine (i + 1) rest
      else ret false
  end.

(** The [async with] block before the loop: context, tracing, page and
    engine. *)
Definition session_open (project_data : Project) (output_dir : string)
    : M RunState KeywordEngine :=
  set_locals (set_report_path (os_path_join output_dir "report.zip")) ;;
  on_page (call NewContext) ;;
  on_page (call TracingStart) ;;
  on_page (call NewPage) ;;
  on_page (KeywordEngine_init (py_or (p_base_url project_data) "") output_dir).

(** The [async with] block after the loop: the trace is written and the
    page and context are closed. *)
Definition session_close (output_dir : string) : M RunState unit :=
  let trace_path := os_path_join output_dir "trace.zip" in
  on_page (call (TracingStop trace_path)) ;;
  on_page (call PageClose) ;;
  on_page (call ContextClose) ;;
  set_locals (set_report_path trace_path).

(** The body of the [async with PlaywrightManager(...) as browser] block. *)
Definition session_body (project_data : Project) (output_dir : string)
    (steps : list Step) : M RunState bool :=
  engine ← session_open project_data output_dir;
  all_steps_succeeded ← step_loop engine 0 steps;
  session_close output_dir ;;
  ret all_steps_succeeded.

(** [async with PlaywrightManager(browser_type, headless) as browser: body]:
    [__aexit__] runs [stop] whether the body returned or raised. *)
Definition with_PlaywrightManager {A} (browser_type : string) (headless : bool)
    (body : M RunState A) : M RunState A :=
  on_page (PlaywrightManager_init browser_type headless) ;;
  on_page (PlaywrightManager_start browser_type headless) ;;
  try_finally body (on_page PlaywrightManager_stop).

(** Step 1 of the [try] block: the case and its project. *)
Definition run_lookup (id : Z) : M RunState (CaseData * Project) :=
  case_data ← on_sys (get_test_case id);
  match case_data with
  | None =>
      raise (ValueError ("Test case with ID " +:+ fmt_int id +:+ " not found."))
  | Some case_data =>
      project_data ← on_sys (get_project (case_project_id (case_row case_data)));
      match project_data with
      | None =>
          raise (ValueError ("Project with ID "
                             +:+ fmt_int (case_project_id (case_row case_data))
                             +:+ " not found."))
      | Some project_data => ret (case_data, project_data)
      end
  end.

(** The output directory of the run and its log file. *)
Definition run_output (id : Z) (start_time : Z) : M RunState string :=
  let run_timestamp := strftime start_time in
  let output_dir :=
    os_path_join "reports" ("run_" +:+ fmt_int id +:+ "_" +:+ run_timestamp) in
  on_page (call (OsMakedirs output_dir)) ;;
  let log_file_path := os_path_join output_dir "run.log" in
  set_locals (set_log_file_path log_file_path) ;;
  on_page (call (FileHandlerOpen log_file_path)) ;;
  set_locals set_file_handler ;;
  ret output_dir.

Definition status_of (all_steps_succeeded : bool) : string :=
  if all_steps_succeeded then "Passed" else "Failed".

(** The [try] block of [run_test_case]. *)
Definition run_test_case_try (id : Z) (start_time : Z) : M RunState unit :=
  found ← run_lookup id;
  let '(case_data, project_data) := found in
  output_dir ← run_output id start_time;
  all_steps_succeeded ←
    with_PlaywrightManager (p_browser project_data) (p_headless project_data)
      (session_body project_data output_dir (steps case_data));
  set_locals (set_test_status (status_of all_steps_succeeded)).

(** The entry appended by the [except] clause. *)
Definition critical_entry (e : Exc) : LogEntry :=
  {| entry_step_id := None; level := "CRITICAL";
     message := exc_str e; screenshot_path := None |}.

(** The [except Exception as e] clause. *)
Definition run_test_case_except (e : Exc) : M RunState unit :=
  set_locals (set_test_status "Failed") ;;
  set_locals (append_log (critical_entry e)).

Definition log_row (id : Z) (log : LogEntry) : LogRow :=
  {| log_run_id := id; log_step_id := entry_step_id log;
     log_level := level log; log_message := message log;
     log_screenshot_path := screenshot_path log |}.

Definition run_row (new_id id : Z) (status : string)
    (start_time end_time duration : Z) (report_path log_path : option string)
    : RunRow :=
  {| run_id := new_id; run_case_id := id;
     run_status := status; run_start_time := start_time;
     run_end_time := end_time; run_duration := duration;
     run_report_path := report_path; run_log_path := log_path |}.

(** [for log in logs: cursor.execute(sql_log, ...)] *)
Fixpoint insert_run_logs (new_run_id : Z) (logs : list LogEntry) : M Sys unit :=
  match logs with
  | [] => ret tt
  | log :: logs =>
      cursor_execute
        "INSERT INTO run_logs (run_id, step_id, level, message, screenshot_path) VALUES (%s, %s, %s, %s, %s)"
        (λ d, set_logs (run_logs d ++ [log_row new_run_id log]) d) ;;
      insert_run_logs new_run_id logs
  end.

(** The statements of [save_run_results] inside the cursor block. *)
Definition save_run_results_transaction (id : Z) (status : string)
    (start_time end_time duration : Z) (report_path log_path : option string)
    (logs : list LogEntry) : M Sys unit :=
  cursor_execute
    "INSERT INTO test_runs (case_id, status, start_time, end_time, duration, report_path, log_path) VALUES (%s, %s, %s, %s, %s, %s, %s)"
    (λ d, set_runs
            (test_runs d ++
               [run_row (test_runs_next_id d) id status start_time end_time
                  duration report_path log_path])
            (test_runs_next_id d + 1) d) ;;
  row ← cursor_query "SELECT id FROM test_runs WHERE case_id = %s ORDER BY id DESC LIMIT 1"
          (λ d, max_id (run_id <$> filter (λ r, run_case_id r = id) (test_runs d)));
  match row with
  | None => raise (mkExc "TypeError" "'NoneType' object is not subscriptable")
  | Some new_run_id =>
      insert_run_logs new_run_id logs
  end.

(** [save_run_results]: an [Exception] is logged and dropped. *)
Definition save_run_results (id : Z) (status : string)
    (start_time end_time duration : Z) (report_path log_path : option string)
    (logs : list LogEntry) : M Sys unit :=
  try_except
    (get_db_cursor true
       (save_run_results_transaction id status start_time end_time duration
          report_path log_path logs))
    (λ e, ret tt).

(** The [finally] clause of [run_test_case]. *)
Definition run_test_case_finally (id : Z) (start_time : Z) : M RunState unit :=
  end_time ← on_page (gets clock);
  let duration := end_time - start_time in
  l ← gets locals;
  on_sys (save_run_results id (test_status l) start_time end_time duration
            (report_path l) (log_file_path l) (run_log_entries l)) ;;
  if file_handler l then on_page (call FileHandlerClose) else ret tt.

(** [try]/[except] of [run_test_case], before the [finally] clause: the
    state in which the run is handed to [save_run_results]. *)
Definition run_test_case_outcome (id : Z) (start_time : Z) : M RunState unit :=
  try_except (run_test_case_try id start_time) run_test_case_except.

Definition run_test_case (id : Z) : M Sys unit :=
  λ s,
    let start_time := clock (world s) in
    match try_finally (run_test_case_outcome id start_time)
                      (run_test_case_finally id start_time)
                      {| sys := s; locals := initial_locals |} with
    | (r, st) => (r, sys st)
    end.

(** *** Vocabulary of the run properties *)

(** The run up to the first iteration of the step loop, when nothing
    raises on the way: the case, its project, the output directory and the
    engine the loop uses. *)
Definition run_until_loop (id : Z) (start_time : Z)
    : M RunState (CaseData * Project * string * KeywordEngine) :=
  found ← run_lookup id;
  let '(case_data, project_data) := found in
  output_dir ← run_output id start_time;
  on_page (PlaywrightManager_init (p_browser project_data) (p_headless project_data)) ;;
  on_page (PlaywrightManager_start (p_browser project_data) (p_headless project_data)) ;;
  engine ← session_open project_data output_dir;
  ret (case_data, project_data, output_dir, engine).

(** All the steps, executed in order from position [i + 1] in world [w],
    return success; the result is the world they leave. *)
Fixpoint steps_succeed (engine : KeywordEngine) (i : Z) (steps : list Step)
    (w : World) : option World :=
  match steps with
  | [] => Some w
  | step :: rest =>
      match execute_step engine (set_step_id (i + 1) step) w with
      | (Return (true, _, _), w') => steps_succeed engine (i + 1) rest w'
      | _ => None
      end
  end.

(** The step at index [j] (position [j + 1]) is the first to fail: the
    steps before it succeed and it returns failure. *)
Definition first_failure (engine : KeywordEngine) (steps : list Step) (j : nat)
    (w : World) : option World :=
  match steps !! j with
  | Some step =>
      match steps_succeed engine 0 (take j steps) w with
      | Some w1 =>
          match execute_step engine (set_step_id (Z.of_nat j + 1) step) w1 with
          | (Return (false, _, _), w2) => Some w2
          | _ => None
          end
      | None => None
      end
  | None => None
  end.

(** A step list in ascending position order. *)
Definition ascending (l : list Step) : Prop :=
  StronglySorted (λ a b, step_order a ≤ step_order b) l.

(** Every entry carries its 1-based position in the log as step id. *)
Definition numbered (logs : list LogEntry) : Prop :=
  ∀ j e, logs !! j = Some e → entry_step_id e = Some (Z.of_nat j + 1).

(** Two steps that agree on everything but the stored id, case and
    position. *)
Definition same_action (a b : Step) : Prop :=
  keyword a = keyword b ∧ locator a = locator b ∧
  value a = value b ∧ description a = description b.

(** The tables after one run has been recorded. *)
Definition recorded (d : Db) (id : Z) (status : string)
    (start_time end_time duration : Z) (report_path log_path : option string)
    (logs : list LogEntry) : Db :=
  let new_run_id := test_runs_next_id d in
  set_logs (run_logs d ++ (log_row new_run_id <$> logs))
    (set_runs
       (test_runs d ++
          [run_row new_run_id id status start_time end_time duration
             report_path log_path])
       (new_run_id + 1) d).

(** The store accepts every connection and statement. *)
Definition store_accepts : Prop :=
  (∀ w, (perform DbConnect w).1 = None) ∧
  (∀ sql w, (perform (DbExecute sql) w).1 = None).

(** Ids of [test_runs] already handed out lie below the counter. *)
Definition runs_below_counter (d : Db) : Prop :=
  ∀ r, r ∈ test_runs d → run_id r < test_runs_next_id d.

Definition add_logs (new : list LogEntry) (l : Locals) : Locals :=
  {| run_log_entries := run_log_entries l ++ new;
     test_status := test_status l; report_path := report_path l;
     log_file_path := log_file_path l; file_handler := file_handler l |}.

Definition with_world (w : World) (st : RunState) : RunState :=
  {| sys := {| world := w; db := db (sys st) |}; locals := locals st |}.

Definition logs_of (st : RunState) : list LogEntry := run_log_entries (locals st).
Definition db_of (st : RunState) : Db := db (sys st).

(** A computation leaves the observation [f] of the state unchanged,
    whether it returns or raises. *)
Definition keeps {A T} (f : RunState → T) (m : M RunState A) : Prop :=
  ∀ st, f (m st).2 = f st.

(** The entry the loop records for a step outcome. *)
Definition step_entry (i : Z) (success : bool) (message : string)
    (shot : option string) : LogEntry :=
  {| entry_step_id := Some (i + 1);
     level := if success then "INFO" else "ERROR";
     message := message;
     screenshot_path := shot |}.

(** What is left of the [try] block once the loop is reached. *)
Definition run_from_loop (engine : KeywordEngine) (steps : list Step)
    (output_dir : string) : M RunState unit :=
  all_steps_succeeded ←
    try_finally
      (all_steps_succeeded ← step_loop engine 0 steps;
       session_close output_dir ;;
       ret all_steps_succeeded)
      (on_page PlaywrightManager_stop);
  set_locals (set_test_status (status_of all_steps_succeeded)).

(** From a state satisfying [P] the computation ends, returning or
    raising, in a state satisfying [Q]. *)
Definition hoare {A} (P : RunState → Prop) (m : M RunState A)
    (Q : RunState → Prop) : Prop :=
  ∀ st, P st → Q (m st).2.

Definition no_logs (st : RunState) : Prop := logs_of st = [].
Definition numbered_logs (st : RunState) : Prop := numbered (logs_of st).

End Runner.

(** *** Scripted drivers

    Worlds that record the calls made; [fails] says which calls raise.  The
    clock advances by one second per call. *)
Definition scripted (fails : Call → option Exc) : Driver :=
  {| World := list Call;
     perform c w := (fails c, app w [c]);
     is_connected _ := true;
     clock w := Z.of_nat (length w);
     strftime _ := "20240101_120000" |}.

End Core.

(** ** Concrete agents, cases and drivers *)

Module Demo.
Import Agent Core.

Definition demo_registration : AgentRegistration :=
  {| reg_name := "worker"; reg_hostname := "host-1";
     reg_ip_address := "10.0.0.5"; reg_capabilities := ["playwright"; "ui_testing"] |}.

Definition demo_info (n : string) : AgentInfo :=
  {| Agent.id := ""; name := n; hostname := "host-1"; ip_address := "10.0.0.5";
     status := OFFLINE; last_seen := 0; capabilities := []; current_task := None;
     created_at := 0 |}.

Definition run_case (n : Z) : AgentCommandRequest :=
  {| command := RUN_TEST_CASE; payload := {[ "case_id" := pretty n ]}; timeout := 300 |}.

Definition pong : AgentCommandResponse :=
  {| success := true; Agent.message := "Pong"; result := None; error := None |}.

(** A manager and a router with one registered agent, [agent-1]. *)
Definition one_agent : AgentManager :=
  (register_agent empty_manager (demo_info "worker") "agent-1" 100 100).2.

Definition one_agent_router : Router.State :=
  (Router.register_agent Router.empty_router demo_registration "agent-1" 100 100 100 100).2.

(** The records the registrations above store. *)
Definition stored_info (caps : list string) : AgentInfo :=
  {| Agent.id := "agent-1"; name := "worker"; hostname := "host-1";
     ip_address := "10.0.0.5"; status := ONLINE; last_seen := 100;
     capabilities := caps; current_task := None; created_at := 100 |}.

Definition demo_project : ProjectRow :=
  {| project_id := 1; project_name := "shop"; project_description := None;
     project_base_url := Some "http://shop.test"; project_browser := "chromium";
     project_headless := None; project_created_at := 0 |}.

Definition demo_step (n : Z) (k : string) (l v : option string) (case : Z) : Step :=
  {| step_id := Some (100 + n); step_case_id := case; step_order := n;
     keyword := Some k; locator := l; value := v; description := None |}.

(** Case 7 logs in; case 8 is the same with the locator of step 3
    misspelled; case 9 has no step. *)
Definition demo_db : Db :=
  {| projects := [demo_project];
     test_cases :=
       [ {| case_id := 7; case_project_id := 1; case_module_id := None;
            case_name := "login"; case_description := None; case_created_at := 0 |};
         {| case_id := 8; case_project_id := 1; case_module_id := None;
            case_name := "login typo"; case_description := None; case_created_at := 0 |};
         {| case_id := 9; case_project_id := 1; case_module_id := None;
            case_name := "empty"; case_description := None; case_created_at := 0 |} ];
     test_steps :=
       [ demo_step 3 "click" (Some "#submit") None 7;
         demo_step 1 "goto" None (Some "/login") 7;
         demo_step 2 "fill" (Some "#user") (Some "bob") 7;
         demo_step 4 "expect_text" (Some "#greeting") (Some "Welcome bob") 7;
         demo_step 1 "goto" None (Some "/login") 8;
         demo_step 2 "fill" (Some "#user") (Some "bob") 8;
         demo_step 3 "click" (Some "#submitt") None 8;
         demo_step 4 "expect_text" (Some "#greeting") (Some "Welcome bob") 8 ];
     test_runs := [];
     run_logs := [];
     test_runs_next_id := 1 |}.

Definition timeout_error : Exc := mkExc "TimeoutError" "Timeout 30000ms exceeded.".
Definition target_closed : Exc :=
  mkExc "TargetClosedError" "Target page, context or browser has been closed".

(** Every call returns, except a click on the misspelled locator. *)
Definition reachable_target : Driver :=
  scripted (λ c, match c with
                 | LocatorClick selector =>
                     if String.eqb selector "#submitt" then Some timeout_error else None
                 | _ => None
                 end).

(** The page is gone: every page call raises, screenshots included. *)
Definition closed_page : Driver :=
  scripted (λ c, match c with
                 | PageGoto _ | BodyWaitVisible | LocatorClick _ | LocatorFill _ _
                 | LocatorPress _ _ | LocatorSelectOption _ _ | PageWaitForSelector _
                 | PageWaitForUrl _ | ExpectToHaveText _ _ | ExpectToHaveTitle _
                 | PageScreenshot _ => Some target_closed
                 | _ => None
                 end).

(** The task running the case is cancelled while the first page loads. *)
Definition cancelled : Exc := mkExc "CancelledError" "".

Definition cancelled_load : Driver :=
  scripted (λ c, match c with
                 | PageGoto _ => Some cancelled
                 | _ => None
                 end).

(** The browser cannot be launched. *)
Definition no_browser : Driver :=
  scripted (λ c, match c with
                 | BrowserLaunch _ _ =>
                     Some (mkExc "Error" "Executable doesn't exist")
                 | _ => None
                 end).

(** The trace cannot be written. *)
Definition trace_unwritable : Driver :=
  scripted (λ c, match c with
                 | TracingStop _ => Some (mkExc "OSError" "No space left on device")
                 | _ => None
                 end).

Definition demo_engine : KeywordEngine :=
  {| base_url := "http://shop.test"; output_dir := "reports/run_7";
     screenshot_dir := "reports/run_7/screenshots" |}.

Definition unknown_step : Step :=
  {| step_id := Some 1; step_case_id := 7; step_order := 1;
     keyword := Some "hover"; locator := Some "#menu"; value := None;
     description := None |}.

(** A run starts on the demo tables with fresh locals. *)
Definition start_sys (D : Driver) (w : @World D) : @Sys D :=
  {| world := w; db := demo_db |}.

Definition start (D : Driver) (w : @World D) : @RunState D :=
  {| sys := start_sys D w; locals := initial_locals |}.

(** The values the runs below reach, by evaluation. *)
Definition typo_loop :=
  Eval vm_compute in
    run_until_loop (H:=reachable_target) 8 0 (start reachable_target []).
Definition typo_end :=
  Eval vm_compute in
    run_test_case_try (H:=reachable_target) 8 0 (start reachable_target []).
Definition login_loop :=
  Eval vm_compute in
    run_until_loop (H:=reachable_target) 7 0 (start reachable_target []).
Definition login_end :=
  Eval vm_compute in
    run_test_case_try (H:=reachable_target) 7 0 (start reachable_target []).

Definition empty_end :=
  Eval vm_compute in
    run_test_case_try (H:=reachable_target) 9 0 (start reachable_target []).
Definition empty_case :=
  Eval vm_compute in
    get_test_case (H:=reachable_target) 9 (start_sys reachable_target []).

(** The entry logged for the failing click of case 8. *)
Definition typo_third_entry : LogEntry :=
  {| entry_step_id := Some 3; level := "ERROR";
     message := "FAILURE: click on #submitt. Error: Timeout 30000ms exceeded.";
     screenshot_path :=
       Some "reports/run_8_20240101_120000/screenshots/step_3_failure.png" |}.

End Demo.

(** ** Vocabulary of further registry properties *)

Module Registry.
Import Agent.

(** Every info record is stored under its own id. *)
Definition keyed (m : AgentManager) : Prop :=
  ∀ k a, agents m !! k = Some a → id a = k.

Definition well_formed (m : AgentManager) : Prop :=
  consistent m ∧ keyed m.

(** An activity that neither unregisters [agent_id] nor registers over
    it. *)
Definition harmless (agent_id : string) (a : Activity) : Prop :=
  match a with
  | ActUnregister k => k ≠ agent_id
  | ActRegister _ uuid _ _ => uuid ≠ agent_id
  | ActResponse _ _ | ActStatus _ _ _ => True
  end.

(** The activity delivers a response of [agent_id]. *)
Definition answers (agent_id : string) (a : Activity) : Prop :=
  ∃ response, a = ActResponse agent_id response.

(** The agent stored under [k] was last seen before [cutoff]. *)
Definition stale (m : AgentManager) (cutoff : Z) (k : string) : Prop :=
  ∃ a, agents m !! k = Some a ∧ last_seen a < cutoff.

(** The router after a maintenance sweep of its manager. *)
Definition sweep (r : Router.State) (now threshold_minutes : Z) : Router.State :=
  {| Router.agent_manager :=
       cleanup_inactive_agents (Router.agent_manager r) now threshold_minutes;
     Router.agent_commands := Router.agent_commands r |}.

End Registry.

(** ** The keyword table of [core/keyword_engine.py] *)

Module Keywords.
Import Core.

(** [KeywordEngine.KEYWORD_DEFINITIONS]: keyword, description, params, in
    the order of the dictionary literal. *)
Definition KEYWORD_DEFINITIONS : list (string * (string * list string)) :=
  [("goto",              ("跳转", ["value"]));
   ("click",             ("点击", ["locator"]));
   ("fill",              ("输入", ["locator"; "value"]));
   ("press",             ("按键", ["locator"; "value"]));
   ("select_option",     ("选择选项", ["locator"; "value"]));
   ("wait_for_selector", ("等待元素", ["locator"]));
   ("wait_for_url",      ("等待URL", ["value"]));
   ("expect_text",       ("验证文本", ["locator"; "value"]));
   ("expect_title",      ("验证标题", ["value"]));
   ("screenshot",        ("截图", ["value"]))].

(** [KEYWORD_DEFINITIONS[keyword]["params"]] *)
Definition params_of (keyword : string) : option (list string) :=
  snd <$> (list_to_map KEYWORD_DEFINITIONS : gmap string (string * list string)) !! keyword.

(** The argument a handler receives under the name of a param. *)
Definition argument (param : string) (locator value : option string) : option string :=
  if String.eqb param "locator" then locator
  else if String.eqb param "value" then value
  else None.

(** The page answers every call made through the engine. *)
Definition page_answers `{Driver} : Prop := ∀ c w, (perform c w).1 = None.

(** What [execute_step] amounts to when the [try] block raises [e] before
    any call: the failure screenshot, and the failure triple carrying
    [str(e)]. *)
Definition rejected `{Driver} (self : KeywordEngine) (step : Step) (e : Exc)
    : M World (bool * string * option string) :=
  λ w, match perform (PageScreenshot (failure_screenshot_path self step)) w with
       | (None, w') =>
           (Return (false,
                    "FAILURE: " +:+ step_description step +:+ ". Error: " +:+ exc_str e,
                    Some (failure_screenshot_path self step)), w')
       | (Some e', w') => (Raise e', w')
       end.

End Keywords.

(** ** Vocabulary of the store and of the run log *)

Module Store.
Import Core.

(** Run ids are unique, as the primary key of [test_runs] has them. *)
Definition run_ids_unique (d : Db) : Prop := NoDup (run_id <$> test_runs d).

(** Every log row belongs to a run of the table. *)
Definition logs_have_runs (d : Db) : Prop :=
  ∀ l, l ∈ run_logs d → ∃ r, r ∈ test_runs d ∧ run_id r = log_run_id l.

Definition store_ok (d : Db) : Prop :=
  runs_below_counter d ∧ run_ids_unique d ∧ logs_have_runs d.

(** The three kinds of entries of a run log. *)
Definition info_entry (e : LogEntry) : Prop :=
  level e = "INFO" ∧ is_Some (entry_step_id e) ∧ screenshot_path e = None.

Definition error_entry (e : LogEntry) : Prop :=
  level e = "ERROR" ∧ is_Some (entry_step_id e) ∧ is_Some (screenshot_path e).

Definition critical (e : LogEntry) : Prop :=
  level e = "CRITICAL" ∧ entry_step_id e = None ∧ screenshot_path e = None.

(** A log of successful steps, and one that ends with the failed step. *)
Definition only_infos (logs : list LogEntry) : Prop := Forall info_entry logs.

Definition infos_then_error (logs : list LogEntry) : Prop :=
  ∃ infos e, logs = infos ++ [e] ∧ Forall info_entry infos ∧ error_entry e.

(** A screenshot recorded in a log entry is the failure screenshot of the
    step the entry names, in the directory [dir]. *)
Definition located (dir : string) (e : LogEntry) : Prop :=
  match screenshot_path e with
  | None => True
  | Some p =>
      ∃ n, entry_step_id e = Some n ∧
           p = os_path_join dir ("step_" +:+ fmt_int n +:+ "_failure.png")
  end.


Section Triples.
Context `{Driver}.

(** The output directory of the run of case [id] started at [t]. *)
Definition run_directory (id t : Z) : string :=
  os_path_join "reports" ("run_" +:+ fmt_int id +:+ "_" +:+ strftime t).

(** The run writes into [out]: its screenshots, its log file, and the
    report path it holds at this stage. *)
Definition at_stage (out : string) (report : option string) (st : RunState) : Prop :=
  Forall (located (os_path_join out "screenshots")) (logs_of st) ∧
  log_file_path (locals st) = Some (os_path_join out "run.log") ∧
  report_path (locals st) = report.

Definition placed (out : string) (st : RunState) : Prop :=
  Forall (located (os_path_join out "screenshots")) (logs_of st) ∧
  (log_file_path (locals st) = None ∨
   log_file_path (locals st) = Some (os_path_join out "run.log")) ∧
  (report_path (locals st) = None ∨
   report_path (locals st) = Some (os_path_join out "report.zip") ∨
   report_path (locals st) = Some (os_path_join out "trace.zip")).

(** From a state satisfying [P] the computation either returns [a] in a
    state satisfying [Q a] or raises in a state satisfying [E]. *)
Definition triple {A} (P : RunState → Prop) (m : M RunState A)
    (Q : A → RunState → Prop) (E : RunState → Prop) : Prop :=
  ∀ st, P st →
    match m st with
    | (Return a, st') => Q a st'
    | (Raise _, st') => E st'
    end.

(** What the loop leaves in the log, by its result. *)
Definition after_loop (all_steps_succeeded : bool) (st : RunState) : Prop :=
  if all_steps_succeeded then only_infos (logs_of st) else infos_then_error (logs_of st).

Definition interrupted (st : RunState) : Prop :=
  only_infos (logs_of st) ∨ infos_then_error (logs_of st).

End Triples.

End Store.

(** ** [agent/client.py]: the commands an agent executes *)

Module Client.
Import Agent Core.

(** The part of a [ClientAgent] that [execute_command] reads or writes,
    and the process it runs in. *)
Record ClientAgent `{Driver} := mkClientAgent {
  running : bool;
  process : Sys
}.

Section Commands.
Context `{Driver}.

(** What pydantic makes of a payload for the three request models: the id
    of the validated request ([case_id], [module_id], [project_id]) or the
    error it raises.  [isoformat] is [datetime.isoformat], [fmt_command]
    what an f-string prints for a member of [AgentCommand]. *)
Variable TestCaseExecutionRequest : Payload → Result Z.
Variable ModuleExecutionRequest : Payload → Result Z.
Variable ProjectExecutionRequest : Payload → Result Z.
Variable isoformat : Z → string.
Variable fmt_command : AgentCommand → string.

Definition validated {S} (request : Result Z) : M S Z := λ s, (request, s).

Definition in_process {A} (m : M Sys A) : M ClientAgent A :=
  zoom process (λ s self, {| running := running self; process := s |}) m.

Definition executed (what key : string) (request : Z) : AgentCommandResponse :=
  {| success := true;
     Agent.message := what +:+ " " +:+ fmt_int request +:+ " executed successfully";
     result := Some {[ key := fmt_int request; "status" := "completed" ]};
     error := None |}.

Definition failed (msg : string) (e : Exc) : AgentCommandResponse :=
  {| success := false; Agent.message := msg; result := None;
     error := Some (exc_str e) |}.

Definition _run_test_case (payload : Payload) : M Sys AgentCommandResponse :=
  try_except
    (request ← validated (TestCaseExecutionRequest payload);
     run_test_case request ;;
     ret (executed "Test case" "case_id" request))
    (λ e, ret (failed "Failed to run test case" e)).

Definition _run_module (payload : Payload) : M Sys AgentCommandResponse :=
  try_except
    (request ← validated (ModuleExecutionRequest payload);
     ret (executed "Module" "module_id" request))
    (λ e, ret (failed "Failed to run module" e)).

Definition _run_project (payload : Payload) : M Sys AgentCommandResponse :=
  try_except
    (request ← validated (ProjectExecutionRequest payload);
     ret (executed "Project" "project_id" request))
    (λ e, ret (failed "Failed to run project" e)).

(** [execute_command].  The final [else] of the source, for a command that
    is none of the five members of the enumeration, has no counterpart. *)
Definition execute_command (c : AgentCommandRequest) : M ClientAgent AgentCommandResponse :=
  try_except
    (match command c with
     | RUN_TEST_CASE => in_process (_run_test_case (payload c))
     | RUN_MODULE => in_process (_run_module (payload c))
     | RUN_PROJECT => in_process (_run_project (payload c))
     | PING =>
         now ← in_process (on_world (gets clock));
         ret {| success := true; Agent.message := "Pong";
                result := Some {[ "timestamp" := isoformat now ]};
                error := None |}
     | SHUTDOWN =>
         modify (λ self, {| running := false; process := process self |}) ;;
         ret {| success := true; Agent.message := "Agent shutting down";
                result := None; error := None |}
     end)
    (λ e, ret (failed ("Error executing command: " +:+ fmt_command (command c)) e)).

End Commands.

End Client.

(** ** [agent/router.py]: queueing a test case for an agent *)

Module Dispatch.
Import Agent Core.

(** The server process: the router's dictionaries and the store. *)
Record Server `{Driver} := mkServer {
  router : Router.State;
  store : Sys
}.

Section Routes.
Context `{Driver}.

(** The [project_config] object of the execution request, carried as text
    like every payload value. *)
Variable project_config : Project → string.

Definition in_store {A} (m : M Sys A) : M Server A :=
  zoom store (λ s sv, {| router := router sv; store := s |}) m.

Definition execution_command (case_id : Z) (project_data : Project)
    : AgentCommandRequest :=
  {| command := RUN_TEST_CASE;
     payload := {[ "case_id" := fmt_int case_id;
                   "project_config" := project_config project_data ]};
     timeout := 300 |}.

Definition queued_for (case_id : Z) (agent_id : string) : AgentCommandResponse :=
  {| success := true;
     Agent.message := "Test case " +:+ fmt_int case_id
                      +:+ " queued for execution on agent " +:+ agent_id;
     result := None;
     error := None |}.

Definition run_test_case_on_agent (agent_id : string) (case_id : Z)
    : M Server (Router.Http AgentCommandResponse) :=
  case_data ← in_store (get_test_case case_id);
  match case_data with
  | None => ret (Router.HTTPException 404 "Test case not found")
  | Some case_data =>
      project_data ← in_store (get_project (case_project_id (case_row case_data)));
      match project_data with
      | None => ret (Router.HTTPException 404 "Project not found")
      | Some project_data =>
          let command := execution_command case_id project_data in
          modify (λ sv,
            let pending := default [] (Router.agent_commands (router sv) !! agent_id) in
            {| router :=
                 {| Router.agent_manager := Router.agent_manager (router sv);
                    Router.agent_commands :=
                      <[agent_id := pending ++ [command]]>
                        (Router.agent_commands (router sv)) |};
               store := store sv |}) ;;
          ret (Router.Ok200 (queued_for case_id agent_id))
      end
  end.

End Routes.

End Dispatch.

(** ** The calls of a run, as a driver that keeps a log sees them *)

Module Lifecycle.
Import Core.

(** One call and what it raised, if anything. *)
Definition Event : Type := Call * option Exc.

(** The calls that start and stop Playwright and the browser. *)
Definition lifecycle (c : Call) : bool :=
  match c with
  | PlaywrightStart | BrowserLaunch _ _ | BrowserClose | PlaywrightStop => true
  | _ => false
  end.

Definition quiet (tr : list Event) : Prop := Forall (λ ev, lifecycle ev.1 = false) tr.

(** What [PlaywrightManager.stop] calls. *)
Definition stop_calls (tail : list Event) : Prop :=
  (∃ e, tail = [(BrowserClose, Some e)]) ∨
  (∃ r, tail = [(BrowserClose, None); (PlaywrightStop, r)]) ∨
  (∃ r, tail = [(PlaywrightStop, r)]).

(** The four ways the lifecycle calls of a run can go. *)
Definition never_started (new : list Event) : Prop := quiet new.

Definition start_failed (new : list Event) : Prop :=
  ∃ q e q', new = q ++ [(PlaywrightStart, Some e)] ++ q' ∧ quiet q ∧ quiet q'.

Definition launch_failed (new : list Event) : Prop :=
  ∃ q b h e q',
    new = q ++ [(PlaywrightStart, None); (BrowserLaunch b h, Some e)] ++ q' ∧
    quiet q ∧ quiet q'.

Definition live (new : list Event) : Prop :=
  ∃ q b h q1,
    new = q ++ [(PlaywrightStart, None); (BrowserLaunch b h, None)] ++ q1 ∧
    quiet q ∧ quiet q1.

Definition stopped (new : list Event) : Prop :=
  ∃ q b h q1 tail q',
    new = q ++ [(PlaywrightStart, None); (BrowserLaunch b h, None)] ++ q1 ++ tail ++ q' ∧
    quiet q ∧ quiet q1 ∧ stop_calls tail ∧ quiet q'.

Definition lifecycle_shape (new : list Event) : Prop :=
  never_started new ∨ start_failed new ∨ launch_failed new ∨ stopped new.

Section Logged.
Context `{Driver}.
Variable log : World → list Event.

(** The driver appends every call, with its result, to the log. *)
Definition logging : Prop :=
  ∀ c w, log (perform c w).2 = log w ++ [(c, (perform c w).1)].

(** A computation on a state with world [π] makes no lifecycle call. *)
Definition silent {S A} (π : S → World) (m : M S A) : Prop :=
  ∀ s, ∃ ext, log (π (m s).2) = log (π s) ++ ext ∧ quiet ext.

(** Since world [w0] the log has grown by calls satisfying [P]. *)
Definition traced (w0 : World) (P : list Event → Prop) (st : RunState) : Prop :=
  ∃ new, log (world (sys st)) = log w0 ++ new ∧ P new.

Definition absorbs (P : list Event → Prop) : Prop :=
  ∀ old ext, P old → quiet ext → P (old ++ ext).

End Logged.

End Lifecycle.

(** ** Further concrete registries, steps and drivers *)

Module Samples.
Import Agent Core Demo Client Dispatch Lifecycle.



(** Every call returns. *)
Definition obliging : Driver := scripted (λ _, None).

(** A [fill] step without its value. *)
Definition fill_without_value : Step :=
  {| step_id := Some 2; step_case_id := 7; step_order := 2;
     keyword := Some "fill"; locator := Some "#user"; value := None;
     description := None |}.

(** The log file handler cannot be closed. *)
Definition log_locked : Driver :=
  scripted (λ c, match c with
                 | FileHandlerClose => Some (mkExc "OSError" "Bad file descriptor")
                 | _ => None
                 end).


(** The values the lookups below reach, by evaluation. *)
Definition login_case :=
  Eval vm_compute in get_test_case (H:=obliging) 7 (start_sys obliging []).
Definition shop_project :=
  Eval vm_compute in get_project (H:=obliging) 1 (start_sys obliging []).
Definition typo_outcome :=
  Eval vm_compute in
    run_test_case_outcome (H:=reachable_target) 8 0 (start reachable_target []).

(** A validation of the two required fields of the request models: it
    accepts the payloads that name id 8 under [key] and carry a
    [project_config]. *)
Definition sample_request (key : string) (payload : gmap string string) : Result Z :=
  match payload !! key, payload !! "project_config" with
  | Some v, Some _ =>
      if String.eqb v "8" then Return 8
      else Raise (ValidationError "value is not a valid integer")
  | _, _ => Raise (ValidationError "field required")
  end.

Definition sample_command (c : AgentCommand) (key : string) : AgentCommandRequest :=
  {| command := c;
     payload := {[ key := "8"; "project_config" := "{}" ]};
     timeout := 300 |}.

(** An agent on the demo tables. *)
Definition idle_agent : ClientAgent (H:=reachable_target) :=
  {| running := true; process := start_sys reachable_target [] |}.

Definition sample_execute (c : AgentCommandRequest) :=
  execute_command (H:=reachable_target)
    (sample_request "case_id") (sample_request "module_id")
    (sample_request "project_id") (λ t, pretty t) (λ _, "command") c.

(** A server on the demo tables where no agent has registered. *)
Definition fresh_server : Server (H:=obliging) :=
  {| router := Router.empty_router; store := start_sys obliging [] |}.

Definition sample_dispatch :=
  run_test_case_on_agent (H:=obliging) (λ p, p_name p) "ghost" 7 fresh_server.

(** The log of a scripted driver: its calls, each with what it raises. *)
Definition scripted_log (fails : Call → option Exc) (w : list Call) : list Event :=
  (λ c, (c, fails c)) <$> w.

(** Playwright starts, the browser does not. *)
Definition launch_fails (c : Call) : option Exc :=
  match c with
  | BrowserLaunch _ _ => Some (mkExc "Error" "Executable doesn't exist")
  | _ => None
  end.

Definition no_launch : Driver := scripted launch_fails.

Definition no_launch_calls :=
  Eval vm_compute in
    scripted_log launch_fails
      (world (run_test_case (H:=no_launch) 9 (start_sys no_launch [])).2).

End Samples.

(** * Properties *)

Module AgentFacts.
Import Agent.

Lemma del_if_present_delete {V} k (d : gmap string V) :
  del_if_present k d = delete k d.
Proof.
  unfold del_if_present. destruct (d !! k) eqn:E; [done|].
  by rewrite delete_id.
Qed.

Lemma consistent_empty : consistent empty_manager.
Proof.
  intros i. unfold registered. simpl. rewrite !lookup_empty.
  split; split; intros [? ?]; discriminate.
Qed.

Lemma consistent_register m info uuid t1 t2 :
  consistent m → consistent (register_agent m info uuid t1 t2).2.
Proof.
  intros Hm i. unfold registered. simpl.
  destruct (decide (uuid = i)) as [->|Hne].
  - rewrite !lookup_insert_eq. split; split; eauto.
  - rewrite !lookup_insert_ne by done. apply Hm.
Qed.

Lemma consistent_unregister m agent_id :
  consistent m → consistent (unregister_agent m agent_id).
Proof.
  intros Hm i. unfold registered, unregister_agent. simpl.
  rewrite !del_if_present_delete.
  destruct (decide (agent_id = i)) as [->|Hne].
  - rewrite !lookup_delete_eq. split; split; intros [? ?]; discriminate.
  - rewrite !lookup_delete_ne by done. apply Hm.
Qed.

Lemma update_agent_status_lookup m agent_id s now i :
  agents (update_agent_status m agent_id s now) !! i =
  if decide (agent_id = i)
  then set_status s now <$> agents m !! i
  else agents m !! i.
Proof.
  unfold update_agent_status.
  destruct (agents m !! agent_id) eqn:E; simpl.
  - case_decide as Hd.
    + subst. by rewrite lookup_insert_eq, E.
    + by rewrite lookup_insert_ne.
  - case_decide as Hd; [subst; by rewrite E|done].
Qed.

Lemma update_agent_status_connections m agent_id s now :
  agent_connections (update_agent_status m agent_id s now) = agent_connections m.
Proof. unfold update_agent_status. by destruct (agents m !! agent_id). Qed.

Lemma update_agent_status_queues m agent_id s now :
  command_queues (update_agent_status m agent_id s now) = command_queues m.
Proof. unfold update_agent_status. by destruct (agents m !! agent_id). Qed.

Lemma update_agent_status_registered m agent_id s now i :
  registered (update_agent_status m agent_id s now) i ↔ registered m i.
Proof.
  unfold registered. rewrite update_agent_status_lookup.
  case_decide; [|done]. by rewrite fmap_is_Some.
Qed.

Lemma consistent_update m agent_id s now :
  consistent m → consistent (update_agent_status m agent_id s now).
Proof.
  intros Hm i. rewrite update_agent_status_registered,
    update_agent_status_connections, update_agent_status_queues. apply Hm.
Qed.

Lemma poll_once r agent_id now a :
  get_agent (Router.agent_manager r) agent_id = Some a →
  ∃ r',
    Router.get_agent_commands r agent_id now = (poll_answer (backlog r agent_id) 0, r') ∧
    is_Some (get_agent (Router.agent_manager r') agent_id) ∧
    backlog r' agent_id = tail (backlog r agent_id).
Proof.
  intros Ha. unfold Router.get_agent_commands, backlog, poll_answer. rewrite Ha.
  assert (Hreg : is_Some (get_agent
            (update_agent_status (Router.agent_manager r) agent_id (status a) now) agent_id)).
  { apply update_agent_status_registered. unfold get_agent in Ha.
    unfold registered. rewrite Ha. eauto. }
  destruct (Router.agent_commands r !! agent_id) as [[|c rest]|] eqn:E; simpl;
    eexists; (split; [reflexivity|]); simpl; (split; [done|]).
  - by rewrite E.
  - by rewrite lookup_insert_eq.
  - by rewrite E.
Qed.

Lemma send_once r agent_id c a :
  get_agent (Router.agent_manager r) agent_id = Some a →
  Router.agent_manager (Router.send_command_to_agent r agent_id c).2 = Router.agent_manager r ∧
  backlog (Router.send_command_to_agent r agent_id c).2 agent_id = backlog r agent_id ++ [c].
Proof.
  intros Ha. unfold Router.send_command_to_agent, backlog. rewrite Ha. simpl.
  by rewrite lookup_insert_eq.
Qed.

Lemma enqueue_all_backlog cs : ∀ r agent_id a,
  get_agent (Router.agent_manager r) agent_id = Some a →
  Router.agent_manager (enqueue_all r agent_id cs) = Router.agent_manager r ∧
  backlog (enqueue_all r agent_id cs) agent_id = backlog r agent_id ++ cs.
Proof.
  induction cs as [|c cs IH]; intros r agent_id a Ha; simpl.
  - by rewrite app_nil_r.
  - destruct (send_once r agent_id c a Ha) as [Hm Hb].
    destruct (IH (Router.send_command_to_agent r agent_id c).2 agent_id a) as [Hm' Hb'].
    { by rewrite Hm. }
    unfold enqueue_all in *. simpl. rewrite Hm', Hb', Hm, Hb.
    by rewrite <- app_assoc.
Qed.

Lemma poll_all_answers nows : ∀ r agent_id a,
  get_agent (Router.agent_manager r) agent_id = Some a →
  ∃ r',
    poll_all r agent_id nows =
      (poll_answer (backlog r agent_id) <$> seq 0 (length nows), r') ∧
    backlog r' agent_id = drop (length nows) (backlog r agent_id).
Proof.
  induction nows as [|now nows IH]; intros r agent_id a Ha; simpl.
  - eexists; split; [reflexivity|]. by rewrite drop_0.
  - destruct (poll_once r agent_id now a Ha) as (r1 & Hp & [a1 Ha1] & Hb1).
    rewrite Hp.
    destruct (IH r1 agent_id a1 Ha1) as (r2 & Hp2 & Hb2).
    rewrite Hp2. eexists; split.
    + f_equal. f_equal. rewrite <- fmap_S_seq, <- list_fmap_compose.
      apply list_fmap_ext. intros i x _. unfold poll_answer. simpl.
      rewrite Hb1. by rewrite lookup_tail.
    + rewrite Hb2, Hb1. destruct (backlog r agent_id); simpl; [by rewrite drop_nil|done].
Qed.

(** C8: a poll of a registered agent answers at once with one command or
    the empty object.  After enqueuing [cs] behind the backlog, the [i]-th
    poll answers the [i]-th pending command in enqueue order and the empty
    object once the backlog is exhausted, each answered command leaving the
    backlog; an empty backlog answers the empty object on every poll; two
    commands enqueued on an empty backlog come back in enqueue order. *)
Theorem poll_fifo_nonblocking r agent_id a cs nows :
  get_agent (Router.agent_manager r) agent_id = Some a →
  let pending := backlog r agent_id ++ cs in
  (∃ r',
     poll_all (enqueue_all r agent_id cs) agent_id nows =
       (poll_answer pending <$> seq 0 (length nows), r') ∧
     backlog r' agent_id = drop (length nows) pending) ∧
  (backlog r agent_id = [] →
     (poll_all r agent_id nows).1 = replicate (length nows) (Router.Ok200 Router.EmptyDict) ∧
     backlog (poll_all r agent_id nows).2 agent_id = []) ∧
  (backlog r agent_id = [] → ∀ c1 c2 t1 t2,
     (poll_all (enqueue_all r agent_id [c1; c2]) agent_id [t1; t2]).1 =
       [Router.Ok200 (Router.CommandDict c1); Router.Ok200 (Router.CommandDict c2)]).
Proof.
  intros Ha pending. split; [|split].
  - destruct (enqueue_all_backlog cs r agent_id a Ha) as [Hm Hb].
    destruct (poll_all_answers nows (enqueue_all r agent_id cs) agent_id a)
      as (r' & Hp & Hd).
    { by rewrite Hm. }
    exists r'. by rewrite Hp, Hd, Hb.
  - intros Hempty.
    destruct (poll_all_answers nows r agent_id a Ha) as (r' & Hp & Hd).
    rewrite Hp, Hempty in *. simpl. split.
    + clear. generalize 0%nat. induction (length nows) as [|n IH]; intros k; simpl; [done|].
      rewrite IH. reflexivity.
    + by rewrite Hd, drop_nil.
  - intros Hempty c1 c2 t1 t2.
    destruct (enqueue_all_backlog [c1; c2] r agent_id a Ha) as [Hm Hb].
    destruct (poll_all_answers [t1; t2] (enqueue_all r agent_id [c1; c2]) agent_id a)
      as (r' & Hp & Hd).
    { by rewrite Hm. }
    rewrite Hp, Hb, Hempty. reflexivity.
Qed.


Lemma reset_online_status m agent_id c t :
  is_execution (command c) = true →
  status <$> agents (reset_online m agent_id c t) !! agent_id =
  (λ _, ONLINE) <$> agents m !! agent_id.
Proof.
  intros Hc. unfold reset_online. rewrite Hc, update_agent_status_lookup.
  rewrite decide_True by done. by destruct (agents m !! agent_id).
Qed.

Lemma wait_for_positive agent_id timeout others m :
  0 < timeout → wait_for agent_id timeout others m = queue_get agent_id others m.
Proof. intros Ht. unfold wait_for. by rewrite bool_decide_eq_false_2 by lia. Qed.

Lemma wait_for_elapsed agent_id timeout others m :
  timeout ≤ 0 → wait_for agent_id timeout others m = (None, foldl run_activity m others).
Proof. intros Ht. unfold wait_for. by rewrite bool_decide_eq_true_2. Qed.

Lemma wait_for_timeout agent_id timeout m :
  agent_connections m !! agent_id = Some [] →
  wait_for agent_id timeout [] m = (None, m).
Proof. intros Hc. unfold wait_for. case_bool_decide; [done|]. simpl. by rewrite Hc. Qed.

Lemma wait_for_answer agent_id timeout m response :
  0 < timeout →
  agent_connections m !! agent_id = Some [] →
  wait_for agent_id timeout [ActResponse agent_id response] m =
    (Some response,
     {| agents := agents m;
        agent_connections := <[agent_id := []]> (agent_connections m);
        command_queues := command_queues m |}).
Proof.
  intros Ht Hc. rewrite wait_for_positive by done.
  simpl. rewrite Hc. unfold handle_agent_response. rewrite Hc.
  simpl. rewrite lookup_insert_eq. simpl. by rewrite insert_insert_eq.
Qed.

Lemma enqueue_after_busy m agent_id c q t :
  agent_connections (enqueue_command (mark_busy m agent_id c t) agent_id q c)
  = agent_connections m.
Proof.
  unfold enqueue_command, mark_busy. simpl.
  destruct (is_execution (command c)); [|done].
  apply update_agent_status_connections.
Qed.

(** C1: for an execution command sent to a registered agent, the status is
    Busy when the command is enqueued; when the agent answers within a
    positive timeout, the answer is returned and the status is Online; when
    the wait times out, the caller gets the Timeout failure response and
    the status written last is Online, which replaces the Error written by
    the timeout handler.  For a command that is not an execution command
    the timeout leaves Error.  Under a timeout that is not positive the
    wait times out even though the agent answers, and the answer stays in
    the response queue. *)
Theorem send_command_status m agent_id c a q t_busy t_err t_fin :
  agents m !! agent_id = Some a →
  command_queues m !! agent_id = Some q →
  agent_connections m !! agent_id = Some [] →
  is_execution (command c) = true →
  let m_busy := mark_busy m agent_id c t_busy in
  (status <$> agents m_busy !! agent_id = Some BUSY ∧
   command_queues m_busy !! agent_id = Some q) ∧
  (0 < timeout c →
   ∀ response,
     ∃ m',
       send_command m agent_id c [ActResponse agent_id response] t_busy t_err t_fin
         = (response, m') ∧
       status <$> agents m' !! agent_id = Some ONLINE) ∧
  (∃ m',
     send_command m agent_id c [] t_busy t_err t_fin = (timeout_response, m') ∧
     status <$> agents m' !! agent_id = Some ONLINE ∧
     command_queues m' !! agent_id = Some (q ++ [c])) ∧
  (∀ c', is_execution (command c') = false →
     ∃ m',
       send_command m agent_id c' [] t_busy t_err t_fin = (timeout_response, m') ∧
       status <$> agents m' !! agent_id = Some ERROR) ∧
  (timeout c ≤ 0 →
   ∀ response,
     ∃ m',
       send_command m agent_id c [ActResponse agent_id response] t_busy t_err t_fin
         = (timeout_response, m') ∧
       status <$> agents m' !! agent_id = Some ONLINE ∧
       agent_connections m' !! agent_id = Some [response]).
Proof.
  intros Ha Hq Hc Hexec m_busy.
  assert (Hbusy : agents m_busy !! agent_id = Some (set_status BUSY t_busy a)).
  { subst m_busy. unfold mark_busy. rewrite Hexec.
    by rewrite update_agent_status_lookup, decide_True, Ha. }
  assert (Hc2 : agent_connections (enqueue_command m_busy agent_id q c) !! agent_id
                = Some []).
  { subst m_busy. by rewrite enqueue_after_busy. }
  split; [|split; [|split; [|split]]].
  - rewrite Hbusy. split; [done|].
    subst m_busy. unfold mark_busy. rewrite Hexec.
    by rewrite update_agent_status_queues.
  - intros Hpos response. unfold send_command. rewrite Hq. cbv zeta.
    fold m_busy. rewrite Hc2, (wait_for_answer _ _ _ _ Hpos Hc2).
    eexists; split; [reflexivity|].
    rewrite reset_online_status by done. simpl. by rewrite Hbusy.
  - unfold send_command. rewrite Hq. cbv zeta.
    fold m_busy. rewrite Hc2, (wait_for_timeout _ _ _ Hc2).
    eexists; split; [reflexivity|]. split.
    + rewrite reset_online_status by done.
      rewrite update_agent_status_lookup, decide_True by done. simpl.
      by rewrite Hbusy.
    + unfold reset_online. rewrite Hexec.
      rewrite !update_agent_status_queues. simpl. by rewrite lookup_insert_eq.
  - intros c' Hping. unfold send_command, mark_busy, reset_online.
    rewrite Hq, Hping. cbv zeta.
    assert (Hc3 : agent_connections (enqueue_command m agent_id q c') !! agent_id
                  = Some []) by done.
    rewrite Hc3, (wait_for_timeout _ _ _ Hc3).
    eexists; split; [reflexivity|].
    rewrite update_agent_status_lookup, decide_True by done. simpl. by rewrite Ha.
  - intros Hneg response. unfold send_command. rewrite Hq. cbv zeta.
    fold m_busy. rewrite Hc2, (wait_for_elapsed _ _ _ _ Hneg).
    eexists; split; [reflexivity|]. simpl. unfold handle_agent_response.
    rewrite Hc2. split.
    + rewrite reset_online_status by done.
      rewrite update_agent_status_lookup, decide_True by done. simpl.
      by rewrite Hbusy.
    + unfold reset_online. rewrite Hexec.
      rewrite !update_agent_status_connections. simpl. by rewrite lookup_insert_eq.
Qed.

End AgentFacts.

Module CoreFacts.
Import Core.

(** *** Reasoning about the monad *)

Lemma bind_Return {S A B} (m : M S A) (k : A → M S B) s a s' :
  m s = (Return a, s') → (m ≫= k) s = k a s'.
Proof. intros Hm. unfold mbind, M_bind, bind. by rewrite Hm. Qed.

Lemma bind_Raise {S A B} (m : M S A) (k : A → M S B) s e s' :
  m s = (Raise e, s') → (m ≫= k) s = (Raise e, s').
Proof. intros Hm. unfold mbind, M_bind, bind. by rewrite Hm. Qed.

Lemma bind_inv {S A B} (m : M S A) (k : A → M S B) s r s' :
  (m ≫= k) s = (r, s') →
  (∃ a s1, m s = (Return a, s1) ∧ k a s1 = (r, s')) ∨
  (∃ e, m s = (Raise e, s') ∧ r = Raise e).
Proof.
  unfold mbind, M_bind, bind. destruct (m s) as [[a|e] s1]; intros Hk.
  - left. eauto.
  - right. inversion Hk; subst. eauto.
Qed.

Section EngineFacts.
Context `{Driver}.

Lemma call_Return c w w' :
  perform c w = (None, w') → call c w = (Return (), w').
Proof. intros Hp. unfold call. by rewrite Hp. Qed.

Lemma call_Raise c w e w' :
  perform c w = (Some e, w') → call c w = (Raise e, w').
Proof. intros Hp. unfold call. by rewrite Hp. Qed.

(** *** Locator routing *)

Lemma startswith_char (c : ascii) s :
  startswith s (String c "") = true ↔ ∃ rest, s = String c rest.
Proof.
  unfold startswith. destruct s as [|d rest]; simpl.
  - split; [discriminate|]. intros [? ?]; discriminate.
  - destruct (ascii_dec c d) as [->|Hne].
    + split; [eauto|]. intros _. by destruct rest.
    + split; [discriminate|]. intros [? [=]]. congruence.
Qed.

Lemma get_locator_path locator :
  path_expression locator → _get_locator locator = "xpath=" +:+ locator.
Proof.
  intros [rest [->| ->]]; unfold _get_locator.
  - assert (startswith (String "/" rest) "/" = true) as ->; [|done].
    apply startswith_char. eauto.
  - assert (startswith (String "(" rest) "(" = true) as ->.
    { apply startswith_char. eauto. }
    by rewrite orb_true_r.
Qed.

Lemma path_expression_dec locator :
  path_expression locator ∨ ¬ path_expression locator.
Proof.
  destruct (startswith locator "/") eqn:E1.
  { left. apply startswith_char in E1 as [rest ->]. exists rest. eauto. }
  destruct (startswith locator "(") eqn:E2.
  { left. apply startswith_char in E2 as [rest ->]. exists rest. eauto. }
  right. intros [rest [->| ->]].
  - assert (startswith (String "/" rest) "/" = true); [|congruence].
    apply startswith_char. eauto.
  - assert (startswith (String "(" rest) "(" = true); [|congruence].
    apply startswith_char. eauto.
Qed.

Lemma get_locator_native locator :
  ¬ path_expression locator → _get_locator locator = locator.
Proof.
  intros Hn. unfold _get_locator.
  destruct (startswith locator "/") eqn:E1.
  { apply startswith_char in E1 as [rest ->]. exfalso. apply Hn. exists rest. eauto. }
  destruct (startswith locator "(") eqn:E2.
  { apply startswith_char in E2 as [rest ->]. exfalso. apply Hn. exists rest. eauto. }
  reflexivity.
Qed.

Lemma xpath_prefix_neq locator : "xpath=" +:+ locator ≠ locator.
Proof.
  intros Heq. apply (f_equal String.length) in Heq.
  change ("xpath=" +:+ locator) with
    (String "x" (String "p" (String "a" (String "t" (String "h" (String "=" locator))))))
    in Heq.
  simpl in Heq. lia.
Qed.

(** C5: [_get_locator] prefixes the locator with [xpath=] exactly when it
    starts with a slash or an opening parenthesis, and returns it unchanged
    otherwise. *)
Theorem get_locator_routing locator :
  (_get_locator locator = "xpath=" +:+ locator ↔ path_expression locator) ∧
  (_get_locator locator = locator ↔ ¬ path_expression locator) ∧
  _get_locator "/html/body/div" = "xpath=/html/body/div" ∧
  _get_locator "(//div)" = "xpath=(//div)" ∧
  _get_locator "button#submit" = "button#submit".
Proof.
  split_and!; try reflexivity.
  - split; [|apply get_locator_path].
    intros Hx. destruct (path_expression_dec locator) as [Hp|Hn]; [done|].
    rewrite get_locator_native in Hx by done.
    by apply eq_sym, xpath_prefix_neq in Hx.
  - split; [|apply get_locator_native].
    intros Hx Hp. rewrite get_locator_path in Hx by done.
    by apply xpath_prefix_neq in Hx.
Qed.

(** *** The step boundary *)

Lemma failure_screenshot_name_head step :
  ∃ rest, failure_screenshot_name step = String "s" rest.
Proof. unfold failure_screenshot_name. eexists. reflexivity. Qed.

Lemma failure_screenshot_path_nonempty self step :
  failure_screenshot_path self step ≠ "".
Proof.
  unfold failure_screenshot_path, os_path_join.
  destruct (failure_screenshot_name_head step) as [rest ->].
  change (startswith (String "s" rest) "/") with false. cbv iota.
  destruct (String.eqb (screenshot_dir self) "" || endswith_slash (screenshot_dir self));
    destruct (screenshot_dir self); discriminate.
Qed.

Lemma screenshot_failure_name self step w :
  screenshot self (Some (failure_screenshot_name step)) w =
  match perform (PageScreenshot (failure_screenshot_path self step)) w with
  | (None, w') => (Return (failure_screenshot_path self step), w')
  | (Some e, w') => (Raise e, w')
  end.
Proof.
  unfold screenshot, failure_screenshot_path, py_or.
  destruct (failure_screenshot_name_head step) as [rest ->].
  change (String.eqb (String "s" rest) "") with false. cbv iota.
  unfold mbind, M_bind, bind, gets, call, ret.
  by destruct (perform _ w) as [[e|] w'].
Qed.

Lemma execute_step_try_Return self kw loc val d w r w' :
  execute_step_try self kw loc val d w = (Return r, w') →
  r = (true, "SUCCESS: " +:+ d, None).
Proof.
  unfold execute_step_try.
  destruct (negb (keyword_in_KEYWORDS kw)); [discriminate|].
  destruct (getattr_method self (default "" kw)) as [method|]; [|discriminate].
  unfold mbind, M_bind, bind, ret.
  destruct (method loc val w) as [[[]|e] w1]; [|discriminate].
  by intros [= <- <-].
Qed.

(** The four ways [execute_step] ends: the operation returned; the
    operation raised an [Exception] and the failure screenshot was taken;
    it raised an [Exception] and taking the screenshot raised as well; it
    raised an exception that is no [Exception], which passes through. *)
Lemma execute_step_cases self step w :
  let attempt :=
    execute_step_try self (keyword step) (locator step) (value step)
      (step_description step) w in
  (∃ w', attempt = (Return (true, "SUCCESS: " +:+ step_description step, None), w') ∧
         execute_step self step w = attempt) ∨
  (∃ e w1,
     attempt = (Raise e, w1) ∧ is_Exception e = true ∧
     ((∃ w', perform (PageScreenshot (failure_screenshot_path self step)) w1 = (None, w') ∧
             execute_step self step w =
               (Return (false,
                        "FAILURE: " +:+ step_description step +:+ ". Error: " +:+ exc_str e,
                        Some (failure_screenshot_path self step)), w')) ∨
      (∃ e' w', perform (PageScreenshot (failure_screenshot_path self step)) w1 = (Some e', w') ∧
                execute_step self step w = (Raise e', w')))) ∨
  (∃ e w1,
     attempt = (Raise e, w1) ∧ is_Exception e = false ∧
     execute_step self step w = attempt).
Proof.
  intros attempt. subst attempt. unfold execute_step, try_except.
  fold (step_description step).
  destruct (execute_step_try _ _ _ _ _ w) as [[r|e] w1] eqn:Etry.
  - left. apply execute_step_try_Return in Etry as Hr. subst r. eauto.
  - right. destruct (is_Exception e) eqn:Hexc; [left|right; by eauto].
    exists e, w1. split_and!; [done|done|].
    unfold mbind, M_bind, bind. rewrite screenshot_failure_name.
    destruct (perform _ w1) as [[e'|] w'] eqn:Eshot; [right|left]; eauto.
Qed.

Lemma execute_step_try_unknown self kw loc val d w :
  keyword_in_KEYWORDS kw = false →
  execute_step_try self kw loc val d w =
    (Raise (ValueError ("Unsupported keyword: " +:+ fmt_opt kw)), w).
Proof. intros Hk. unfold execute_step_try. by rewrite Hk. Qed.

(** C2: [execute_step] catches what the operation raises when it derives
    from [Exception].  When the operation raises nothing else and taking
    the failure screenshot does not raise, [execute_step] returns a triple
    for every step; a success carries no artifact, a failure carries the
    non-empty path of the screenshot taken in the handler; a keyword
    outside the vocabulary is such a failure.  An exception that does not
    derive from [Exception], such as a cancellation, passes through
    [execute_step]: no triple is returned and no screenshot is taken. *)
Theorem execute_step_recovers self step w :
  (∀ w0, (perform (PageScreenshot (failure_screenshot_path self step)) w0).1 = None) →
  let attempt :=
    execute_step_try self (keyword step) (locator step) (value step)
      (step_description step) w in
  ((∀ e, attempt.1 = Raise e → is_Exception e = true) →
   ∃ success message artifact w',
     execute_step self step w = (Return (success, message, artifact), w') ∧
     (success = true → artifact = None) ∧
     (success = false →
        artifact = Some (failure_screenshot_path self step) ∧
        failure_screenshot_path self step ≠ "" ∧
        ∃ w1, perform (PageScreenshot (failure_screenshot_path self step)) w1 = (None, w')) ∧
     (keyword_in_KEYWORDS (keyword step) = false → success = false)) ∧
  (∀ e, attempt.1 = Raise e → is_Exception e = false →
     execute_step self step w = attempt).
Proof.
  intros Hshot attempt. subst attempt.
  destruct (execute_step_cases self step w)
    as [(w' & Htry & Hex)|[(e & w1 & Htry & Hexc & Hh)|(e & w1 & Htry & Hexc & Hex)]].
  - split.
    + intros _. exists true, ("SUCCESS: " +:+ step_description step), None, w'.
      rewrite Hex, Htry. split_and!; try done.
      intros Hk. rewrite execute_step_try_unknown in Htry by done. discriminate.
    + intros e He. rewrite Htry in He. discriminate.
  - split.
    + intros _. destruct Hh as [(w' & Hp & Hex)|(e' & w' & Hp & _)].
      * do 4 eexists. split; [exact Hex|]. split_and!; try done.
        intros _. split_and!; eauto using failure_screenshot_path_nonempty.
      * specialize (Hshot w1). rewrite Hp in Hshot. discriminate.
    + intros e' He' Hbase. rewrite Htry in He'. injection He' as <-. congruence.
  - split.
    + intros Hgentle. rewrite Htry in Hgentle.
      specialize (Hgentle e eq_refl). congruence.
    + intros _ _ _. exact Hex.
Qed.

(** C9: [fill] passes an empty-string value on to the page and raises only
    for a missing one, while [press] and [select_option] raise the same
    missing-field error for an empty-string value as for a missing one; an
    empty-string locator is rejected like a missing one by every handler
    that takes a locator.  [execute_step] reaches the handlers with the
    step's fields unchanged. *)
Theorem empty_string_required_fields self c rest locator value d w :
  let loc := String c rest in
  let fill_error := ValueError "'fill'关键词需要'locator'和'value'。" in
  let press_error := ValueError "'press'关键词需要'locator'和'value'中的按键。" in
  let select_error := ValueError "'select_option'关键词需要'locator'和'value'。" in
  (fill self (Some loc) (Some "") w = call (LocatorFill (_get_locator loc) "") w ∧
   fill self locator None w = (Raise fill_error, w)) ∧
  (press self locator (Some "") w = (Raise press_error, w) ∧
   press self locator None w = (Raise press_error, w)) ∧
  (select_option self locator (Some "") w = (Raise select_error, w) ∧
   select_option self locator None w = (Raise select_error, w)) ∧
  (∀ missing, missing = Some "" ∨ missing = None →
     fill self missing value w = (Raise fill_error, w) ∧
     press self missing value w = (Raise press_error, w) ∧
     select_option self missing value w = (Raise select_error, w) ∧
     expect_text self missing value w =
       (Raise (ValueError "'expect_text'关键词需要'locator'和'value'。"), w) ∧
     click self missing value w = (Raise (ValueError "'click'关键词需要'locator'。"), w) ∧
     wait_for_selector self missing value w =
       (Raise (ValueError "'wait_for_selector'关键词需要'locator'。"), w)) ∧
  (execute_step_try self (Some "fill") (Some loc) (Some "") d w =
     (call (LocatorFill (_get_locator loc) "") ;; ret (true, "SUCCESS: " +:+ d, None)) w ∧
   execute_step_try self (Some "press") locator (Some "") d w = (Raise press_error, w) ∧
   execute_step_try self (Some "select_option") locator (Some "") d w =
     (Raise select_error, w)).
Proof.
  intros loc fill_error press_error select_error.
  split_and!; try reflexivity.
  - unfold press. by destruct (truthy locator).
  - unfold press. by destruct (truthy locator).
  - unfold select_option. by destruct (truthy locator).
  - unfold select_option. by destruct (truthy locator).
  - intros missing [-> | ->]; split_and!; try reflexivity; by destruct value.
  - unfold execute_step_try. simpl. unfold press. by destruct (truthy locator).
  - unfold execute_step_try. simpl. unfold select_option. by destruct (truthy locator).
Qed.

End EngineFacts.

Section RunnerFacts.
Context `{Driver}.

(** *** Frames: what a computation leaves unchanged *)

Lemma keeps_ret {A T} (f : RunState → T) (a : A) : keeps f (ret a).
Proof. by intros st. Qed.

Lemma keeps_mret {A T} (f : RunState → T) (a : A) : keeps f (mret a).
Proof. by intros st. Qed.

Lemma keeps_raise {A T} (f : RunState → T) e : keeps f (raise (A:=A) e).
Proof. by intros st. Qed.

Lemma keeps_bind {A B T} (f : RunState → T) (m : M RunState A) (k : A → M RunState B) :
  keeps f m → (∀ a, keeps f (k a)) → keeps f (m ≫= k).
Proof.
  intros Hm Hk st. unfold mbind, M_bind, bind.
  specialize (Hm st). destruct (m st) as [[a|e] s1]; simpl in *.
  - by rewrite Hk.
  - done.
Qed.

Lemma keeps_try_finally {A T} (f : RunState → T) (m : M RunState A) fin :
  keeps f m → keeps f fin → keeps f (try_finally m fin).
Proof.
  intros Hm Hf st. unfold try_finally.
  specialize (Hm st). destruct (m st) as [r s1]. simpl in *.
  specialize (Hf s1). destruct (fin s1) as [[[]|e] s2]; simpl in *; congruence.
Qed.

Lemma on_page_eq {A} (m : M World A) st :
  on_page m st = ((m (world (sys st))).1, with_world (m (world (sys st))).2 st).
Proof.
  unfold on_page, on_sys, on_world, zoom, with_world. simpl.
  by destruct (m (world (sys st))).
Qed.

Lemma on_sys_eq {A} (m : M Sys A) st :
  on_sys m st = ((m (sys st)).1, {| sys := (m (sys st)).2; locals := locals st |}).
Proof. unfold on_sys, zoom. by destruct (m (sys st)). Qed.

Lemma keeps_on_page_locals {A T} (g : Locals → T) (m : M World A) :
  keeps (λ st, g (locals st)) (on_page m).
Proof. intros st. by rewrite on_page_eq. Qed.

Lemma keeps_on_page_db {A} (m : M World A) : keeps db_of (on_page m).
Proof. intros st. by rewrite on_page_eq. Qed.

Lemma keeps_on_sys_locals {A T} (g : Locals → T) (m : M Sys A) :
  keeps (λ st, g (locals st)) (on_sys m).
Proof. intros st. by rewrite on_sys_eq. Qed.

Lemma keeps_set_locals_db h : keeps db_of (set_locals h).
Proof. by intros st. Qed.

Lemma keeps_set_locals {T} (g : Locals → T) h :
  (∀ l, g (h l) = g l) → keeps (λ st, g (locals st)) (set_locals h).
Proof. intros Hg st. simpl. apply Hg. Qed.

(** Reads through [get_db_cursor False] leave the tables as they were. *)
Lemma get_db_cursor_read_db {A} (body : M Sys A) s :
  db (get_db_cursor false body s).2 = db s.
Proof.
  unfold get_db_cursor.
  destruct (perform DbConnect (world s)) as [[e|] w]; [done|].
  by destruct (body _) as [[a|e] s'].
Qed.

Lemma keeps_lookup_db {A} (body : M Sys A) :
  keeps db_of (on_sys (get_db_cursor false body)).
Proof. intros st. rewrite on_sys_eq. apply get_db_cursor_read_db. Qed.

Create HintDb keeps.

#[local] Hint Resolve keeps_ret keeps_mret keeps_raise keeps_on_page_locals keeps_on_page_db
  keeps_on_sys_locals keeps_set_locals_db keeps_lookup_db : keeps.

Ltac keeps_tac :=
  repeat first
    [ apply keeps_bind; [|intros ?]
    | apply keeps_try_finally
    | apply keeps_set_locals; intros []; reflexivity
    | progress eauto with keeps
    | match goal with |- keeps _ (match ?x with _ => _ end) => destruct x end
    | match goal with |- keeps _ (let '(_, _) := ?x in _) => destruct x end ].

Lemma run_lookup_keeps_logs id : keeps logs_of (run_lookup id).
Proof. unfold run_lookup, logs_of. keeps_tac. Qed.

Lemma run_lookup_keeps_db id : keeps db_of (run_lookup id).
Proof. unfold run_lookup, get_test_case, get_project. keeps_tac. Qed.

Lemma run_output_keeps_logs id t : keeps logs_of (run_output id t).
Proof. unfold run_output, logs_of. keeps_tac. Qed.

Lemma run_output_keeps_db id t : keeps db_of (run_output id t).
Proof. unfold run_output. keeps_tac. Qed.

Lemma session_open_keeps_logs p out : keeps logs_of (session_open p out).
Proof. unfold session_open, logs_of. keeps_tac. Qed.

Lemma session_open_keeps_db p out : keeps db_of (session_open p out).
Proof. unfold session_open. keeps_tac. Qed.

Lemma session_close_keeps_logs out : keeps logs_of (session_close out).
Proof. unfold session_close, logs_of. keeps_tac. Qed.

Lemma session_close_keeps_db out : keeps db_of (session_close out).
Proof. unfold session_close. keeps_tac. Qed.

Lemma run_until_loop_keeps_logs id t : keeps logs_of (run_until_loop id t).
Proof.
  unfold run_until_loop. apply keeps_bind; [apply run_lookup_keeps_logs|].
  intros [cd p]. apply keeps_bind; [apply run_output_keeps_logs|]. intros out.
  unfold logs_of. keeps_tac.
Qed.

(** *** The step loop *)

Lemma add_logs_nil l : add_logs [] l = l.
Proof. destruct l. unfold add_logs. simpl. by rewrite app_nil_r. Qed.

Lemma add_logs_app n1 n2 l : add_logs n2 (add_logs n1 l) = add_logs (n1 ++ n2) l.
Proof. unfold add_logs. simpl. by rewrite app_assoc. Qed.

(** One iteration of the loop. *)
Lemma step_loop_cons engine i step rest st :
  step_loop engine i (step :: rest) st =
  match execute_step engine (set_step_id (i + 1) step) (world (sys st)) with
  | (Return (success, message, shot), w') =>
      let st' :=
        {| sys := {| world := w'; db := db (sys st) |};
           locals := add_logs [step_entry i success message shot] (locals st) |} in
      if success then step_loop engine (i + 1) rest st' else (Return false, st')
  | (Raise e, w') => (Raise e, with_world w' st)
  end.
Proof.
  simpl. unfold mbind, M_bind, bind. rewrite on_page_eq.
  destruct (execute_step _ _ _) as [[[[success message] shot]|e] w']; simpl; [|done].
  by destruct success.
Qed.

Lemma step_loop_succeed engine steps : ∀ i st w',
  steps_succeed engine i steps (world (sys st)) = Some w' →
  ∃ new,
    step_loop engine i steps st =
      (Return true,
       {| sys := {| world := w'; db := db (sys st) |};
          locals := add_logs new (locals st) |}) ∧
    length new = length steps.
Proof.
  induction steps as [|step rest IH]; intros i st w' Hs.
  - simpl in Hs. injection Hs as <-. exists []. rewrite add_logs_nil.
    by destruct st as [[] ?].
  - rewrite step_loop_cons. simpl in Hs.
    destruct (execute_step _ _ _) as [[[[[|] message] shot]|e] w1]; try discriminate.
    cbv zeta. cbv iota.
    edestruct IH as (new & Hl & Hn); [|rewrite Hl].
    { simpl. exact Hs. }
    eexists. simpl. rewrite add_logs_app. split; [reflexivity|].
    simpl. by rewrite Hn.
Qed.

Lemma step_loop_fail engine pre : ∀ i st w1 step message shot w2,
  steps_succeed engine i pre (world (sys st)) = Some w1 →
  execute_step engine (set_step_id (i + Z.of_nat (length pre) + 1) step) w1
    = (Return (false, message, shot), w2) →
  ∃ new,
    length new = S (length pre) ∧
    ∀ post,
      step_loop engine i (pre ++ step :: post) st =
        (Return false,
         {| sys := {| world := w2; db := db (sys st) |};
            locals := add_logs new (locals st) |}).
Proof.
  induction pre as [|s0 pre IH]; intros i st w1 step message shot w2 Hs Hx.
  - simpl in Hs. injection Hs as <-.
    change (i + Z.of_nat (length []) + 1) with (i + 0 + 1) in Hx.
    rewrite Z.add_0_r in Hx.
    eexists. split; [|intros post; simpl app; rewrite step_loop_cons, Hx; reflexivity].
    done.
  - simpl in Hs.
    destruct (execute_step engine (set_step_id (i + 1) s0) (world (sys st)))
      as [[[[[|] m0] p0]|e] w0] eqn:E0; try discriminate.
    edestruct (IH (i + 1)
                 {| sys := {| world := w0; db := db (sys st) |};
                    locals := add_logs [step_entry i true m0 p0] (locals st) |})
      as (new & Hn & Hl).
    { simpl. exact Hs. }
    { replace (i + 1 + Z.of_nat (length pre) + 1)
        with (i + Z.of_nat (length (s0 :: pre)) + 1) by (simpl length; lia).
      exact Hx. }
    eexists. split; [|intros post; simpl app; rewrite step_loop_cons, E0; cbv zeta; cbv iota;
                       rewrite Hl; simpl; rewrite add_logs_app; reflexivity].
    simpl. by rewrite Hn.
Qed.

Lemma first_failure_loop engine steps j st w2 :
  first_failure engine steps j (world (sys st)) = Some w2 →
  ∃ new,
    length new = S j ∧
    ∀ later,
      step_loop engine 0 (take (S j) steps ++ later) st =
        (Return false,
         {| sys := {| world := w2; db := db (sys st) |};
            locals := add_logs new (locals st) |}).
Proof.
  unfold first_failure. intros Hf.
  destruct (steps !! j) as [step|] eqn:Ej; [|discriminate].
  destruct (steps_succeed engine 0 (take j steps) (world (sys st))) as [w1|] eqn:Es;
    [|discriminate].
  destruct (execute_step _ _ w1) as [[[[[|] message] shot]|e] w'] eqn:Ex;
    try discriminate.
  injection Hf as ->.
  assert (Hlen : length (take j steps) = j).
  { apply length_take_le. apply lookup_lt_Some in Ej. lia. }
  destruct (step_loop_fail engine (take j steps) 0 st w1 step message shot w2 Es)
    as (new & Hn & Hl).
  { by rewrite Hlen. }
  exists new. split; [by rewrite Hn, Hlen|].
  intros later. rewrite (take_S_r _ _ _ Ej), <- app_assoc. apply Hl.
Qed.

(** *** Numbered log entries *)

Lemma numbered_nil : numbered [].
Proof. intros j e. by rewrite lookup_nil. Qed.

Lemma numbered_snoc logs e :
  numbered logs →
  entry_step_id e = Some (Z.of_nat (length logs) + 1) →
  numbered (logs ++ [e]).
Proof.
  intros Hn He j e' Hj.
  apply lookup_app_Some in Hj as [Hj|[Hge Hj]]; [by apply Hn|].
  apply list_lookup_singleton_Some in Hj as [Hj ->].
  rewrite He. do 2 f_equal. lia.
Qed.

Lemma step_loop_numbered engine steps : ∀ i st,
  Z.of_nat (length (logs_of st)) = i →
  numbered (logs_of st) →
  numbered (logs_of (step_loop engine i steps st).2).
Proof.
  induction steps as [|step rest IH]; intros i st Hi Hn; [done|].
  rewrite step_loop_cons.
  destruct (execute_step _ _ _) as [[[[success message] shot]|e] w']; [|done].
  cbv zeta.
  assert (Hn' : numbered (logs_of st ++ [step_entry i success message shot])).
  { apply numbered_snoc; [done|]. simpl. by rewrite Hi. }
  destruct success; [|done].
  apply IH; [|done].
  unfold logs_of. simpl. rewrite length_app. simpl. unfold logs_of in Hi. lia.
Qed.

(** *** The steps of a case *)

Lemma cursor_execute_eq sql effect (s : Sys) :
  cursor_execute sql effect s =
  match perform (DbExecute sql) (world s) with
  | (None, w) => (Return (), {| world := w; db := effect (db s) |})
  | (Some e, w) => (Raise e, {| world := w; db := db s |})
  end.
Proof.
  unfold cursor_execute, on_world, zoom, call, mbind, M_bind, bind, modify, set_db.
  by destruct (perform _ _) as [[e|] w].
Qed.

Lemma cursor_query_eq {A} sql (rows : Db → A) (s : Sys) :
  cursor_query sql rows s =
  match perform (DbExecute sql) (world s) with
  | (None, w) => (Return (rows (db s)), {| world := w; db := db s |})
  | (Some e, w) => (Raise e, {| world := w; db := db s |})
  end.
Proof.
  unfold cursor_query, on_world, zoom, call, mbind, M_bind, bind, gets.
  by destruct (perform _ _) as [[e|] w].
Qed.

Lemma insert_by_order_elem x y l :
  y ∈ insert_by_order x l → y = x ∨ y ∈ l.
Proof.
  induction l as [|z l IH]; simpl.
  - intros ->%list_elem_of_singleton. by left.
  - case_bool_decide.
    + intros [->|Hy]%elem_of_cons; [by left|by right].
    + intros [->|Hy]%elem_of_cons; [right; left|].
      destruct (IH Hy) as [->|Hl]; [by left|right; by right].
Qed.

Lemma insert_by_order_ascending x l :
  ascending l → ascending (insert_by_order x l).
Proof.
  unfold ascending. induction 1 as [|z l Hl IH Hz]; simpl.
  - repeat constructor.
  - case_bool_decide as Hlt.
    + constructor; [by constructor|].
      constructor; [lia|]. eapply Forall_impl; [exact Hz|]. simpl. intros; lia.
    + constructor; [exact IH|].
      apply Forall_forall. intros y Hy.
      apply insert_by_order_elem in Hy as [->|Hy]; [lia|].
      by eapply Forall_forall in Hz.
Qed.

Lemma order_by_step_order_ascending l : ascending (order_by_step_order l).
Proof.
  induction l as [|x l IH]; simpl; [constructor|].
  by apply insert_by_order_ascending.
Qed.

(** The steps [get_test_case] hands out are the rows of the case in
    ascending position order. *)
Lemma get_test_case_steps id s cd s1 :
  get_test_case id s = (Return (Some cd), s1) →
  steps cd =
    order_by_step_order (filter (λ st, step_case_id st = id) (test_steps (db s))).
Proof.
  unfold get_test_case, get_db_cursor.
  destruct (perform DbConnect (world s)) as [[e|] w]; [discriminate|].
  unfold mbind at 1, M_bind at 1, bind at 1. rewrite cursor_query_eq. simpl.
  destruct (perform _ w) as [[e|] w1]; [discriminate|].
  destruct (List.find _ _) as [row|]; [|discriminate].
  unfold mbind, M_bind, bind, get_steps_for_case, get_db_cursor. simpl.
  destruct (perform DbConnect w1) as [[e|] w2]; [discriminate|].
  rewrite cursor_query_eq. simpl.
  destruct (perform _ w2) as [[e|] w3]; [discriminate|].
  simpl. by intros [= <- _].
Qed.

(** *** From the loop to the end of the [try] block *)

Lemma run_try_from_loop id t st0 cd p out engine st_loop :
  run_until_loop id t st0 = (Return (cd, p, out, engine), st_loop) →
  run_test_case_try id t st0 = run_from_loop engine (steps cd) out st_loop.
Proof.
  unfold run_until_loop, run_test_case_try. intros Hu.
  apply bind_inv in Hu as [([cd' p'] & s1 & Hl & Hu)|(e & _ & [=])].
  rewrite (bind_Return _ _ _ _ _ Hl).
  apply bind_inv in Hu as [(out' & s2 & Ho & Hu)|(e & _ & [=])].
  rewrite (bind_Return _ _ _ _ _ Ho).
  apply bind_inv in Hu as [([] & s3 & Hi & Hu)|(e & _ & [=])].
  apply bind_inv in Hu as [([] & s4 & Hs & Hu)|(e & _ & [=])].
  apply bind_inv in Hu as [(engine' & s5 & Hopen & Hu)|(e & _ & [=])].
  injection Hu as -> -> -> -> ->.
  unfold with_PlaywrightManager, run_from_loop.
  unfold mbind at 1, M_bind at 1, bind at 1.
  rewrite (bind_Return _ _ _ _ _ Hi), (bind_Return _ _ _ _ _ Hs).
  unfold try_finally, session_body.
  rewrite (bind_Return _ _ _ _ _ Hopen).
  reflexivity.
Qed.

Lemma run_try_reaches_loop id t st0 st_end :
  run_test_case_try id t st0 = (Return (), st_end) →
  ∃ cd p out engine st_loop s1,
    run_until_loop id t st0 = (Return (cd, p, out, engine), st_loop) ∧
    get_test_case id (sys st0) = (Return (Some cd), s1).
Proof.
  unfold run_test_case_try, run_until_loop. intros Ht.
  apply bind_inv in Ht as [([cd p] & s1 & Hl & Ht)|(e & _ & [=])].
  rewrite (bind_Return _ _ _ _ _ Hl).
  apply bind_inv in Ht as [(out & s2 & Ho & Ht)|(e & _ & [=])].
  rewrite (bind_Return _ _ _ _ _ Ho).
  apply bind_inv in Ht as [(ok & s3 & Hw & Ht)|(e & _ & [=])].
  unfold with_PlaywrightManager in Hw.
  apply bind_inv in Hw as [([] & s4 & Hi & Hw)|(e & _ & [=])].
  rewrite (bind_Return _ _ _ _ _ Hi).
  apply bind_inv in Hw as [([] & s5 & Hs & Hw)|(e & _ & [=])].
  rewrite (bind_Return _ _ _ _ _ Hs).
  unfold try_finally, session_body in Hw.
  destruct (session_open p out s5) as [[engine|e] s6] eqn:Hopen.
  - rewrite (bind_Return _ _ _ _ _ Hopen).
    exists cd, p, out, engine, s6.
    unfold run_lookup in Hl.
    apply bind_inv in Hl as [([cd'|] & s7 & Hc & Hl)|(e & _ & [=])]; [|discriminate].
    rewrite on_sys_eq in Hc.
    apply bind_inv in Hl as [([p'|] & s8 & Hp & Hl)|(e & _ & [=])]; [|discriminate].
    injection Hl as -> -> ->.
    destruct (get_test_case id (sys st0)) as [r sx] eqn:Eg. simpl in Hc.
    injection Hc as -> _. eauto.
  - rewrite (bind_Raise _ _ _ _ _ Hopen) in Hw.
    destruct (on_page PlaywrightManager_stop s6) as [[[]|e'] s7]; discriminate.
Qed.

Lemma run_from_loop_end engine steps out st_loop ok st_l st_end :
  step_loop engine 0 steps st_loop = (Return ok, st_l) →
  run_from_loop engine steps out st_loop = (Return (), st_end) →
  logs_of st_end = logs_of st_l ∧ test_status (locals st_end) = status_of ok.
Proof.
  intros Hl. unfold run_from_loop, try_finally.
  unfold mbind at 1, M_bind at 1, bind at 1.
  rewrite (bind_Return _ _ _ _ _ Hl).
  pose proof (session_close_keeps_logs out st_l) as Hc.
  unfold mbind, M_bind, bind.
  destruct (session_close out st_l) as [[[]|e] st_c]; simpl in *.
  - pose proof (keeps_on_page_locals run_log_entries PlaywrightManager_stop st_c) as Hs.
    destruct (on_page PlaywrightManager_stop st_c) as [[[]|e] st_s]; simpl in *; [|discriminate].
    intros [= <-]. simpl. unfold logs_of in *. simpl. split; [congruence|done].
  - destruct (on_page PlaywrightManager_stop st_c) as [[[]|e'] st_s]; discriminate.
Qed.

(** C3: in a run whose [try] block completes without an exception
    reaching the top-level handler, the steps are taken in ascending
    position order; if the step at position [j + 1] is the first to fail
    then the log holds exactly [j + 1] entries, the status is Failed, and
    the loop behaves the same whatever steps follow position [j + 1]; if
    all [n] steps succeed the log holds exactly [n] entries and the status
    is Passed. *)
Theorem fail_fast_run id s case_data project_data output_dir engine st_loop st_end :
  let start_time := clock (world s) in
  let st0 := {| sys := s; locals := initial_locals |} in
  run_until_loop id start_time st0 =
    (Return (case_data, project_data, output_dir, engine), st_loop) →
  run_test_case_try id start_time st0 = (Return (), st_end) →
  ascending (steps case_data) ∧
  (∀ j w, first_failure engine (steps case_data) j (world (sys st_loop)) = Some w →
     length (run_log_entries (locals st_end)) = S j ∧
     test_status (locals st_end) = "Failed" ∧
     ∀ later,
       step_loop engine 0 (take (S j) (steps case_data) ++ later) st_loop =
       step_loop engine 0 (steps case_data) st_loop) ∧
  (∀ w, steps_succeed engine 0 (steps case_data) (world (sys st_loop)) = Some w →
     length (run_log_entries (locals st_end)) = length (steps case_data) ∧
     test_status (locals st_end) = "Passed").
Proof.
  intros start_time st0 Hu Ht.
  assert (Hasc : ascending (steps case_data)).
  { destruct (run_try_reaches_loop _ _ _ _ Ht)
      as (cd & p & out & engine' & st_loop' & s1 & Hu' & Hc).
    rewrite Hu in Hu'. injection Hu' as <- _ _ _ _.
    rewrite (get_test_case_steps _ _ _ _ Hc). apply order_by_step_order_ascending. }
  rewrite (run_try_from_loop _ _ _ _ _ _ _ _ Hu) in Ht.
  assert (Hlogs : logs_of st_loop = []).
  { pose proof (run_until_loop_keeps_logs id start_time st0) as Hk.
    by rewrite Hu in Hk. }
  split; [exact Hasc|]. split.
  - intros j w Hf.
    destruct (first_failure_loop _ _ _ _ _ Hf) as (new & Hn & Hl).
    assert (Hsteps : step_loop engine 0 (steps case_data) st_loop =
              (Return false,
               {| sys := {| world := w; db := db (sys st_loop) |};
                  locals := add_logs new (locals st_loop) |})).
    { rewrite <- (take_drop (S j) (steps case_data)) at 1. apply Hl. }
    destruct (run_from_loop_end _ _ _ _ _ _ _ Hsteps Ht) as [He Hst].
    unfold logs_of in *. simpl in He. rewrite He, Hlogs. simpl.
    split_and!; [done|done|].
    intros later. by rewrite Hl, Hsteps.
  - intros w Hs.
    destruct (step_loop_succeed _ _ _ _ _ Hs) as (new & Hl & Hn).
    destruct (run_from_loop_end _ _ _ _ _ _ _ Hl Ht) as [He Hst].
    unfold logs_of in *. simpl in He. rewrite He, Hlogs. simpl. done.
Qed.

(** C4: a run of a case whose step list is empty, whose lookups succeed and
    whose [try] block completes without an exception reaching the
    top-level handler ends with status Passed and no log entry. *)
Theorem empty_case_passes id s case_data s1 st_end :
  let start_time := clock (world s) in
  let st0 := {| sys := s; locals := initial_locals |} in
  get_test_case id s = (Return (Some case_data), s1) →
  steps case_data = [] →
  run_test_case_try id start_time st0 = (Return (), st_end) →
  test_status (locals st_end) = "Passed" ∧
  run_log_entries (locals st_end) = [] ∧
  run_test_case_outcome id start_time st0 = (Return (), st_end).
Proof.
  intros start_time st0 Hc Hempty Ht.
  destruct (run_try_reaches_loop _ _ _ _ Ht) as (cd & p & out & engine & st_loop & s1' & Hu & Hc').
  simpl in Hc'. rewrite Hc in Hc'. injection Hc' as <- _.
  assert (Hlogs : logs_of st_loop = []).
  { pose proof (run_until_loop_keeps_logs id start_time st0) as Hk.
    by rewrite Hu in Hk. }
  pose proof Ht as Ht'.
  rewrite (run_try_from_loop _ _ _ _ _ _ _ _ Hu), Hempty in Ht'.
  destruct (run_from_loop_end engine [] out st_loop true st_loop st_end eq_refl Ht')
    as [He Hst].
  split_and!; [done| |].
  - unfold logs_of in *. by rewrite He.
  - unfold run_test_case_outcome, try_except. by rewrite Ht.
Qed.

(** *** Every path through the [try] block *)

Lemma hoare_bind {A B} P Q R (m : M RunState A) (k : A → M RunState B) :
  hoare P m Q → (∀ a, hoare Q (k a) R) → (∀ st, Q st → R st) →
  hoare P (m ≫= k) R.
Proof.
  intros Hm Hk HQR st HP. unfold mbind, M_bind, bind.
  specialize (Hm st HP). destruct (m st) as [[a|e] s1]; simpl in *.
  - by apply Hk.
  - by apply HQR.
Qed.

Lemma hoare_try_finally {A} P Q R (m : M RunState A) fin :
  hoare P m Q → hoare Q fin R → hoare P (try_finally m fin) R.
Proof.
  intros Hm Hf st HP. unfold try_finally.
  specialize (Hm st HP). destruct (m st) as [r s1]. simpl in *.
  specialize (Hf s1 Hm). by destruct (fin s1) as [[[]|e] s2].
Qed.

Lemma hoare_keeps {A T} (f : RunState → T) (P : T → Prop) (m : M RunState A) :
  keeps f m → hoare (λ st, P (f st)) m (λ st, P (f st)).
Proof. intros Hk st HP. by rewrite Hk. Qed.

Lemma no_logs_numbered st : no_logs st → numbered_logs st.
Proof. unfold no_logs, numbered_logs. intros ->. apply numbered_nil. Qed.

Lemma session_body_numbered p out steps :
  hoare no_logs (session_body p out steps) numbered_logs.
Proof.
  unfold session_body.
  apply hoare_bind with (Q := no_logs); [|intros engine|apply no_logs_numbered].
  { apply (hoare_keeps logs_of (λ l, l = [])), session_open_keeps_logs. }
  apply hoare_bind with (Q := numbered_logs); [|intros ok|done].
  { intros st Hst. apply step_loop_numbered.
    - unfold no_logs in Hst. by rewrite Hst.
    - by apply no_logs_numbered. }
  apply hoare_bind with (Q := numbered_logs); [|intros []|done].
  { apply (hoare_keeps logs_of numbered), session_close_keeps_logs. }
  by intros st.
Qed.

Lemma run_test_case_try_numbered id t :
  hoare no_logs (run_test_case_try id t) numbered_logs.
Proof.
  unfold run_test_case_try.
  apply hoare_bind with (Q := no_logs); [|intros [cd p]|apply no_logs_numbered].
  { apply (hoare_keeps logs_of (λ l, l = [])), run_lookup_keeps_logs. }
  apply hoare_bind with (Q := no_logs); [|intros out|apply no_logs_numbered].
  { apply (hoare_keeps logs_of (λ l, l = [])), run_output_keeps_logs. }
  apply hoare_bind with (Q := numbered_logs); [|intros ok|done].
  - unfold with_PlaywrightManager.
    apply hoare_bind with (Q := no_logs); [|intros []|apply no_logs_numbered].
    { apply (hoare_keeps logs_of (λ l, l = [])). unfold logs_of. keeps_tac. }
    apply hoare_bind with (Q := no_logs); [|intros []|apply no_logs_numbered].
    { apply (hoare_keeps logs_of (λ l, l = [])). unfold logs_of. keeps_tac. }
    apply hoare_try_finally with (Q := numbered_logs).
    + apply session_body_numbered.
    + apply (hoare_keeps logs_of numbered). unfold logs_of. keeps_tac.
  - apply (hoare_keeps logs_of numbered). unfold logs_of. keeps_tac.
Qed.

(** The [try] and [except] clauses together: an [Exception] adds the
    critical entry and sets the status, and the handler returns; any other
    exception passes through with the state the [try] block left. *)
Lemma run_test_case_outcome_eq id t st0 :
  run_test_case_outcome id t st0 =
  match run_test_case_try id t st0 with
  | (Return _, st) => (Return (), st)
  | (Raise e, st) =>
      if is_Exception e then
        (Return (),
         {| sys := sys st;
            locals := append_log (critical_entry e)
                        (set_test_status "Failed" (locals st)) |})
      else (Raise e, st)
  end.
Proof.
  unfold run_test_case_outcome, try_except.
  destruct (run_test_case_try id t st0) as [[[]|e] st]; [done|].
  by destruct (is_Exception e).
Qed.

Lemma execute_step_same_action engine n a b w :
  same_action a b →
  execute_step engine (set_step_id n a) w = execute_step engine (set_step_id n b) w.
Proof.
  destruct a, b. intros (Hk & Hl & Hv & Hd). simpl in *. subst. reflexivity.
Qed.

Lemma step_loop_same_action engine steps steps' :
  Forall2 same_action steps steps' →
  ∀ i st, step_loop engine i steps st = step_loop engine i steps' st.
Proof.
  induction 1 as [|a b steps steps' Hab _ IH]; intros i st; [done|].
  rewrite !step_loop_cons, (execute_step_same_action _ _ _ _ _ Hab).
  destruct (execute_step _ _ _) as [[[[[|] message] shot]|e] w']; cbv zeta;
    by rewrite ?IH.
Qed.

(** C10: in every run the entry recorded for the step attempted at index
    [j] carries step id [j + 1]; the only entry without that id is the
    critical entry of the top-level handler, which comes last.  The ids,
    case ids and positions stored on the steps have no influence on the
    loop. *)
Theorem log_step_ids id s :
  let start_time := clock (world s) in
  let st0 := {| sys := s; locals := initial_locals |} in
  let logs := run_log_entries (locals (run_test_case_outcome id start_time st0).2) in
  (∀ j e, logs !! j = Some e →
     entry_step_id e = Some (Z.of_nat j + 1) ∨
     (level e = "CRITICAL" ∧ entry_step_id e = None ∧ S j = length logs)) ∧
  (∀ engine steps steps' i st,
     Forall2 same_action steps steps' →
     step_loop engine i steps st = step_loop engine i steps' st).
Proof.
  intros start_time st0 logs. split.
  2: { intros engine steps steps' i st Hs. by apply step_loop_same_action. }
  intros j e. subst logs. rewrite run_test_case_outcome_eq.
  pose proof (run_test_case_try_numbered id start_time st0 eq_refl) as Hn.
  unfold numbered_logs, logs_of in Hn.
  destruct (run_test_case_try id start_time st0) as [[[]|exc] st]; simpl in *.
  - intros Hj. left. by apply Hn.
  - destruct (is_Exception exc); simpl; [|intros Hj; left; by apply Hn].
    intros Hj. apply lookup_app_Some in Hj as [Hj|[Hge Hj]]; [left; by apply Hn|].
    apply list_lookup_singleton_Some in Hj as [Hj <-]. right.
    rewrite length_app. simpl. split_and!; [done|done|lia].
Qed.

(** *** Persistence *)

Lemma max_id_snoc ids n :
  (∀ x, x ∈ ids → x < n) → max_id (ids ++ [n]) = Some n.
Proof.
  induction ids as [|x ids IH]; intros Hlt; [done|].
  change (max_id ((x :: ids) ++ [n])) with
    (match max_id (ids ++ [n]) with
     | Some j => Some (Z.max x j)
     | None => Some x
     end).
  rewrite IH.
  - f_equal. apply Z.max_r. assert (x < n); [|lia]. apply Hlt. left.
  - intros y Hy. apply Hlt. by right.
Qed.

Lemma insert_run_logs_spec new_run_id logs : ∀ s,
  (∀ s', insert_run_logs new_run_id logs s = (Return (), s') →
         db s' = set_logs (run_logs (db s) ++ (log_row new_run_id <$> logs)) (db s)) ∧
  (store_accepts → (insert_run_logs new_run_id logs s).1 = Return ()).
Proof.
  induction logs as [|log logs IH]; intros s.
  - split; [|done]. simpl. intros s' [= <-].
    destruct s as [w []]. unfold set_logs. simpl. by rewrite app_nil_r.
  - simpl. unfold mbind, M_bind, bind. rewrite cursor_execute_eq.
    destruct (perform _ (world s)) as [[e|] w] eqn:Ep.
    + split; [discriminate|]. intros [_ Ha].
      apply (f_equal fst) in Ep. simpl in Ep. rewrite Ha in Ep. discriminate.
    + destruct (IH {| world := w;
                      db := set_logs (run_logs (db s) ++ [log_row new_run_id log]) (db s) |})
        as [IH1 IH2].
      split; [|done].
      intros s' Hs'. rewrite (IH1 _ Hs'). unfold set_logs. simpl.
      by rewrite <- app_assoc.
Qed.

Lemma save_transaction_spec id status t0 t1 dur rp lp logs s :
  runs_below_counter (db s) →
  (∀ s', save_run_results_transaction id status t0 t1 dur rp lp logs s = (Return (), s') →
         db s' = recorded (db s) id status t0 t1 dur rp lp logs) ∧
  (store_accepts →
     (save_run_results_transaction id status t0 t1 dur rp lp logs s).1 = Return ()).
Proof.
  intros Hbelow. unfold save_run_results_transaction.
  unfold mbind, M_bind, bind. rewrite cursor_execute_eq.
  destruct (perform _ (world s)) as [[e|] w] eqn:Ep.
  { split; [discriminate|]. intros [_ Ha].
    apply (f_equal fst) in Ep. simpl in Ep. rewrite Ha in Ep. discriminate. }
  rewrite cursor_query_eq. simpl.
  destruct (perform _ w) as [[e|] w'] eqn:Eq.
  { split; [discriminate|]. intros [_ Ha].
    apply (f_equal fst) in Eq. simpl in Eq. rewrite Ha in Eq. discriminate. }
  rewrite filter_app, fmap_app.
  rewrite (filter_cons_True (λ r, run_case_id r = id)) by done.
  rewrite filter_nil, (fmap_cons run_id), fmap_nil.
  change (run_id (run_row ?n _ _ _ _ _ _ _)) with n.
  rewrite max_id_snoc.
  2: { intros x Hx. apply list_elem_of_fmap in Hx as (r & -> & Hr).
       apply list_elem_of_filter in Hr as [_ Hr]. by apply Hbelow. }
  match goal with |- context [insert_run_logs ?n logs ?s0] =>
    destruct (insert_run_logs_spec n logs s0) as [H1 H2] end.
  split; [|done]. intros s' Hs'. by rewrite (H1 _ Hs').
Qed.

(** [save_run_results] raises no [Exception]; it leaves the tables as they
    were or records the run, and records it, and returns, when the store
    accepts the writes. *)
Lemma save_run_results_spec id status t0 t1 dur rp lp logs s :
  runs_below_counter (db s) →
  let saved := save_run_results id status t0 t1 dur rp lp logs s in
  (∀ e, saved.1 = Raise e → is_Exception e = false) ∧
  (db saved.2 = db s ∨ db saved.2 = recorded (db s) id status t0 t1 dur rp lp logs) ∧
  (store_accepts →
     saved.1 = Return () ∧
     db saved.2 = recorded (db s) id status t0 t1 dur rp lp logs).
Proof.
  intros Hbelow saved. subst saved.
  unfold save_run_results, try_except, get_db_cursor.
  destruct (perform DbConnect (world s)) as [[e|] w] eqn:Ec.
  { simpl. split_and!; [done|by left|].
    intros [Ha _]. specialize (Ha (world s)). rewrite Ec in Ha. discriminate. }
  destruct (save_transaction_spec id status t0 t1 dur rp lp logs
              {| world := w; db := db s |} Hbelow) as [H1 H2].
  destruct (save_run_results_transaction _ _ _ _ _ _ _ _ _) as [[[]|e] s'] eqn:Et; simpl.
  - specialize (H1 _ eq_refl). split_and!; [done|by right|done].
  - destruct (is_Exception e) eqn:Hexc; simpl.
    + split_and!; [done|by left|]. intros Ha. specialize (H2 Ha). discriminate.
    + split_and!; [by intros ? [= <-]|by left|].
      intros Ha. specialize (H2 Ha). discriminate.
Qed.

Lemma step_loop_keeps_db engine steps : ∀ i, keeps db_of (step_loop engine i steps).
Proof.
  induction steps as [|step rest IH]; intros i st; [done|].
  rewrite step_loop_cons.
  destruct (execute_step _ _ _) as [[[[[|] message] shot]|e] w']; cbv zeta; try done.
  by rewrite IH.
Qed.

Lemma run_test_case_try_keeps_db id t : keeps db_of (run_test_case_try id t).
Proof.
  unfold run_test_case_try.
  apply keeps_bind; [apply run_lookup_keeps_db|]. intros [cd p].
  apply keeps_bind; [apply run_output_keeps_db|]. intros out.
  apply keeps_bind; [|intros ok; keeps_tac].
  unfold with_PlaywrightManager.
  apply keeps_bind; [keeps_tac|]. intros [].
  apply keeps_bind; [keeps_tac|]. intros [].
  apply keeps_try_finally; [|keeps_tac].
  unfold session_body.
  apply keeps_bind; [apply session_open_keeps_db|]. intros engine.
  apply keeps_bind; [apply step_loop_keeps_db|]. intros ok.
  apply keeps_bind; [apply session_close_keeps_db|]. intros [].
  keeps_tac.
Qed.

Lemma run_test_case_outcome_db id t st0 :
  db_of (run_test_case_outcome id t st0).2 = db_of st0.
Proof.
  rewrite run_test_case_outcome_eq.
  pose proof (run_test_case_try_keeps_db id t st0) as Hk.
  destruct (run_test_case_try id t st0) as [[[]|e] st]; [done|].
  by destruct (is_Exception e).
Qed.

Lemma sys_eta (s : Sys) : {| world := world s; db := db s |} = s.
Proof. by destruct s. Qed.

(** The tables [run_test_case] leaves are those [save_run_results] leaves
    when called once, in the [finally] clause, with the outcome of the
    [try] and [except] clauses. *)
Lemma run_test_case_saves id s :
  let start_time := clock (world s) in
  let caught :=
    run_test_case_outcome id start_time {| sys := s; locals := initial_locals |} in
  let l := locals caught.2 in
  let end_time := clock (world (sys caught.2)) in
  db (run_test_case id s).2 =
  db (save_run_results id (test_status l) start_time end_time (end_time - start_time)
        (report_path l) (log_file_path l) (run_log_entries l) (sys caught.2)).2.
Proof.
  intros start_time caught l end_time. subst l end_time caught.
  unfold run_test_case, try_finally. fold start_time.
  destruct (run_test_case_outcome id start_time _) as [r st1]. simpl.
  unfold run_test_case_finally.
  unfold mbind, M_bind, bind. rewrite on_page_eq. simpl.
  rewrite on_sys_eq. simpl. rewrite sys_eta.
  destruct (save_run_results _ _ _ _ _ _ _ _ (sys st1)) as [[[]|e] s2]; simpl; [|done].
  destruct (file_handler (locals st1)); [|done].
  rewrite on_page_eq. simpl.
  by destruct (call FileHandlerClose (world s2)) as [[[]|e] w].
Qed.

(** C6: in every run an exception leaving the [try] block that derives
    from [Exception] is caught by the single top-level handler, which
    appends one critical entry and sets the status to Failed; the handler
    itself never raises.  An exception that does not derive from
    [Exception], such as a cancellation, is not caught: it leaves the
    [try] and [except] clauses with the log and the status the [try] block
    left, no critical entry added.  The [finally] clause calls
    [save_run_results] once on every path, which leaves the tables
    untouched if the store fails and otherwise inserts the run row under
    the next run id and one log row per log entry under that id. *)
Theorem run_always_recorded id s :
  let start_time := clock (world s) in
  let st0 := {| sys := s; locals := initial_locals |} in
  let attempt := run_test_case_try id start_time st0 in
  let caught := run_test_case_outcome id start_time st0 in
  let l := locals caught.2 in
  let end_time := clock (world (sys caught.2)) in
  let d := recorded (db s) id (test_status l) start_time end_time
             (end_time - start_time) (report_path l) (log_file_path l)
             (run_log_entries l) in
  (∀ e, attempt.1 = Raise e → is_Exception e = true →
     caught.1 = Return () ∧
     l = append_log (critical_entry e) (set_test_status "Failed" (locals attempt.2)) ∧
     test_status l = "Failed" ∧
     run_log_entries l = run_log_entries (locals attempt.2) ++ [critical_entry e]) ∧
  (∀ e, attempt.1 = Raise e → is_Exception e = false → caught = attempt) ∧
  (attempt.1 = Return () → caught = attempt) ∧
  (runs_below_counter (db s) →
     db (run_test_case id s).2 = db s ∨ db (run_test_case id s).2 = d) ∧
  (runs_below_counter (db s) → store_accepts → db (run_test_case id s).2 = d).
Proof.
  intros start_time st0 attempt caught l end_time d.
  pose proof (run_test_case_outcome_db id start_time st0) as Hdb.
  pose proof (run_test_case_saves id s) as Hsave.
  fold start_time st0 caught in Hsave, Hdb. cbv zeta in Hsave. fold l end_time in Hsave.
  change (db_of caught.2 = db s) in Hdb.
  assert (Hspec : runs_below_counter (db s) →
            (db (run_test_case id s).2 = db s ∨ db (run_test_case id s).2 = d) ∧
            (store_accepts → db (run_test_case id s).2 = d)).
  { intros Hbelow. rewrite Hsave. subst d. rewrite <- Hdb. unfold db_of.
    match goal with |- context [save_run_results ?a ?b ?c ?d0 ?e ?f ?g ?h ?s0] =>
      destruct (save_run_results_spec a b c d0 e f g h s0) as (_ & H1 & H2)
    end.
    { unfold db_of in Hdb. unfold caught in Hdb. by rewrite Hdb. }
    split; [exact H1|intros Ha; exact (proj2 (H2 Ha))]. }
  split_and!; try (intros; by apply Hspec).
  - intros e He Hexc. subst l caught attempt.
    rewrite run_test_case_outcome_eq.
    destruct (run_test_case_try id start_time st0) as [[[]|exc] st]; [done|].
    simpl in He. injection He as ->. by rewrite Hexc.
  - intros e He Hexc. subst l caught attempt.
    rewrite run_test_case_outcome_eq.
    destruct (run_test_case_try id start_time st0) as [[[]|exc] st]; [done|].
    simpl in He. injection He as ->. by rewrite Hexc.
  - intros He. subst l caught attempt.
    rewrite run_test_case_outcome_eq.
    by destruct (run_test_case_try id start_time st0) as [[[]|exc] st].
Qed.

End RunnerFacts.

End CoreFacts.

(** ** The properties on concrete runs *)

Module DemoFacts.
Import Agent Core Demo AgentFacts CoreFacts.



(** Two commands for [agent-1], polled three times. *)
Lemma poll_fifo_witness :
  is_Some (get_agent (Router.agent_manager one_agent_router) "agent-1") ∧
  (poll_all (enqueue_all one_agent_router "agent-1" [run_case 7; run_case 8])
     "agent-1" [101; 106; 111]).1 =
  [Router.Ok200 (Router.CommandDict (run_case 7)); Router.Ok200 (Router.CommandDict (run_case 8)); Router.Ok200 Router.EmptyDict].
Proof.
  split; [eexists; reflexivity|].
  destruct (poll_fifo_nonblocking one_agent_router "agent-1"
              (stored_info ["playwright"; "ui_testing"])
              [run_case 7; run_case 8] [101; 106; 111] eq_refl)
    as ((r' & Hp & _) & _).
  rewrite Hp. reflexivity.
Defined.

(** An execution command for [agent-1] that nobody answers. *)
Lemma send_command_status_witness :
  is_execution (command (run_case 7)) = true ∧
  (send_command one_agent "agent-1" (run_case 7) [] 101 401 401).1 = timeout_response ∧
  status <$> agents (send_command one_agent "agent-1" (run_case 7) [] 101 401 401).2
               !! "agent-1" = Some ONLINE.
Proof.
  split; [reflexivity|].
  destruct (send_command_status one_agent "agent-1" (run_case 7) (stored_info []) []
              101 401 401 eq_refl eq_refl eq_refl eq_refl)
    as (_ & _ & (m' & Hs & Hst & _) & _).
  rewrite Hs. split; [reflexivity|exact Hst].
Defined.

(** A keyword outside the vocabulary on a page that can be photographed. *)
Lemma execute_step_recovers_witness :
  (∀ w0, (perform (Driver:=reachable_target)
            (PageScreenshot (failure_screenshot_path demo_engine unknown_step)) w0).1 = None) ∧
  ∃ message w',
    execute_step (H:=reachable_target) demo_engine unknown_step [] =
      (Return (false, message, Some "reports/run_7/screenshots/step_1_failure.png"), w').
Proof.
  assert (Hshot : ∀ w0, (perform (Driver:=reachable_target)
            (PageScreenshot (failure_screenshot_path demo_engine unknown_step)) w0).1 = None)
    by (intros w0; reflexivity).
  split; [exact Hshot|].
  destruct (execute_step_recovers (H:=reachable_target) demo_engine unknown_step [] Hshot)
    as [Hcaught _].
  destruct Hcaught as (success & message & artifact & w' & Hex & _ & Hfalse & Hunknown).
  { intros e. vm_compute. intros [= <-]. reflexivity. }
  assert (success = false) as -> by (apply Hunknown; reflexivity).
  destruct (Hfalse eq_refl) as (-> & _ & _).
  exists message, w'. exact Hex.
Defined.

(** The page is closed: the unsupported keyword raises, and so does the
    screenshot in the handler. *)
Lemma execute_step_screenshot_raises :
  execute_step (H:=closed_page) demo_engine unknown_step [] =
  (Raise target_closed,
   [PageScreenshot "reports/run_7/screenshots/step_1_failure.png"]).
Proof. vm_compute. reflexivity. Qed.

(** Case 8: the click at position 3 fails; case 7: the four steps pass. *)
Lemma fail_fast_run_witness :
  run_until_loop (H:=reachable_target) 8 0 (start reachable_target []) = typo_loop ∧
  run_test_case_try (H:=reachable_target) 8 0 (start reachable_target []) = typo_end ∧
  (length (run_log_entries (locals typo_end.2)) = 3%nat ∧
   test_status (locals typo_end.2) = "Failed") ∧
  (length (run_log_entries (locals login_end.2)) = 4%nat ∧
   test_status (locals login_end.2) = "Passed").
Proof.
  assert (Hu8 : run_until_loop (H:=reachable_target) 8 0
                  (start reachable_target []) = typo_loop) by (vm_compute; reflexivity).
  assert (Ht8 : run_test_case_try (H:=reachable_target) 8 0
                  (start reachable_target []) = typo_end) by (vm_compute; reflexivity).
  assert (Hu7 : run_until_loop (H:=reachable_target) 7 0
                  (start reachable_target []) = login_loop) by (vm_compute; reflexivity).
  assert (Ht7 : run_test_case_try (H:=reachable_target) 7 0
                  (start reachable_target []) = login_end) by (vm_compute; reflexivity).
  split; [exact Hu8|]. split; [exact Ht8|]. split.
  - destruct (fail_fast_run (H:=reachable_target) 8 (start_sys reachable_target [])
                _ _ _ _ _ _ Hu8 Ht8) as (_ & Hfail & _).
    destruct (Hfail 2%nat _ eq_refl) as (Hlen & Hst & _). split; [exact Hlen|exact Hst].
  - destruct (fail_fast_run (H:=reachable_target) 7 (start_sys reachable_target [])
                _ _ _ _ _ _ Hu7 Ht7) as (_ & _ & Hpass).
    exact (Hpass _ eq_refl).
Defined.

(** The trace cannot be written: the four steps of case 7 succeed, yet the
    log holds five entries and the status is Failed. *)
Lemma teardown_failure_adds_entry :
  ∃ cd p out engine st_loop,
    run_until_loop (H:=trace_unwritable) 7 0 (start trace_unwritable []) =
      (Return (cd, p, out, engine), st_loop) ∧
    length (steps cd) = 4%nat ∧
    is_Some (steps_succeed engine 0 (steps cd) (world (sys st_loop))) ∧
    length (run_log_entries (locals
      (run_test_case_outcome (H:=trace_unwritable) 7 0 (start trace_unwritable [])).2))
      = 5%nat ∧
    test_status (locals
      (run_test_case_outcome (H:=trace_unwritable) 7 0 (start trace_unwritable [])).2)
      = "Failed".
Proof.
  do 5 eexists. split; [vm_compute; reflexivity|].
  split; [reflexivity|]. split; [eexists; vm_compute; reflexivity|].
  split; vm_compute; reflexivity.
Qed.

(** Case 9 has no step and its session opens and closes. *)
Lemma empty_case_passes_witness :
  get_test_case (H:=reachable_target) 9 (start_sys reachable_target []) = empty_case ∧
  run_test_case_try (H:=reachable_target) 9 0 (start reachable_target []) = empty_end ∧
  test_status (locals empty_end.2) = "Passed" ∧
  run_log_entries (locals empty_end.2) = [].
Proof.
  assert (Hc : get_test_case (H:=reachable_target) 9 (start_sys reachable_target [])
               = empty_case) by (vm_compute; reflexivity).
  assert (Ht : run_test_case_try (H:=reachable_target) 9 0 (start reachable_target [])
               = empty_end) by (vm_compute; reflexivity).
  split; [exact Hc|]. split; [exact Ht|].
  destruct (empty_case_passes (H:=reachable_target) 9 (start_sys reachable_target [])
              _ _ _ Hc eq_refl Ht) as (Hst & Hlogs & _).
  split; [exact Hst|exact Hlogs].
Defined.

(** Case 9 has no step and both lookups succeed, but the browser cannot be
    launched: the status is Failed. *)
Lemma empty_case_without_browser :
  ∃ cd s1 p s2,
    get_test_case (H:=no_browser) 9 (start_sys no_browser []) = (Return (Some cd), s1) ∧
    steps cd = [] ∧
    get_project (H:=no_browser) (case_project_id (case_row cd)) s1 = (Return (Some p), s2) ∧
    test_status (locals
      (run_test_case_outcome (H:=no_browser) 9 0 (start no_browser [])).2) = "Failed" ∧
    run_log_entries (locals
      (run_test_case_outcome (H:=no_browser) 9 0 (start no_browser [])).2)
      = [critical_entry (mkExc "Error" "Executable doesn't exist")].
Proof.
  do 4 eexists. split; [vm_compute; reflexivity|].
  split; [reflexivity|]. split; [vm_compute; reflexivity|].
  split; vm_compute; reflexivity.
Qed.

(** Case 7 cancelled while its first page loads: the cancellation leaves
    [run_test_case]; no critical entry is logged; the run is recorded as
    Failed with no log row. *)
Lemma run_cancelled_not_caught :
  (run_test_case (H:=cancelled_load) 7 (start_sys cancelled_load [])).1 =
    Raise cancelled ∧
  is_Exception cancelled = false ∧
  run_log_entries (locals
    (run_test_case_outcome (H:=cancelled_load) 7
       (clock (world (start_sys cancelled_load []))) (start cancelled_load [])).2) = [] ∧
  run_status <$> test_runs (db (run_test_case (H:=cancelled_load) 7
                                  (start_sys cancelled_load [])).2) = ["Failed"] ∧
  run_logs (db (run_test_case (H:=cancelled_load) 7
                  (start_sys cancelled_load [])).2) = [].
Proof. split_and!; vm_compute; reflexivity. Qed.

(** Case 8 is recorded as Failed with its three entries; a case that does
    not exist is recorded as Failed with the critical entry. *)
Lemma run_always_recorded_witness :
  runs_below_counter demo_db ∧ store_accepts (H:=reachable_target) ∧
  run_status <$> test_runs (db (run_test_case (H:=reachable_target) 8
                                  (start_sys reachable_target [])).2) = ["Failed"] ∧
  (λ r, (log_run_id r, log_step_id r, log_level r)) <$>
    run_logs (db (run_test_case (H:=reachable_target) 8
                    (start_sys reachable_target [])).2)
    = [(1, Some 1, "INFO"); (1, Some 2, "INFO"); (1, Some 3, "ERROR")] ∧
  (λ r, (log_run_id r, log_step_id r, log_level r)) <$>
    run_logs (db (run_test_case (H:=reachable_target) 99
                    (start_sys reachable_target [])).2)
    = [(1, None, "CRITICAL")].
Proof.
  assert (Hbelow : runs_below_counter demo_db).
  { intros r Hr. simpl in Hr. by apply elem_of_nil in Hr. }
  assert (Haccepts : store_accepts (H:=reachable_target)).
  { split; intros; reflexivity. }
  split; [exact Hbelow|]. split; [exact Haccepts|].
  destruct (run_always_recorded (H:=reachable_target) 8 (start_sys reachable_target []))
    as (_ & _ & _ & _ & Hrec8).
  destruct (run_always_recorded (H:=reachable_target) 99 (start_sys reachable_target []))
    as (_ & _ & _ & _ & Hrec99).
  rewrite (Hrec8 Hbelow Haccepts), (Hrec99 Hbelow Haccepts).
  split; [vm_compute; reflexivity|]. split; vm_compute; reflexivity.
Defined.

(** The third entry of the run of case 8 carries step id 3, although the
    failing step is stored under id 103. *)
Lemma log_step_ids_witness :
  run_log_entries (locals
    (run_test_case_outcome (H:=reachable_target) 8
       (clock (world (start_sys reachable_target []))) (start reachable_target [])).2)
    !! 2%nat = Some typo_third_entry ∧
  entry_step_id typo_third_entry = Some 3.
Proof.
  assert (Hl : run_log_entries (locals
            (run_test_case_outcome (H:=reachable_target) 8
               (clock (world (start_sys reachable_target []))) (start reachable_target [])).2)
            !! 2%nat = Some typo_third_entry) by (vm_compute; reflexivity).
  split; [exact Hl|].
  destruct (log_step_ids (H:=reachable_target) 8 (start_sys reachable_target []))
    as [Hids _].
  destruct (Hids 2%nat typo_third_entry Hl) as [Hid|(Hcrit & _)];
    [exact Hid|discriminate Hcrit].
Defined.

End DemoFacts.

(** ** Further properties of the registry and the routes *)

Module RegistryFacts.
Import Agent Registry AgentFacts.

Lemma keyed_register m info uuid t1 t2 :
  keyed m → keyed (register_agent m info uuid t1 t2).2.
Proof.
  intros Hk k a. simpl. destruct (decide (uuid = k)) as [->|Hne].
  - rewrite lookup_insert_eq. by intros [= <-].
  - rewrite lookup_insert_ne by done. apply Hk.
Qed.

Lemma keyed_unregister m agent_id : keyed m → keyed (unregister_agent m agent_id).
Proof.
  intros Hk k a. unfold unregister_agent. simpl. rewrite del_if_present_delete.
  intros [_ Ha]%lookup_delete_Some. by apply Hk.
Qed.

Lemma keyed_update m agent_id s now :
  keyed m → keyed (update_agent_status m agent_id s now).
Proof.
  intros Hk k a. rewrite update_agent_status_lookup. case_decide as Hd; [|apply Hk].
  subst. destruct (agents m !! k) as [a0|] eqn:E; [|done].
  simpl. intros [= <-]. simpl. by apply Hk.
Qed.

Lemma well_formed_register m info uuid t1 t2 :
  well_formed m → well_formed (register_agent m info uuid t1 t2).2.
Proof. intros [Hc Hk]. split; [by apply consistent_register|by apply keyed_register]. Qed.

Lemma well_formed_unregister m agent_id :
  well_formed m → well_formed (unregister_agent m agent_id).
Proof. intros [Hc Hk]. split; [by apply consistent_unregister|by apply keyed_unregister]. Qed.

Lemma well_formed_update m agent_id s now :
  well_formed m → well_formed (update_agent_status m agent_id s now).
Proof. intros [Hc Hk]. split; [by apply consistent_update|by apply keyed_update]. Qed.

(** Replacing the queue stored under a key that is present changes
    neither the keys nor the info records. *)
Lemma well_formed_set_connection m k q :
  is_Some (agent_connections m !! k) →
  well_formed m →
  well_formed {| agents := agents m;
                 agent_connections := <[k := q]> (agent_connections m);
                 command_queues := command_queues m |}.
Proof.
  intros Hs [Hc Hk]. split; [|exact Hk].
  intros i. unfold registered. simpl. destruct (decide (k = i)) as [->|Hne].
  - rewrite lookup_insert_eq. destruct (Hc i) as [Hci Hqi].
    split; [|exact Hqi]. split; [intros _; by apply Hci|eauto].
  - rewrite lookup_insert_ne by done. apply Hc.
Qed.

Lemma well_formed_set_queue m k q :
  is_Some (command_queues m !! k) →
  well_formed m →
  well_formed {| agents := agents m;
                 agent_connections := agent_connections m;
                 command_queues := <[k := q]> (command_queues m) |}.
Proof.
  intros Hs [Hc Hk]. split; [|exact Hk].
  intros i. unfold registered. simpl. destruct (decide (k = i)) as [->|Hne].
  - rewrite lookup_insert_eq. destruct (Hc i) as [Hci Hqi].
    split; [exact Hci|]. split; [intros _; by apply Hqi|eauto].
  - rewrite lookup_insert_ne by done. apply Hc.
Qed.

Lemma well_formed_response m agent_id response :
  well_formed m → well_formed (handle_agent_response m agent_id response).
Proof.
  intros Hm. unfold handle_agent_response.
  destruct (agent_connections m !! agent_id) as [q|] eqn:E; [|done].
  apply well_formed_set_connection; [by rewrite E|done].
Qed.

Lemma well_formed_activity m a : well_formed m → well_formed (run_activity m a).
Proof.
  intros Hm.
  destruct a; [by apply well_formed_response|by apply well_formed_unregister
              |by apply well_formed_update|by apply well_formed_register].
Qed.

Lemma well_formed_activities others : ∀ m,
  well_formed m → well_formed (foldl run_activity m others).
Proof.
  induction others as [|a others IH]; intros m Hm; [done|].
  simpl. by apply IH, well_formed_activity.
Qed.

Lemma well_formed_queue_get agent_id others : ∀ m,
  well_formed m → well_formed (queue_get agent_id others m).2.
Proof.
  induction others as [|a others IH]; intros m Hm; simpl;
    destruct (agent_connections m !! agent_id) as [[|r q]|] eqn:E; simpl; try done.
  - apply well_formed_set_connection; [by rewrite E|done].
  - by apply IH, well_formed_activity.
  - apply well_formed_set_connection; [by rewrite E|done].
  - by apply well_formed_activities, well_formed_activity.
Qed.

Lemma well_formed_wait_for agent_id timeout others m :
  well_formed m → well_formed (wait_for agent_id timeout others m).2.
Proof.
  intros Hm. unfold wait_for. case_bool_decide.
  - by apply well_formed_activities.
  - by apply well_formed_queue_get.
Qed.

Lemma well_formed_send_command m agent_id c others t_busy t_err t_fin :
  well_formed m → well_formed (send_command m agent_id c others t_busy t_err t_fin).2.
Proof.
  intros Hm. unfold send_command.
  destruct (command_queues m !! agent_id) as [q|] eqn:Eq; [|done].
  cbv zeta.
  assert (Hbusy : well_formed (mark_busy m agent_id c t_busy)).
  { unfold mark_busy. destruct (is_execution (command c)); [|done].
    by apply well_formed_update. }
  assert (Henq : well_formed (enqueue_command (mark_busy m agent_id c t_busy) agent_id q c)).
  { apply well_formed_set_queue; [|done].
    unfold mark_busy. destruct (is_execution (command c)); [|by rewrite Eq].
    by rewrite update_agent_status_queues, Eq. }
  assert (Hreset : ∀ m', well_formed m' → well_formed (reset_online m' agent_id c t_fin)).
  { intros m' Hm'. unfold reset_online. destruct (is_execution (command c)); [|done].
    by apply well_formed_update. }
  destruct (agent_connections (enqueue_command _ _ _ _) !! agent_id) as [q0|]; simpl.
  - pose proof (well_formed_wait_for agent_id (timeout c) others _ Henq) as Hw.
    destruct (wait_for agent_id (timeout c) others _) as [[r|] m']; simpl in *.
    + by apply Hreset.
    + by apply Hreset, well_formed_update.
  - by apply Hreset, well_formed_update.
Qed.

(** Unregistering a list of ids one after the other. *)
Lemma unregister_all_lookup ks : ∀ m k,
  let m' := foldl unregister_agent m ks in
  (k ∈ ks →
     agents m' !! k = None ∧ agent_connections m' !! k = None ∧
     command_queues m' !! k = None) ∧
  (k ∉ ks →
     agents m' !! k = agents m !! k ∧
     agent_connections m' !! k = agent_connections m !! k ∧
     command_queues m' !! k = command_queues m !! k).
Proof.
  induction ks as [|k0 ks IH]; intros m k; simpl.
  { split; [by intros ?%elem_of_nil|done]. }
  destruct (IH (unregister_agent m k0) k) as [IHin IHout].
  assert (Hk0 : ∀ k', agents (unregister_agent m k0) !! k' =
                       (if decide (k0 = k') then None else agents m !! k') ∧
                     agent_connections (unregister_agent m k0) !! k' =
                       (if decide (k0 = k') then None else agent_connections m !! k') ∧
                     command_queues (unregister_agent m k0) !! k' =
                       (if decide (k0 = k') then None else command_queues m !! k')).
  { intros k'. unfold unregister_agent. simpl. rewrite !del_if_present_delete.
    by rewrite !lookup_delete. }
  destruct (Hk0 k) as (Ha & Hc & Hq).
  split.
  - intros [->|Hin]%elem_of_cons.
    + destruct (decide (k0 ∈ ks)) as [Hin|Hout]; [by apply IHin|].
      destruct (IHout Hout) as (-> & -> & ->).
      rewrite Ha, Hc, Hq. by repeat case_decide.
    + by apply IHin.
  - intros Hout. apply not_elem_of_cons in Hout as [Hne Hout].
    destruct (IHout Hout) as (-> & -> & ->).
    rewrite Ha, Hc, Hq. by repeat case_decide.
Qed.

Lemma inactive_agents_elem m cutoff k :
  k ∈ (filter (λ kv, last_seen kv.2 < cutoff) (map_to_list (agents m))).*1 ↔
  stale m cutoff k.
Proof.
  unfold stale. rewrite list_elem_of_fmap. split.
  - intros ([k' a] & -> & [Hlt Hin%elem_of_map_to_list]%list_elem_of_filter). eauto.
  - intros (a & Ha & Hlt). exists (k, a). split; [done|].
    apply list_elem_of_filter. split; [done|]. by apply elem_of_map_to_list.
Qed.

Lemma cleanup_lookup m now threshold_minutes k :
  let m' := cleanup_inactive_agents m now threshold_minutes in
  let cutoff := now - threshold_minutes * 60 in
  (stale m cutoff k →
     agents m' !! k = None ∧ agent_connections m' !! k = None ∧
     command_queues m' !! k = None) ∧
  (¬ stale m cutoff k →
     agents m' !! k = agents m !! k ∧
     agent_connections m' !! k = agent_connections m !! k ∧
     command_queues m' !! k = command_queues m !! k).
Proof.
  intros m' cutoff. subst m'. unfold cleanup_inactive_agents. fold cutoff.
  destruct (unregister_all_lookup
              (filter (λ kv, last_seen kv.2 < cutoff) (map_to_list (agents m))).*1 m k)
    as [Hin Hout].
  split; intros Hs.
  - by apply Hin, inactive_agents_elem.
  - apply Hout. by rewrite inactive_agents_elem.
Qed.

Lemma well_formed_unregister_all ks : ∀ m,
  well_formed m → well_formed (foldl unregister_agent m ks).
Proof.
  induction ks as [|k ks IH]; intros m Hm; [done|].
  simpl. by apply IH, well_formed_unregister.
Qed.

(** X1: the three dictionaries keep the same keys and every record stays
    under its own id, whatever the manager does. *)
Theorem registry_stays_well_formed m :
  well_formed m →
  (∀ info uuid t1 t2, well_formed (register_agent m info uuid t1 t2).2) ∧
  (∀ k, well_formed (unregister_agent m k)) ∧
  (∀ k s now, well_formed (update_agent_status m k s now)) ∧
  (∀ k response, well_formed (handle_agent_response m k response)) ∧
  (∀ now threshold, well_formed (cleanup_inactive_agents m now threshold)) ∧
  (∀ k c others t_busy t_err t_fin,
     well_formed (send_command m k c others t_busy t_err t_fin).2).
Proof.
  intros Hm. split_and!; intros.
  - by apply well_formed_register.
  - by apply well_formed_unregister.
  - by apply well_formed_update.
  - by apply well_formed_response.
  - by apply well_formed_unregister_all.
  - by apply well_formed_send_command.
Qed.

(** X2: the sweep removes exactly the agents last seen strictly before the
    cutoff, with both their queues, and leaves every other agent and queue
    as it was; an agent last seen at the cutoff stays. *)
Theorem cleanup_removes_exactly_stale m now threshold_minutes k :
  let m' := cleanup_inactive_agents m now threshold_minutes in
  let cutoff := now - threshold_minutes * 60 in
  (stale m cutoff k →
     agents m' !! k = None ∧ agent_connections m' !! k = None ∧
     command_queues m' !! k = None) ∧
  (¬ stale m cutoff k →
     agents m' !! k = agents m !! k ∧
     agent_connections m' !! k = agent_connections m !! k ∧
     command_queues m' !! k = command_queues m !! k) ∧
  (∀ a, agents m !! k = Some a → last_seen a = cutoff → agents m' !! k = Some a).
Proof.
  intros m' cutoff. subst m' cutoff.
  pose proof (cleanup_lookup m now threshold_minutes k) as Hl. cbv zeta in Hl.
  destruct Hl as [Hin Hout].
  split_and!; [exact Hin|exact Hout|].
  intros a Ha Hseen. destruct Hout as (Hkeep & _); [|by rewrite Hkeep].
  intros (a' & Ha' & Hlt). rewrite Ha in Ha'. injection Ha' as <-. lia.
Qed.

Lemma available_elem m a :
  a ∈ get_available_agents m ↔ ∃ k, agents m !! k = Some a ∧ status a = ONLINE.
Proof.
  unfold get_available_agents, get_all_agents.
  rewrite list_elem_of_filter, list_elem_of_fmap. split.
  - intros (Hs & [k a'] & -> & Hin%elem_of_map_to_list). eauto.
  - intros (k & Ha & Hs). split; [done|]. exists (k, a). split; [done|].
    by apply elem_of_map_to_list.
Qed.

(** X3: [get_available_agents] lists exactly the agents whose status is
    Online; while an execution command is in flight its agent is not in the
    list, and it is back once the command has completed. *)
Theorem busy_agent_not_available m k c a0 t_busy t_fin :
  keyed m →
  agents m !! k = Some a0 →
  is_execution (command c) = true →
  (∀ a, a ∈ get_available_agents m ↔
        ∃ k', agents m !! k' = Some a ∧ status a = ONLINE) ∧
  (∀ a, a ∈ get_available_agents (mark_busy m k c t_busy) → id a ≠ k) ∧
  set_status ONLINE t_fin (set_status BUSY t_busy a0) ∈
    get_available_agents (reset_online (mark_busy m k c t_busy) k c t_fin).
Proof.
  intros Hk Ha Hexec. split_and!.
  - apply available_elem.
  - intros a (k' & Hk' & Hs)%available_elem. unfold mark_busy in Hk'.
    rewrite Hexec, update_agent_status_lookup in Hk'. case_decide as Hd.
    + subst k'. rewrite Ha in Hk'. injection Hk' as <-. discriminate Hs.
    + apply Hk in Hk'. congruence.
  - apply available_elem. exists k. split; [|done].
    unfold reset_online, mark_busy. rewrite Hexec.
    rewrite !update_agent_status_lookup, !decide_True by done. by rewrite Ha.
Qed.



Lemma harmless_keeps_queue agent_id a m :
  harmless agent_id a →
  command_queues (run_activity m a) !! agent_id = command_queues m !! agent_id.
Proof.
  destruct a as [k r|k|k s now|info uuid t1 t2]; simpl; intros Hh.
  - unfold handle_agent_response. by destruct (agent_connections m !! k).
  - rewrite del_if_present_delete. by rewrite lookup_delete_ne.
  - by rewrite update_agent_status_queues.
  - by rewrite lookup_insert_ne.
Qed.

Lemma harmless_activities_keep_queue agent_id others : ∀ m,
  Forall (harmless agent_id) others →
  command_queues (foldl run_activity m others) !! agent_id = command_queues m !! agent_id.
Proof.
  induction others as [|a others IH]; intros m Hh; [done|].
  apply Forall_cons in Hh as [Ha Hh]. simpl.
  by rewrite IH, harmless_keeps_queue.
Qed.

Lemma queue_get_keeps_queue agent_id others : ∀ m,
  Forall (harmless agent_id) others →
  command_queues (queue_get agent_id others m).2 !! agent_id = command_queues m !! agent_id.
Proof.
  induction others as [|a others IH]; intros m Hh; simpl;
    destruct (agent_connections m !! agent_id) as [[|r q]|]; simpl; try done.
  - apply Forall_cons in Hh as [Ha Hh]. by rewrite IH, harmless_keeps_queue.
  - apply Forall_cons in Hh as [Ha Hh].
    by rewrite harmless_activities_keep_queue, harmless_keeps_queue.
Qed.

Lemma wait_for_keeps_queue agent_id timeout others m :
  Forall (harmless agent_id) others →
  command_queues (wait_for agent_id timeout others m).2 !! agent_id
    = command_queues m !! agent_id.
Proof.
  intros Hh. unfold wait_for. case_bool_decide.
  - by apply harmless_activities_keep_queue.
  - by apply queue_get_keeps_queue.
Qed.

(** X5: [send_command] appends the command to the agent's command queue and
    nothing takes it out again: when it returns, with an answer or with a
    timeout, the command is still queued behind the earlier ones, as long as
    the agent was not unregistered or registered anew meanwhile. *)
Theorem dispatched_command_stays_queued m agent_id c others q t_busy t_err t_fin :
  command_queues m !! agent_id = Some q →
  Forall (harmless agent_id) others →
  command_queues (send_command m agent_id c others t_busy t_err t_fin).2 !! agent_id
    = Some (q ++ [c]).
Proof.
  intros Hq Hh. unfold send_command. rewrite Hq. cbv zeta.
  assert (Henq : command_queues
                   (enqueue_command (mark_busy m agent_id c t_busy) agent_id q c)
                   !! agent_id = Some (q ++ [c])).
  { simpl. by rewrite lookup_insert_eq. }
  assert (Hreset : ∀ m', command_queues (reset_online m' agent_id c t_fin)
                         = command_queues m').
  { intros m'. unfold reset_online. destruct (is_execution (command c)); [|done].
    apply update_agent_status_queues. }
  destruct (agent_connections (enqueue_command _ _ _ _) !! agent_id) as [q0|]; simpl.
  - pose proof (wait_for_keeps_queue agent_id (timeout c) others
                  (enqueue_command (mark_busy m agent_id c t_busy) agent_id q c) Hh) as Hw.
    destruct (wait_for agent_id (timeout c) others _) as [[r|] m']; simpl in *.
    + by rewrite Hreset, Hw.
    + by rewrite Hreset, update_agent_status_queues, Hw.
  - by rewrite Hreset, update_agent_status_queues.
Qed.

Lemma unanswered_activity agent_id a m :
  ¬ answers agent_id a →
  agent_connections m !! agent_id = Some [] ∨ agent_connections m !! agent_id = None →
  agent_connections (run_activity m a) !! agent_id = Some [] ∨
  agent_connections (run_activity m a) !! agent_id = None.
Proof.
  intros Hn Hc. destruct a as [k r|k|k s now|info uuid t1 t2]; simpl.
  - assert (k ≠ agent_id) as Hne by (intros ->; apply Hn; by eexists).
    unfold handle_agent_response. destruct (agent_connections m !! k); [|done].
    simpl. by rewrite lookup_insert_ne.
  - rewrite del_if_present_delete. destruct (decide (k = agent_id)) as [->|Hne].
    + right. by rewrite lookup_delete_eq.
    + by rewrite lookup_delete_ne.
  - by rewrite update_agent_status_connections.
  - destruct (decide (uuid = agent_id)) as [->|Hne].
    + left. by rewrite lookup_insert_eq.
    + by rewrite lookup_insert_ne.
Qed.

Lemma unanswered_queue_get agent_id others : ∀ m,
  Forall (λ a, ¬ answers agent_id a) others →
  agent_connections m !! agent_id = Some [] ∨ agent_connections m !! agent_id = None →
  (queue_get agent_id others m).1 = None.
Proof.
  induction others as [|a others IH]; intros m Hn [Hc|Hc]; simpl; rewrite Hc; try done.
  apply Forall_cons in Hn as [Ha Hn]. apply IH; [done|].
  apply unanswered_activity; auto.
Qed.

Lemma unanswered_wait agent_id timeout others m :
  Forall (λ a, ¬ answers agent_id a) others →
  agent_connections m !! agent_id = Some [] ∨ agent_connections m !! agent_id = None →
  (wait_for agent_id timeout others m).1 = None.
Proof.
  intros Hn Hc. unfold wait_for. case_bool_decide; [done|].
  by apply unanswered_queue_get.
Qed.

(** X6: a command sent to an agent whose response queue is empty times out
    unless [handle_agent_response] delivers a response of that agent while
    [send_command] waits: registrations, unregistrations, status updates and
    the responses of other agents do not answer it. *)
Theorem unanswered_command_times_out m agent_id c others q t_busy t_err t_fin :
  command_queues m !! agent_id = Some q →
  agent_connections m !! agent_id = Some [] →
  Forall (λ a, ¬ answers agent_id a) others →
  (send_command m agent_id c others t_busy t_err t_fin).1 = timeout_response.
Proof.
  intros Hq Hc Hn. unfold send_command. rewrite Hq. cbv zeta.
  assert (Hc2 : agent_connections
                  (enqueue_command (mark_busy m agent_id c t_busy) agent_id q c)
                  !! agent_id = Some []).
  { by rewrite enqueue_after_busy. }
  rewrite Hc2.
  pose proof (unanswered_wait agent_id (timeout c) others _ Hn (or_introl Hc2)) as Hw.
  destruct (wait_for agent_id (timeout c) others _) as [[r|] m']; simpl in *;
    [discriminate|done].
Qed.

Lemma poll_404 r agent_id now :
  get_agent (Router.agent_manager r) agent_id = None →
  Router.get_agent_commands r agent_id now =
    (Router.HTTPException 404 "Agent not found", r).
Proof. intros Hn. unfold Router.get_agent_commands. by rewrite Hn. Qed.

Lemma send_404 r agent_id c :
  get_agent (Router.agent_manager r) agent_id = None →
  Router.send_command_to_agent r agent_id c =
    (Router.HTTPException 404 "Agent not found", r).
Proof. intros Hn. unfold Router.send_command_to_agent. by rewrite Hn. Qed.

(** X7: registering through the route stores the registration under the new
    id, Online, with an empty backlog, so the first poll answers the empty
    object; after unregistering through the route the agent's pending
    commands are gone and both the polling and the command route answer 404
    without changing anything. *)
Theorem route_register_unregister r reg uuid t0 t1 t_created t_seen now c cs :
  let r1 := (Router.register_agent r reg uuid t0 t1 t_created t_seen).2 in
  let r2 := Router.unregister_agent (enqueue_all r1 uuid cs) uuid in
  (Router.register_agent r reg uuid t0 t1 t_created t_seen).1 = uuid ∧
  get_agent (Router.agent_manager r1) uuid =
    Some {| id := uuid; name := reg_name reg; hostname := reg_hostname reg;
            ip_address := reg_ip_address reg; status := ONLINE;
            last_seen := t_seen; capabilities := reg_capabilities reg;
            current_task := None; created_at := t_created |} ∧
  (Router.get_agent_commands r1 uuid now).1 = Router.Ok200 Router.EmptyDict ∧
  backlog (enqueue_all r1 uuid cs) uuid = cs ∧
  Router.agent_commands r2 !! uuid = None ∧
  Router.get_agent_commands r2 uuid now =
    (Router.HTTPException 404 "Agent not found", r2) ∧
  Router.send_command_to_agent r2 uuid c =
    (Router.HTTPException 404 "Agent not found", r2).
Proof.
  intros r1 r2.
  assert (Hreg : get_agent (Router.agent_manager r1) uuid =
    Some {| id := uuid; name := reg_name reg; hostname := reg_hostname reg;
            ip_address := reg_ip_address reg; status := ONLINE;
            last_seen := t_seen; capabilities := reg_capabilities reg;
            current_task := None; created_at := t_created |}).
  { subst r1. unfold get_agent. simpl. by rewrite lookup_insert_eq. }
  assert (Hback : backlog r1 uuid = []).
  { subst r1. unfold backlog. simpl. by rewrite lookup_insert_eq. }
  destruct (enqueue_all_backlog cs r1 uuid _ Hreg) as [Hm Hb].
  assert (Hgone : get_agent (Router.agent_manager r2) uuid = None).
  { subst r2. unfold get_agent. simpl. rewrite del_if_present_delete.
    by rewrite lookup_delete_eq. }
  split_and!.
  - done.
  - exact Hreg.
  - destruct (poll_once r1 uuid now _ Hreg) as (r' & Hp & _). rewrite Hp, Hback. done.
  - by rewrite Hb, Hback.
  - subst r2. simpl. rewrite del_if_present_delete. by rewrite lookup_delete_eq.
  - by apply poll_404.
  - by apply send_404.
Qed.

(** X8: a poll stamps the agent with the time of the poll and changes
    nothing else in its record, so a sweep whose cutoff is not later than
    the poll keeps the agent. *)
Theorem poll_keeps_agent_alive r agent_id a now t threshold_minutes :
  get_agent (Router.agent_manager r) agent_id = Some a →
  t - threshold_minutes * 60 ≤ now →
  let r' := (Router.get_agent_commands r agent_id now).2 in
  get_agent (Router.agent_manager r') agent_id = Some (set_status (status a) now a) ∧
  get_agent (cleanup_inactive_agents (Router.agent_manager r') t threshold_minutes) agent_id
    = Some (set_status (status a) now a).
Proof.
  intros Ha Hle r'.
  assert (Hr' : get_agent (Router.agent_manager r') agent_id
                = Some (set_status (status a) now a)).
  { subst r'. unfold Router.get_agent_commands. rewrite Ha.
    unfold get_agent in *.
    assert (agents (update_agent_status (Router.agent_manager r) agent_id (status a) now)
              !! agent_id = Some (set_status (status a) now a)) as Hu.
    { by rewrite update_agent_status_lookup, decide_True, Ha. }
    by destruct (Router.agent_commands r !! agent_id) as [[|c0 rest]|]. }
  split; [exact Hr'|].
  pose proof (cleanup_lookup (Router.agent_manager r') t threshold_minutes agent_id) as Hl.
  cbv zeta in Hl. destruct Hl as [_ Hout].
  unfold get_agent in *. destruct Hout as (-> & _); [|done].
  intros (a' & Ha' & Hlt). rewrite Hr' in Ha'. injection Ha' as <-. simpl in Hlt. lia.
Qed.

(** X9: commands sent to an agent do not count as a sign of life: they leave
    its record as it was. Once the sweep has removed the agent, the commands
    still sit in the backlog, but a poll for them answers 404. *)
Theorem swept_agent_backlog_unreachable r agent_id a cs now t threshold_minutes :
  get_agent (Router.agent_manager r) agent_id = Some a →
  last_seen a < t - threshold_minutes * 60 →
  let r1 := enqueue_all r agent_id cs in
  let r2 := sweep r1 t threshold_minutes in
  get_agent (Router.agent_manager r1) agent_id = Some a ∧
  backlog r2 agent_id = backlog r agent_id ++ cs ∧
  Router.get_agent_commands r2 agent_id now =
    (Router.HTTPException 404 "Agent not found", r2).
Proof.
  intros Ha Hold r1 r2.
  destruct (enqueue_all_backlog cs r agent_id a Ha) as [Hm Hb].
  split_and!.
  - subst r1. by rewrite Hm.
  - exact Hb.
  - apply poll_404. subst r2. unfold sweep, get_agent. simpl.
    pose proof (cleanup_lookup (Router.agent_manager r1) t threshold_minutes agent_id) as Hl.
    cbv zeta in Hl. destruct Hl as [Hin _]. apply Hin.
    exists a. split; [|done]. subst r1. rewrite Hm. exact Ha.
Qed.

End RegistryFacts.
(** ** The keyword table and the handlers *)

Module KeywordFacts.
Import Core Keywords CoreFacts.

Section Table.
Context `{Driver}.

Lemma table_entry k desc params :
  (k, (desc, params)) ∈ KEYWORD_DEFINITIONS →
  (k = "goto" ∧ params = ["value"]) ∨
  (k = "click" ∧ params = ["locator"]) ∨
  (k = "fill" ∧ params = ["locator"; "value"]) ∨
  (k = "press" ∧ params = ["locator"; "value"]) ∨
  (k = "select_option" ∧ params = ["locator"; "value"]) ∨
  (k = "wait_for_selector" ∧ params = ["locator"]) ∨
  (k = "wait_for_url" ∧ params = ["value"]) ∨
  (k = "expect_text" ∧ params = ["locator"; "value"]) ∨
  (k = "expect_title" ∧ params = ["value"]) ∨
  (k = "screenshot" ∧ params = ["value"]).
Proof.
  unfold KEYWORD_DEFINITIONS. rewrite !elem_of_cons, elem_of_nil.
  intros Hin. repeat destruct Hin as [Hin|Hin]; try done;
    injection Hin as -> -> ->; tauto.
Qed.

Lemma argument_locator loc val : argument "locator" loc val = loc.
Proof. reflexivity. Qed.

Lemma argument_value loc val : argument "value" loc val = val.
Proof. reflexivity. Qed.

Lemma params_locator (P : string → Prop) :
  (∀ p, p ∈ ["locator"] → P p) → P "locator".
Proof. intros HP. apply HP. set_solver. Qed.

Lemma params_value (P : string → Prop) :
  (∀ p, p ∈ ["value"] → P p) → P "value".
Proof. intros HP. apply HP. set_solver. Qed.

Lemma params_both (P : string → Prop) :
  (∀ p, p ∈ ["locator"; "value"] → P p) → P "locator" ∧ P "value".
Proof. intros HP. split; apply HP; set_solver. Qed.

(** X10: [KEYWORDS] is the key list of [KEYWORD_DEFINITIONS], without
    duplicates, and every keyword of the table names a handler, so the
    lookup of the method in [execute_step] cannot fail for a keyword that
    passed the membership test. A handler reads only the arguments the table
    lists for its keyword. *)
Theorem keyword_table_names_handlers self :
  KEYWORDS = KEYWORD_DEFINITIONS.*1 ∧
  NoDup KEYWORDS ∧
  (∀ k, k ∈ KEYWORDS ↔ is_Some (getattr_method self k)) ∧
  (∀ k, k ∈ KEYWORDS ↔ is_Some (params_of k)) ∧
  (∀ k params method locator value locator' value',
     params_of k = Some params →
     getattr_method self k = Some method →
     (∀ p, p ∈ params → argument p locator value = argument p locator' value') →
     method locator value = method locator' value').
Proof.
  split_and!.
  - reflexivity.
  - compute_done.
  - intros k. split.
    + unfold KEYWORDS. rewrite !elem_of_cons, elem_of_nil.
      intros Hin. repeat destruct Hin as [Hin|Hin]; try done; subst k; by eexists.
    + intros [method Hm]. unfold getattr_method in Hm.
      repeat match type of Hm with
             | context [String.eqb k ?s] =>
                 destruct (String.eqb_spec k s) as [->|_]; [compute_done|]
             end.
      discriminate.
  - intros k. unfold params_of. rewrite fmap_is_Some. split.
    + unfold KEYWORDS. rewrite !elem_of_cons, elem_of_nil.
      intros Hin. repeat destruct Hin as [Hin|Hin]; try done; subst k; by eexists.
    + intros [[desc params] Hl]. apply elem_of_list_to_map_2 in Hl.
      change KEYWORDS with (KEYWORD_DEFINITIONS.*1).
      apply list_elem_of_fmap. by exists (k, (desc, params)).
  - intros k params method loc val loc' val' Hp Hm Hargs.
    unfold params_of in Hp. apply fmap_Some in Hp as ([desc params'] & Hl & ->).
    apply elem_of_list_to_map_2, table_entry in Hl. simpl in Hargs.
    destruct Hl as [[-> ->]|[[-> ->]|[[-> ->]|[[-> ->]|[[-> ->]|[[-> ->]|[[-> ->]|
                    [[-> ->]|[[-> ->]|[-> ->]]]]]]]]]];
      injection Hm as <-;
      first [apply params_both in Hargs as [Hl Hv]; rewrite !argument_locator in Hl;
             rewrite !argument_value in Hv; by subst
            |apply params_locator in Hargs; rewrite !argument_locator in Hargs; by subst
            |apply params_value in Hargs; rewrite !argument_value in Hargs; by subst].
Qed.

Lemma params_of_entry k params :
  params_of k = Some params →
  (k = "goto" ∧ params = ["value"]) ∨
  (k = "click" ∧ params = ["locator"]) ∨
  (k = "fill" ∧ params = ["locator"; "value"]) ∨
  (k = "press" ∧ params = ["locator"; "value"]) ∨
  (k = "select_option" ∧ params = ["locator"; "value"]) ∨
  (k = "wait_for_selector" ∧ params = ["locator"]) ∨
  (k = "wait_for_url" ∧ params = ["value"]) ∨
  (k = "expect_text" ∧ params = ["locator"; "value"]) ∨
  (k = "expect_title" ∧ params = ["value"]) ∨
  (k = "screenshot" ∧ params = ["value"]).
Proof.
  unfold params_of. intros ([desc params'] & Hl & ->)%fmap_Some.
  by apply elem_of_list_to_map_2, table_entry in Hl.
Qed.

Lemma missing_param (p : string) locator value :
  p ∈ ["locator"; "value"] → argument p locator value = None →
  locator = None ∨ value = None.
Proof.
  rewrite !elem_of_cons, elem_of_nil. intros [->|[->|[]]]; cbn; auto.
Qed.

Lemma truthy_Some v : truthy v = true → ∃ s, v = Some s ∧ s ≠ "".
Proof.
  destruct v as [s|]; [|discriminate]. simpl.
  destruct (String.eqb_spec s ""); [discriminate|eauto].
Qed.

Lemma call_answers c w : page_answers → ∃ w', call c w = (Return (), w').
Proof.
  intros Hp. specialize (Hp c w). unfold call.
  destruct (perform c w) as [[e|] w']; [discriminate|eauto].
Qed.

Lemma call_then_answers c (m : M World unit) w :
  page_answers → (∀ w1, ∃ w', m w1 = (Return (), w')) →
  ∃ w', (call c ;; m) w = (Return (), w').
Proof.
  intros Hp Hm. destruct (call_answers c w Hp) as [w1 Hc].
  unfold mbind, M_bind, bind. rewrite Hc. apply Hm.
Qed.

Lemma handler_missing_param self k params method locator value w p :
  params_of k = Some params →
  getattr_method self k = Some method →
  k ≠ "screenshot" →
  p ∈ params → argument p locator value = None →
  ∃ msg, method locator value w = (Raise (ValueError msg), w).
Proof.
  intros Hp Hm Hk. apply params_of_entry in Hp.
  assert (Hone : ∀ q : string, ∀ p, p ∈ [q] → p = q).
  { intros q p' Hin. by apply list_elem_of_singleton in Hin. }
  destruct Hp as [[-> ->]|[[-> ->]|[[-> ->]|[[-> ->]|[[-> ->]|[[-> ->]|[[-> ->]|
                  [[-> ->]|[[-> ->]|[-> ->]]]]]]]]]];
    injection Hm as <-.
  - intros ->%Hone Harg. rewrite argument_value in Harg. subst. by eexists.
  - intros ->%Hone Harg. rewrite argument_locator in Harg. subst. by eexists.
  - intros Hin [->| ->]%missing_param; [| |done]; eexists.
    + unfold fill. by destruct value.
    + reflexivity.
  - intros Hin [->| ->]%missing_param; [| |done]; eexists.
    + reflexivity.
    + unfold press. by destruct (truthy locator).
  - intros Hin [->| ->]%missing_param; [| |done]; eexists.
    + reflexivity.
    + unfold select_option. by destruct (truthy locator).
  - intros ->%Hone Harg. rewrite argument_locator in Harg. subst. by eexists.
  - intros ->%Hone Harg. rewrite argument_value in Harg. subst. by eexists.
  - intros Hin [->| ->]%missing_param; [| |done]; eexists.
    + unfold expect_text. by destruct value.
    + reflexivity.
  - intros ->%Hone Harg. rewrite argument_value in Harg. subst. by eexists.
  - done.
Qed.

Lemma table_keyword_supported self k params :
  params_of k = Some params →
  keyword_in_KEYWORDS (Some k) = true ∧ ∃ method, getattr_method self k = Some method.
Proof.
  intros Hp. apply params_of_entry in Hp.
  destruct Hp as [[-> ->]|[[-> ->]|[[-> ->]|[[-> ->]|[[-> ->]|[[-> ->]|[[-> ->]|
                  [[-> ->]|[[-> ->]|[-> ->]]]]]]]]]];
    (split; [compute_done|by eexists]).
Qed.

Lemma ValueError_is_Exception msg : is_Exception (ValueError msg) = true.
Proof. reflexivity. Qed.

Lemma execute_step_rejected self step e w :
  is_Exception e = true →
  execute_step_try self (keyword step) (locator step) (value step)
    (step_description step) w = (Raise e, w) →
  execute_step self step w = rejected self step e w.
Proof.
  intros Hexc Htry. unfold execute_step, try_except, rejected.
  fold (step_description step). rewrite Htry, Hexc.
  unfold mbind, M_bind, bind. rewrite screenshot_failure_name.
  by destruct (perform _ w) as [[e'|] w'].
Qed.

(** X11: a handler other than [screenshot] raises [ValueError], before any
    call to the page, when an argument the table lists for its keyword is
    missing; when all the listed arguments are non-empty strings and the
    page answers every call, the handler returns. [screenshot] does not
    require the value the table lists: without one it writes the screenshot
    under a name made from the clock. *)
Theorem listed_params_are_required self k params method locator value w :
  params_of k = Some params →
  getattr_method self k = Some method →
  (k ≠ "screenshot" →
   ∀ p, p ∈ params → argument p locator value = None →
        ∃ msg, method locator value w = (Raise (ValueError msg), w)) ∧
  (page_answers →
   (∀ p, p ∈ params → truthy (argument p locator value) = true) →
   ∃ w', method locator value w = (Return (), w')) ∧
  (k = "screenshot" →
   method locator None w =
     call (PageScreenshot
             (os_path_join (screenshot_dir self)
                ("screenshot_" +:+ fmt_int (clock w) +:+ ".png"))) w).
Proof.
  intros Hp Hm. split; [by eauto using handler_missing_param|].
  apply params_of_entry in Hp.
  destruct Hp as [[-> ->]|[[-> ->]|[[-> ->]|[[-> ->]|[[-> ->]|[[-> ->]|[[-> ->]|
                  [[-> ->]|[[-> ->]|[-> ->]]]]]]]]]];
    injection Hm as <-; (split; [|try discriminate]).
  - (* goto *)
    intros Hpage Hv%params_value. rewrite argument_value in Hv.
    unfold goto. rewrite Hv. simpl.
    apply call_then_answers; [done|]. intros w1. by apply call_answers.
  - (* click *)
    intros Hpage Hl%params_locator. rewrite argument_locator in Hl.
    unfold click. rewrite Hl. simpl. by apply call_answers.
  - (* fill *)
    intros Hpage [Hl Hv]%params_both.
    rewrite argument_locator in Hl. rewrite argument_value in Hv.
    apply truthy_Some in Hv as (v & -> & _).
    unfold fill. rewrite Hl. simpl. by apply call_answers.
  - (* press *)
    intros Hpage [Hl Hv]%params_both.
    rewrite argument_locator in Hl. rewrite argument_value in Hv.
    unfold press. rewrite Hl, Hv. simpl. by apply call_answers.
  - (* select_option *)
    intros Hpage [Hl Hv]%params_both.
    rewrite argument_locator in Hl. rewrite argument_value in Hv.
    unfold select_option. rewrite Hl, Hv. simpl. by apply call_answers.
  - (* wait_for_selector *)
    intros Hpage Hl%params_locator. rewrite argument_locator in Hl.
    unfold wait_for_selector. rewrite Hl. simpl. by apply call_answers.
  - (* wait_for_url *)
    intros Hpage Hv%params_value. rewrite argument_value in Hv.
    unfold wait_for_url. rewrite Hv. simpl. by apply call_answers.
  - (* expect_text *)
    intros Hpage [Hl Hv]%params_both.
    rewrite argument_locator in Hl. rewrite argument_value in Hv.
    apply truthy_Some in Hv as (v & -> & _).
    unfold expect_text. rewrite Hl. simpl. by apply call_answers.
  - (* expect_title *)
    intros Hpage Hv%params_value. rewrite argument_value in Hv.
    apply truthy_Some in Hv as (v & -> & _). by apply call_answers.
  - (* screenshot *)
    intros Hpage _. unfold screenshot, mbind, M_bind, bind, gets.
    destruct (call_answers
                (PageScreenshot
                   (os_path_join (screenshot_dir self)
                      (py_or value ("screenshot_" +:+ fmt_int (clock w) +:+ ".png"))))
                w Hpage) as [w' ->].
    by eexists.
  - intros _. unfold screenshot, mbind, M_bind, bind, gets, py_or, ret.
    by destruct (call _ w) as [[[]|e] w'].
Qed.

(** X12: a step that validation rejects, because its keyword is missing or
    not in the table or because an argument listed for its keyword (other
    than [screenshot]) is missing, costs exactly one call to the page: the
    failure screenshot. The failure message carries the description and the
    text of the error. *)
Theorem rejected_step_only_screenshots self step w :
  (keyword_in_KEYWORDS (keyword step) = false →
   execute_step self step w =
     rejected self step
       (ValueError ("Unsupported keyword: " +:+ fmt_opt (keyword step))) w) ∧
  (∀ k params p,
     keyword step = Some k → k ≠ "screenshot" →
     params_of k = Some params → p ∈ params →
     argument p (locator step) (value step) = None →
     ∃ msg, execute_step self step w = rejected self step (ValueError msg) w).
Proof.
  split.
  - intros Hk. apply execute_step_rejected; [done|]. by apply execute_step_try_unknown.
  - intros k params p Hkw Hk Hp Hin Harg.
    destruct (table_keyword_supported self k params Hp) as [Hsup [method Hm]].
    destruct (handler_missing_param self k params method (locator step) (value step)
                w p Hp Hm Hk Hin Harg) as [msg Hraise].
    exists msg. apply execute_step_rejected; [done|].
    unfold execute_step_try. rewrite Hkw, Hsup. simpl. rewrite Hm.
    unfold mbind, M_bind, bind. by rewrite Hraise.
Qed.

End Table.
End KeywordFacts.

(** ** The store: what the lookups return *)

Module StoreFacts.
Import Core Store CoreFacts.

Section Lookups.
Context `{Driver}.

Lemma insert_by_order_perm x l : insert_by_order x l ≡ₚ x :: l.
Proof.
  induction l as [|y l IH]; simpl; [done|].
  case_bool_decide; [done|]. by rewrite IH, Permutation_swap.
Qed.

Lemma order_by_step_order_perm l : order_by_step_order l ≡ₚ l.
Proof.
  induction l as [|x l IH]; simpl; [done|].
  by rewrite insert_by_order_perm, IH.
Qed.

Lemma get_steps_for_case_inv id s l s' :
  get_steps_for_case id s = (Return l, s') →
  l = order_by_step_order (filter (λ st, step_case_id st = id) (test_steps (db s))) ∧
  db s' = db s.
Proof.
  unfold get_steps_for_case, get_db_cursor.
  destruct (perform DbConnect (world s)) as [[e|] w]; [discriminate|].
  rewrite cursor_query_eq. simpl.
  destruct (perform _ w) as [[e|] w1]; [discriminate|].
  simpl. by intros [= <- <-].
Qed.

Lemma find_id_Some {A} (key : A → Z) id l x :
  List.find (λ c, bool_decide (key c = id)) l = Some x → x ∈ l ∧ key x = id.
Proof.
  intros [Hin Hx]%find_some. apply bool_decide_eq_true in Hx.
  split; [by apply list_elem_of_In|done].
Qed.

Lemma find_id_None {A} (key : A → Z) id l :
  List.find (λ c, bool_decide (key c = id)) l = None → ∀ c, c ∈ l → key c ≠ id.
Proof.
  intros Hn c Hc%list_elem_of_In Hk.
  apply (find_none _ _ Hn) in Hc. by apply bool_decide_eq_false in Hc.
Qed.

Lemma get_test_case_inv id s r s' :
  get_test_case id s = (Return r, s') →
  db s' = db s ∧
  match r with
  | Some cd =>
      case_row cd ∈ test_cases (db s) ∧ case_id (case_row cd) = id ∧
      steps cd =
        order_by_step_order (filter (λ st, step_case_id st = id) (test_steps (db s)))
  | None => ∀ c, c ∈ test_cases (db s) → case_id c ≠ id
  end.
Proof.
  intros Hg. split.
  { pose proof (get_db_cursor_read_db
                  (case_data ← cursor_query "SELECT * FROM test_cases WHERE id = %s"
                     (λ d, List.find (λ c, bool_decide (case_id c = id)) (test_cases d));
                   match case_data with
                   | Some row =>
                       steps ← get_steps_for_case id;
                       ret (Some {| case_row := row; steps := steps |})
                   | None => ret None
                   end) s) as Hdb.
    unfold get_test_case in Hg. by rewrite Hg in Hdb. }
  revert Hg. unfold get_test_case, get_db_cursor.
  destruct (perform DbConnect (world s)) as [[e|] w]; [discriminate|].
  unfold mbind at 1, M_bind at 1, bind at 1. rewrite cursor_query_eq. simpl.
  destruct (perform _ w) as [[e|] w1]; [discriminate|].
  destruct (List.find _ _) as [row|] eqn:Ef.
  - apply find_id_Some in Ef as [Hin Hid].
    unfold mbind, M_bind, bind.
    destruct (get_steps_for_case id _) as [[l|e] s1] eqn:Es; [|discriminate].
    apply get_steps_for_case_inv in Es as [-> _]. simpl.
    by intros [= <- _].
  - intros [= <- _]. by apply find_id_None.
Qed.

(** X13: [get_steps_for_case] returns the steps of the case and no others,
    each once, in ascending position order; [get_test_case] returns the case
    row of that id with these steps, and nothing exactly when no case has
    the id. Neither changes the tables. *)
Theorem case_steps_complete_and_sorted id s :
  (∀ l s', get_steps_for_case id s = (Return l, s') →
     l ≡ₚ filter (λ st, step_case_id st = id) (test_steps (db s)) ∧
     ascending l ∧ db s' = db s) ∧
  (∀ cd s', get_test_case id s = (Return (Some cd), s') →
     case_row cd ∈ test_cases (db s) ∧ case_id (case_row cd) = id ∧
     steps cd ≡ₚ filter (λ st, step_case_id st = id) (test_steps (db s)) ∧
     ascending (steps cd) ∧
     (∀ st, st ∈ steps cd ↔ st ∈ test_steps (db s) ∧ step_case_id st = id) ∧
     db s' = db s) ∧
  (∀ s', get_test_case id s = (Return None, s') →
     (∀ c, c ∈ test_cases (db s) → case_id c ≠ id) ∧ db s' = db s).
Proof.
  split_and!.
  - intros l s' [-> Hdb]%get_steps_for_case_inv.
    split_and!; [apply order_by_step_order_perm|apply order_by_step_order_ascending|done].
  - intros cd s' (Hdb & Hin & Hid & Hsteps)%get_test_case_inv.
    rewrite Hsteps. split_and!; try done.
    + apply order_by_step_order_perm.
    + apply order_by_step_order_ascending.
    + intros st. rewrite order_by_step_order_perm, list_elem_of_filter. tauto.
  - intros s' (Hdb & Hnone)%get_test_case_inv. done.
Qed.

Lemma get_project_inv id s r s' :
  get_project id s = (Return r, s') →
  db s' = db s ∧
  match r with
  | Some p =>
      ∃ row, row ∈ projects (db s) ∧ project_id row = id ∧ valid_project row = true ∧
             p = {| p_id := project_id row; p_name := project_name row;
                    p_description := project_description row;
                    p_base_url := project_base_url row;
                    p_browser := project_browser row;
                    p_headless := default true (project_headless row);
                    p_created_at := project_created_at row |}
  | None => ∀ row, row ∈ projects (db s) → project_id row ≠ id
  end.
Proof.
  unfold get_project, get_db_cursor.
  destruct (perform DbConnect (world s)) as [[e|] w]; [discriminate|].
  unfold mbind, M_bind, bind. rewrite cursor_query_eq. simpl.
  destruct (perform _ w) as [[e|] w1]; [discriminate|].
  destruct (List.find _ _) as [row|] eqn:Ef.
  - apply find_id_Some in Ef as [Hin Hid].
    destruct (valid_project row) eqn:Hv; [|discriminate].
    intros [= <- <-]. split; [done|]. by exists row.
  - intros [= <- <-]. split; [done|]. by apply find_id_None.
Qed.

(** X14: a project that [get_project] returns is the stored row of that id
    with [headless] defaulting to true; its name has 1 to 255 characters
    (code points of the UTF-8 string, not bytes) and its browser is one of
    the three that [PlaywrightManager] accepts, so constructing the manager
    for it never raises. The lookup returns nothing exactly when no row has
    the id, and never changes the tables. *)
Theorem stored_project_is_launchable id s :
  (∀ p s', get_project id s = (Return (Some p), s') →
     p_id p = id ∧
     (∃ row, row ∈ projects (db s) ∧ project_id row = id ∧
             p_name p = project_name row ∧ p_base_url p = project_base_url row ∧
             p_browser p = project_browser row ∧
             p_headless p = default true (project_headless row)) ∧
     (1 ≤ py_len (p_name p) ≤ 255)%nat ∧
     p_browser p ∈ ["chromium"; "firefox"; "webkit"] ∧
     (∀ w, PlaywrightManager_init (p_browser p) (p_headless p) w = (Return (), w)) ∧
     db s' = db s) ∧
  (∀ s', get_project id s = (Return None, s') →
     (∀ row, row ∈ projects (db s) → project_id row ≠ id) ∧ db s' = db s).
Proof.
  split.
  - intros p s' (Hdb & row & Hin & Hid & Hv & ->)%get_project_inv. simpl.
    unfold valid_project in Hv. apply andb_true_iff in Hv as [Hn Hb].
    apply bool_decide_eq_true in Hn. apply bool_decide_eq_true in Hb.
    split_and!; try done; try lia.
    + by exists row.
    + intros w. unfold PlaywrightManager_init. by rewrite bool_decide_eq_true_2.
  - intros s' (Hdb & Hnone)%get_project_inv. done.
Qed.

End Lookups.
End StoreFacts.

(** ** The run: its log, its result and what it leaves in the store *)

Module RunFacts.
Import Core Store CoreFacts.

Section Runs.
Context `{Driver}.

(** *** Rules for [triple] *)

Lemma triple_conseq {A} (P P' : RunState → Prop) (Q Q' : A → RunState → Prop)
    (E E' : RunState → Prop) (m : M RunState A) :
  triple P m Q E →
  (∀ st, P' st → P st) → (∀ a st, Q a st → Q' a st) → (∀ st, E st → E' st) →
  triple P' m Q' E'.
Proof.
  intros Hm HP HQ HE st Hst. specialize (Hm st (HP st Hst)).
  destruct (m st) as [[a|e] st']; auto.
Qed.

Lemma triple_bind {A B} (P : RunState → Prop) (Q : A → RunState → Prop)
    (R : B → RunState → Prop) (E : RunState → Prop)
    (m : M RunState A) (k : A → M RunState B) :
  triple P m Q E → (∀ a, triple (Q a) (k a) R E) → triple P (m ≫= k) R E.
Proof.
  intros Hm Hk st Hst. unfold mbind, M_bind, bind.
  specialize (Hm st Hst). destruct (m st) as [[a|e] st']; [|done].
  by apply Hk.
Qed.

Lemma triple_keeps {A} (φ : list LogEntry → Prop) (m : M RunState A) :
  keeps logs_of m →
  triple (λ st, φ (logs_of st)) m (λ _ st, φ (logs_of st)) (λ st, φ (logs_of st)).
Proof.
  intros Hk st Hst. specialize (Hk st).
  destruct (m st) as [[a|e] st']; simpl in Hk; by rewrite Hk.
Qed.

Lemma triple_try_finally {A} (P : RunState → Prop) (Q Q' : A → RunState → Prop)
    (E E' : RunState → Prop) (m : M RunState A) (fin : M RunState unit) :
  triple P m Q E →
  (∀ a, triple (Q a) fin (λ _, Q' a) E') →
  triple E fin (λ _, E') E' →
  triple P (try_finally m fin) Q' E'.
Proof.
  intros Hm Hq He st Hst. unfold try_finally.
  specialize (Hm st Hst). destruct (m st) as [[a|e] st'].
  - specialize (Hq a st' Hm). by destruct (fin st') as [[[]|e] st''].
  - specialize (He st' Hm). by destruct (fin st') as [[[]|e'] st''].
Qed.

(** *** The log the loop writes *)

Lemma execute_step_artifact engine step w success message shot w' :
  execute_step engine step w = (Return (success, message, shot), w') →
  if success then shot = None else is_Some shot.
Proof.
  intros Hx.
  destruct (execute_step_cases engine step w)
    as [(w1 & Htry & Hex)
       |[(e & w1 & Htry & _ & [(w2 & _ & Hex)|(e' & w2 & _ & Hex)])
        |(e & w1 & Htry & _ & Hex)]];
    rewrite Hex in Hx.
  - rewrite Htry in Hx. by injection Hx as <- _ <- _.
  - injection Hx as <- _ <- _. by eexists.
  - discriminate.
  - rewrite Htry in Hx. discriminate.
Qed.

Lemma step_entry_kind i (success : bool) message shot :
  (if success then shot = None else is_Some shot) →
  if success then info_entry (step_entry i success message shot)
  else error_entry (step_entry i success message shot).
Proof.
  destruct success; intros Hs; unfold info_entry, error_entry; simpl;
    split_and!; by eauto.
Qed.

Lemma only_infos_snoc logs e : only_infos logs → info_entry e → only_infos (logs ++ [e]).
Proof. intros Hl He. apply Forall_app. split; [done|by constructor]. Qed.

Lemma step_loop_shape engine steps : ∀ i,
  triple (λ st, only_infos (logs_of st)) (step_loop engine i steps)
    after_loop (λ st, only_infos (logs_of st)).
Proof.
  induction steps as [|step rest IH]; intros i st Hst; [done|].
  rewrite step_loop_cons.
  destruct (execute_step _ _ _) as [[[[success message] shot]|e] w'] eqn:Hx; [|done].
  apply execute_step_artifact in Hx.
  apply (step_entry_kind i success message shot) in Hx.
  cbv zeta. destruct success.
  - apply IH. unfold logs_of. simpl. by apply only_infos_snoc.
  - unfold after_loop, logs_of. simpl. by eexists _, _.
Qed.

(** *** From the loop to the status *)

Lemma only_infos_nil st : no_logs st → only_infos (logs_of st).
Proof. unfold no_logs. intros ->. constructor. Qed.

Lemma after_loop_interrupted ok st : after_loop ok st → interrupted st.
Proof. destruct ok; [by left|by right]. Qed.

Lemma stop_keeps_logs : keeps logs_of (on_page PlaywrightManager_stop).
Proof. unfold logs_of. apply keeps_on_page_locals. Qed.

Lemma session_body_shape p out steps :
  triple no_logs (session_body p out steps) after_loop interrupted.
Proof.
  unfold session_body.
  apply triple_bind with (Q := λ _ st, only_infos (logs_of st)).
  { eapply triple_conseq;
      [apply (triple_keeps only_infos), session_open_keeps_logs
      |apply only_infos_nil|done|by left]. }
  intros engine.
  apply triple_bind with (Q := after_loop).
  { eapply triple_conseq; [apply step_loop_shape|done|done|by left]. }
  intros ok.
  apply triple_bind with (Q := λ _, after_loop ok).
  { eapply triple_conseq;
      [apply (triple_keeps (λ logs, if ok then only_infos logs else infos_then_error logs)),
             session_close_keeps_logs
      |done|done|apply (after_loop_interrupted ok)]. }
  intros [] st Hst. exact Hst.
Qed.

Lemma with_PlaywrightManager_shape browser headless p out steps :
  triple no_logs
    (with_PlaywrightManager browser headless (session_body p out steps))
    after_loop interrupted.
Proof.
  unfold with_PlaywrightManager.
  apply triple_bind with (Q := λ _, no_logs).
  { eapply triple_conseq;
      [apply (triple_keeps (λ logs, logs = [])); unfold logs_of; apply keeps_on_page_locals
      |done|done|intros st Hst; left; by apply only_infos_nil]. }
  intros [].
  apply triple_bind with (Q := λ _, no_logs).
  { eapply triple_conseq;
      [apply (triple_keeps (λ logs, logs = [])); unfold logs_of; apply keeps_on_page_locals
      |done|done|intros st Hst; left; by apply only_infos_nil]. }
  intros [].
  apply triple_try_finally with (Q := after_loop) (E := interrupted).
  - apply session_body_shape.
  - intros ok. eapply triple_conseq;
      [apply (triple_keeps (λ logs, if ok then only_infos logs else infos_then_error logs)),
             stop_keeps_logs
      |done|done|apply (after_loop_interrupted ok)].
  - eapply triple_conseq;
      [apply (triple_keeps (λ logs, only_infos logs ∨ infos_then_error logs)), stop_keeps_logs
      |done|done|done].
Qed.

(** *** The status while the [try] block runs *)

Lemma step_loop_keeps_status engine steps : ∀ i,
  keeps (λ st, test_status (locals st)) (step_loop engine i steps).
Proof.
  induction steps as [|step rest IH]; intros i st; [done|].
  rewrite step_loop_cons.
  destruct (execute_step _ _ _) as [[[[[|] message] shot]|e] w']; cbv zeta; try done.
  by rewrite IH.
Qed.

Ltac status_tac :=
  repeat first
    [ apply keeps_bind; [|intros ?]
    | apply keeps_try_finally
    | apply (keeps_on_page_locals test_status)
    | apply (keeps_on_sys_locals test_status)
    | apply (keeps_set_locals test_status); intros []; reflexivity
    | apply keeps_ret
    | apply keeps_mret
    | apply keeps_raise
    | apply step_loop_keeps_status
    | match goal with |- keeps _ (match ?x with _ => _ end) => destruct x end ].

Lemma run_lookup_keeps_status id :
  keeps (λ st, test_status (locals st)) (run_lookup id).
Proof. unfold run_lookup. status_tac. Qed.

Lemma run_output_keeps_status id t :
  keeps (λ st, test_status (locals st)) (run_output id t).
Proof. unfold run_output. status_tac. Qed.

Lemma session_keeps_status browser headless p out steps :
  keeps (λ st, test_status (locals st))
    (with_PlaywrightManager browser headless (session_body p out steps)).
Proof.
  unfold with_PlaywrightManager, session_body, session_open, session_close.
  status_tac.
Qed.

(** The status is assigned by the last statement of the [try] block: a
    block that raises leaves the status it found. *)
Lemma run_test_case_try_raise_status id t st0 e st :
  run_test_case_try id t st0 = (Raise e, st) →
  test_status (locals st) = test_status (locals st0).
Proof.
  unfold run_test_case_try. intros Hx.
  apply bind_inv in Hx as [([cd p] & st1 & Hl & Hx)|(e1 & Hl & _)].
  2: { pose proof (run_lookup_keeps_status id st0) as Hk. by rewrite Hl in Hk. }
  pose proof (run_lookup_keeps_status id st0) as Hk1. rewrite Hl in Hk1. simpl in Hk1.
  apply bind_inv in Hx as [(out & st2 & Ho & Hx)|(e2 & Ho & _)].
  2: { pose proof (run_output_keeps_status id t st1) as Hk. rewrite Ho in Hk.
       simpl in Hk. congruence. }
  pose proof (run_output_keeps_status id t st1) as Hk2. rewrite Ho in Hk2. simpl in Hk2.
  apply bind_inv in Hx as [(ok & st3 & Hs & Hx)|(e3 & Hs & _)]; [discriminate|].
  pose proof (session_keeps_status (p_browser p) (p_headless p) p out (steps cd) st2)
    as Hk3.
  rewrite Hs in Hk3. simpl in Hk3. congruence.
Qed.

(** The state in which the [try] block ends. *)
Lemma run_test_case_try_shape id t :
  triple no_logs (run_test_case_try id t)
    (λ _ st, (test_status (locals st) = "Passed" ∧ only_infos (logs_of st)) ∨
             (test_status (locals st) = "Failed" ∧ infos_then_error (logs_of st)))
    interrupted.
Proof.
  unfold run_test_case_try.
  apply triple_bind with (Q := λ _, no_logs).
  { eapply triple_conseq;
      [apply (triple_keeps (λ logs, logs = [])), run_lookup_keeps_logs
      |done|done|intros st Hst; left; by apply only_infos_nil]. }
  intros [cd p].
  apply triple_bind with (Q := λ _, no_logs).
  { eapply triple_conseq;
      [apply (triple_keeps (λ logs, logs = [])), run_output_keeps_logs
      |done|done|intros st Hst; left; by apply only_infos_nil]. }
  intros out.
  apply triple_bind with (Q := after_loop).
  { apply with_PlaywrightManager_shape. }
  intros [] st Hst; simpl; [left|right]; done.
Qed.

(** X15: in every run the log consists of one Info entry per successful
    step, then possibly the Error entry of the step that failed, then, when
    the [except] clause caught an exception, its Critical entry; Info
    entries carry no screenshot, the Error entry always does, and both carry
    a step id. When the [try] and [except] clauses return, the status is
    Passed exactly when the log holds Info entries only, and Failed
    otherwise. When an exception that does not derive from [Exception]
    passes through them, the status is Failed and the log holds no Critical
    entry: it may consist of Info entries only. *)
Theorem run_log_shape id t s :
  let caught := run_test_case_outcome id t {| sys := s; locals := initial_locals |} in
  let st := caught.2 in
  let logs := run_log_entries (locals st) in
  ((test_status (locals st) = "Passed" ∧ caught.1 = Return () ∧ only_infos logs) ∨
   (test_status (locals st) = "Failed" ∧
    ∃ infos tail,
      logs = infos ++ tail ∧ only_infos infos ∧
      ((∃ e, tail = [e] ∧ error_entry e) ∨
       (∃ c, tail = [c] ∧ critical c ∧ caught.1 = Return ()) ∨
       (∃ e c, tail = [e; c] ∧ error_entry e ∧ critical c ∧ caught.1 = Return ()) ∨
       (tail = [] ∧ ∃ exc, caught.1 = Raise exc)))) ∧
  (caught.1 = Return () →
     (test_status (locals st) = "Passed" ↔ Forall (λ e, level e = "INFO") logs)) ∧
  (∀ exc, caught.1 = Raise exc →
     is_Exception exc = false ∧
     test_status (locals st) = "Failed" ∧
     (only_infos logs ∨ infos_then_error logs)).
Proof.
  intros caught st logs. subst logs st caught.
  rewrite run_test_case_outcome_eq.
  pose proof (run_test_case_try_shape id t {| sys := s; locals := initial_locals |}
                eq_refl) as Ht.
  pose proof (run_test_case_try_raise_status id t
                {| sys := s; locals := initial_locals |}) as Hstatus.
  destruct (run_test_case_try id t _) as [[[]|exc] st];
    [|destruct (is_Exception exc) eqn:Hexc]; simpl in *.
  - unfold logs_of in Ht. split_and!; [| |by intros exc [=]].
    + destruct Ht as [[Hs Hl]|[Hs (infos & e & Hl & Hi & He)]]; [by left|right].
      split; [done|]. exists infos, [e]. split_and!; eauto.
    + intros _. destruct Ht as [[Hs Hl]|[Hs (infos & e & Hl & Hi & (He & _))]].
      * split; [intros _|done]. eapply Forall_impl; [exact Hl|]. by intros e (? & _).
      * split; [rewrite Hs; discriminate|].
        rewrite Hl. intros [_ Hall]%Forall_app.
        apply Forall_cons in Hall as [Hlevel _]. congruence.
  - unfold interrupted, logs_of in Ht.
    split_and!; [|intros _; split; [discriminate|]|by intros exc' [=]].
    + right. split; [done|].
      assert (Hc : critical (critical_entry exc)) by done.
      destruct Ht as [Hl|(infos & e & Hl & Hi & He)].
      * exists (run_log_entries (locals st)), [critical_entry exc].
        split_and!; eauto 10.
      * exists infos, [e; critical_entry exc]. rewrite Hl, <- app_assoc.
        split_and!; eauto 10.
    + intros [_ Hall]%Forall_app. apply Forall_cons in Hall as [Hlevel _]. discriminate.
  - specialize (Hstatus exc st eq_refl). simpl in Hstatus.
    unfold interrupted, logs_of in Ht.
    split_and!; [|by intros [=]|intros exc' [= <-]; by split_and!].
    right. split; [done|].
    destruct Ht as [Hl|(infos & e & Hl & Hi & He)].
    + exists (run_log_entries (locals st)), []. rewrite app_nil_r.
      split_and!; eauto 10.
    + exists infos, [e]. split_and!; eauto 10.
Qed.

(** *** What a run leaves in the store *)

Lemma max_id_snoc_is_Some ids n : is_Some (max_id (ids ++ [n])).
Proof.
  induction ids as [|x ids [m IH]]; [by eexists|].
  change (max_id ((x :: ids) ++ [n])) with
    (match max_id (ids ++ [n]) with
     | Some j => Some (Z.max x j)
     | None => Some x
     end).
  rewrite IH. by eexists.
Qed.

(** The tables after the run row [row] and the log rows of [entries] under
    run id [n] have been added. *)
Lemma save_transaction_any id status t0 t1 dur rp lp logs s s' :
  save_run_results_transaction id status t0 t1 dur rp lp logs s = (Return (), s') →
  ∃ n,
    db s' =
      set_logs (run_logs (db s) ++ (log_row n <$> logs))
        (set_runs
           (test_runs (db s) ++
              [run_row (test_runs_next_id (db s)) id status t0 t1 dur rp lp])
           (test_runs_next_id (db s) + 1) (db s)) ∧
    (runs_below_counter (db s) → n = test_runs_next_id (db s)).
Proof.
  unfold save_run_results_transaction.
  unfold mbind, M_bind, bind. rewrite cursor_execute_eq.
  destruct (perform _ (world s)) as [[e|] w]; [discriminate|].
  rewrite cursor_query_eq. simpl.
  destruct (perform _ w) as [[e|] w']; [discriminate|].
  rewrite filter_app, fmap_app.
  rewrite (filter_cons_True (λ r, run_case_id r = id)) by done.
  rewrite filter_nil, (fmap_cons run_id), fmap_nil.
  change (run_id (run_row ?n _ _ _ _ _ _ _)) with n.
  destruct (max_id _) as [n|] eqn:Emax; [|discriminate].
  match goal with |- context [insert_run_logs n logs ?s0] =>
    destruct (insert_run_logs_spec n logs s0) as [H1 _] end.
  intros Hs'. exists n. split; [by rewrite (H1 _ Hs')|].
  intros Hbelow. rewrite max_id_snoc in Emax; [congruence|].
  intros x Hx. apply list_elem_of_fmap in Hx as (r & -> & Hr).
  apply list_elem_of_filter in Hr as [_ Hr]. by apply Hbelow.
Qed.

Lemma insert_run_logs_raises n logs : ∀ s e s',
  insert_run_logs n logs s = (Raise e, s') →
  ∃ sql w, (perform (DbExecute sql) w).1 = Some e.
Proof.
  induction logs as [|log logs IH]; intros s e s'; [discriminate|].
  simpl. unfold mbind, M_bind, bind. rewrite cursor_execute_eq.
  destruct (perform _ (world s)) as [[e1|] w] eqn:Ep.
  - intros [= <- <-]. eexists _, (world s). by rewrite Ep.
  - apply IH.
Qed.

(** What the statements of [save_run_results] raise is raised by one of
    the [cursor.execute] calls, or is the [TypeError] of a missing row. *)
Lemma save_transaction_raises id status t0 t1 dur rp lp logs s e s' :
  save_run_results_transaction id status t0 t1 dur rp lp logs s = (Raise e, s') →
  is_Exception e = true ∨ ∃ sql w, (perform (DbExecute sql) w).1 = Some e.
Proof.
  unfold save_run_results_transaction.
  unfold mbind, M_bind, bind. rewrite cursor_execute_eq.
  destruct (perform _ (world s)) as [[e1|] w] eqn:Ep.
  { intros [= <- <-]. right. eexists _, (world s). by rewrite Ep. }
  rewrite cursor_query_eq. simpl.
  destruct (perform _ w) as [[e1|] w'] eqn:Eq.
  { intros [= <- <-]. right. eexists _, w. by rewrite Eq. }
  destruct (max_id _) as [n|].
  - intros Hi. right. by eapply insert_run_logs_raises.
  - intros [= <- <-]. by left.
Qed.

(** [save_run_results] lets through only what a [cursor.execute] raised
    that does not derive from [Exception]. *)
Lemma save_run_results_raises id status t0 t1 dur rp lp logs s e :
  (save_run_results id status t0 t1 dur rp lp logs s).1 = Raise e →
  is_Exception e = false ∧ ∃ sql w, (perform (DbExecute sql) w).1 = Some e.
Proof.
  unfold save_run_results, try_except, get_db_cursor.
  destruct (perform DbConnect (world s)) as [[e1|] w]; [discriminate|].
  destruct (save_run_results_transaction _ _ _ _ _ _ _ _ _) as [[[]|e1] s'] eqn:Et;
    [discriminate|].
  destruct (is_Exception e1) eqn:Hexc; [discriminate|].
  simpl. intros [= <-]. split; [done|].
  apply save_transaction_raises in Et as [Ht|Ht]; [congruence|done].
Qed.

Lemma save_run_results_any id status t0 t1 dur rp lp logs s :
  let saved := save_run_results id status t0 t1 dur rp lp logs s in
  (∀ e, saved.1 = Raise e → is_Exception e = false) ∧
  (db saved.2 = db s ∨
   ∃ n,
     db saved.2 =
       set_logs (run_logs (db s) ++ (log_row n <$> logs))
         (set_runs
            (test_runs (db s) ++
               [run_row (test_runs_next_id (db s)) id status t0 t1 dur rp lp])
            (test_runs_next_id (db s) + 1) (db s)) ∧
     (runs_below_counter (db s) → n = test_runs_next_id (db s))).
Proof.
  intros saved. subst saved.
  unfold save_run_results, try_except, get_db_cursor.
  destruct (perform DbConnect (world s)) as [[e|] w]; [simpl; split; [done|by left]|].
  destruct (save_run_results_transaction _ _ _ _ _ _ _ _ _) as [[[]|e] s'] eqn:Et; simpl.
  - split; [done|right]. by apply save_transaction_any in Et.
  - destruct (is_Exception e) eqn:Hexc; simpl; [split; [done|by left]|].
    split; [by intros ? [= <-]|by left].
Qed.

Lemma outcome_status id t st0 :
  locals st0 = initial_locals →
  let st := (run_test_case_outcome id t st0).2 in
  test_status (locals st) = "Passed" ∨ test_status (locals st) = "Failed".
Proof.
  intros Hinit st. subst st. rewrite run_test_case_outcome_eq.
  assert (Hno : no_logs st0) by (unfold no_logs, logs_of; by rewrite Hinit).
  pose proof (run_test_case_try_shape id t st0 Hno) as Ht.
  pose proof (run_test_case_try_raise_status id t st0) as Hstatus.
  destruct (run_test_case_try id t st0) as [[[]|exc] st]; simpl in *.
  - destruct Ht as [[Hs _]|[Hs _]]; auto.
  - destruct (is_Exception exc); simpl; [by right|].
    right. rewrite (Hstatus _ _ eq_refl), Hinit. done.
Qed.

(** X16: a run leaves the projects, cases and steps as they were, keeps
    every earlier run and log row, and records itself entirely or not at
    all: either nothing is added, or one run row (under the next id, for the
    case, with status Passed or Failed and the start time of the run) and
    after it the log rows of all its entries, under one run id, which is
    that of the new row when the earlier ids lie below the counter. *)
Theorem run_only_appends id s :
  let d := db s in
  let d' := db (run_test_case id s).2 in
  let caught :=
    run_test_case_outcome id (clock (world s)) {| sys := s; locals := initial_locals |} in
  projects d' = projects d ∧ test_cases d' = test_cases d ∧
  test_steps d' = test_steps d ∧
  ((test_runs d' = test_runs d ∧ run_logs d' = run_logs d ∧
    test_runs_next_id d' = test_runs_next_id d) ∨
   (∃ row n,
      test_runs d' = test_runs d ++ [row] ∧
      run_logs d' = run_logs d ++ (log_row n <$> run_log_entries (locals caught.2)) ∧
      test_runs_next_id d' = test_runs_next_id d + 1 ∧
      run_id row = test_runs_next_id d ∧ run_case_id row = id ∧
      (run_status row = "Passed" ∨ run_status row = "Failed") ∧
      run_start_time row = clock (world s) ∧
      run_duration row = run_end_time row - run_start_time row ∧
      (runs_below_counter d → n = test_runs_next_id d))).
Proof.
  intros d d' caught. subst d d'.
  pose proof (run_test_case_saves id s) as Hsave. cbv zeta in Hsave.
  pose proof (run_test_case_outcome_db id (clock (world s))
                {| sys := s; locals := initial_locals |}) as Hdb.
  pose proof (outcome_status id (clock (world s))
                {| sys := s; locals := initial_locals |} eq_refl) as Hstatus.
  cbv zeta in Hstatus. fold caught in Hsave, Hdb, Hstatus.
  unfold db_of in Hdb. simpl in Hdb.
  rewrite Hsave.
  match goal with |- context [save_run_results ?a ?b ?c ?e ?f ?g ?h ?i ?j] =>
    destruct (save_run_results_any a b c e f g h i j) as [_ [Hsame|(n & Hrec & Hn)]] end.
  - rewrite Hsame, Hdb. split_and!; try done. by left.
  - rewrite Hrec, Hdb. simpl. split_and!; try done. right.
    eexists _, n. split_and!; try done. by rewrite <- Hdb.
Qed.

Lemma store_ok_recorded d id status t0 t1 dur rp lp logs :
  store_ok d → store_ok (recorded d id status t0 t1 dur rp lp logs).
Proof.
  intros (Hbelow & Huniq & Hlogs). unfold recorded. split_and!.
  - intros r. simpl. rewrite elem_of_app, list_elem_of_singleton.
    intros [Hr| ->]; [apply Hbelow in Hr; lia|simpl; lia].
  - unfold run_ids_unique. simpl. rewrite fmap_app. apply NoDup_app. split_and!.
    + exact Huniq.
    + intros x (r & -> & Hr)%list_elem_of_fmap. simpl.
      rewrite list_elem_of_singleton. apply Hbelow in Hr. lia.
    + simpl. apply NoDup_singleton.
  - intros l. simpl. rewrite elem_of_app. intros [Hl|Hl].
    + destruct (Hlogs l Hl) as (r & Hr & Hid). exists r. split; [|done].
      apply elem_of_app. by left.
    + apply list_elem_of_fmap in Hl as (e & -> & _). eexists. split.
      * apply elem_of_app. right. by apply list_elem_of_singleton.
      * done.
Qed.

(** X17: the store stays consistent from run to run: the run ids handed out
    stay below the counter and unique, every log row belongs to a run of the
    table, and the counter never goes back. *)
Theorem store_stays_consistent id s :
  store_ok (db s) →
  store_ok (db (run_test_case id s).2) ∧
  test_runs_next_id (db s) ≤ test_runs_next_id (db (run_test_case id s).2).
Proof.
  intros Hok.
  pose proof (run_test_case_saves id s) as Hsave. cbv zeta in Hsave.
  pose proof (run_test_case_outcome_db id (clock (world s))
                {| sys := s; locals := initial_locals |}) as Hdb.
  unfold db_of in Hdb. simpl in Hdb. rewrite Hsave.
  match goal with |- context [save_run_results ?a ?b ?c ?e ?f ?g ?h ?i ?j] =>
    destruct (save_run_results_spec a b c e f g h i j) as (_ & [Hsame|Hrec] & _) end.
  { rewrite Hdb. apply Hok. }
  - rewrite Hsame, Hdb. split; [done|lia].
  - rewrite Hrec, Hdb. split; [by apply store_ok_recorded|]. simpl. lia.
Qed.

(** How [run_test_case] ends, by what [save_run_results] and closing the
    log file handler do in the [finally] clause. *)
Lemma run_test_case_result id s :
  let start_time := clock (world s) in
  let caught :=
    run_test_case_outcome id start_time {| sys := s; locals := initial_locals |} in
  let l := locals caught.2 in
  let end_time := clock (world (sys caught.2)) in
  let saved :=
    save_run_results id (test_status l) start_time end_time (end_time - start_time)
      (report_path l) (log_file_path l) (run_log_entries l) (sys caught.2) in
  match saved.1 with
  | Raise e => (run_test_case id s).1 = Raise e
  | Return _ =>
      (run_test_case id s).1 = caught.1 ∨
      (file_handler l = true ∧
       ∃ e w, (perform FileHandlerClose w).1 = Some e ∧ (run_test_case id s).1 = Raise e)
  end.
Proof.
  intros start_time caught l end_time saved. subst saved l end_time caught.
  unfold run_test_case, try_finally. fold start_time.
  destruct (run_test_case_outcome id start_time _) as [r st1]. simpl.
  unfold run_test_case_finally.
  unfold mbind, M_bind, bind. rewrite on_page_eq. simpl.
  rewrite on_sys_eq. simpl. rewrite sys_eta.
  destruct (save_run_results _ _ _ _ _ _ _ _ (sys st1)) as [[[]|e] s2]; simpl; [|done].
  destruct (file_handler (locals st1)); [|by left].
  rewrite on_page_eq. simpl. unfold call.
  destruct (perform FileHandlerClose (world s2)) as [[e|] w] eqn:Ep; [right|by left].
  split; [done|]. exists e, (world s2). by rewrite Ep.
Qed.

Lemma outcome_raises id t st0 e :
  (run_test_case_outcome id t st0).1 = Raise e →
  is_Exception e = false ∧ (run_test_case_try id t st0).1 = Raise e.
Proof.
  rewrite run_test_case_outcome_eq.
  destruct (run_test_case_try id t st0) as [[[]|exc] st]; [discriminate|].
  destruct (is_Exception exc) eqn:Hexc; [discriminate|].
  simpl. by intros [= <-].
Qed.

Lemma outcome_returns id t st0 :
  (∀ e, (run_test_case_try id t st0).1 = Raise e → is_Exception e = true) →
  (run_test_case_outcome id t st0).1 = Return ().
Proof.
  intros Hgentle.
  destruct (run_test_case_outcome id t st0).1 as [[]|e] eqn:Ho; [done|].
  apply outcome_raises in Ho as [Hexc Ht]. apply Hgentle in Ht. congruence.
Qed.

(** X18: an exception leaves [run_test_case] in three cases only: it does
    not derive from [Exception] and left the [try] block, so that the
    [except] clause did not catch it; it does not derive from [Exception]
    and was raised by a statement of [save_run_results]; or it was raised by
    closing the log file handler, in the [finally] clause after the results
    were saved. When the [try] block and the statements of the store raise
    nothing but [Exception]s, [run_test_case] returns normally if closing
    the handler does not raise, and also if the run never got to open its
    log file. *)
Theorem run_raises_only_on_close id s :
  let attempt :=
    run_test_case_try id (clock (world s)) {| sys := s; locals := initial_locals |} in
  let caught :=
    run_test_case_outcome id (clock (world s)) {| sys := s; locals := initial_locals |} in
  (∀ e, (run_test_case id s).1 = Raise e →
     (is_Exception e = false ∧
      (attempt.1 = Raise e ∨ ∃ sql w, (perform (DbExecute sql) w).1 = Some e)) ∨
     (file_handler (locals caught.2) = true ∧
      ∃ w, (perform FileHandlerClose w).1 = Some e)) ∧
  ((∀ e, attempt.1 = Raise e → is_Exception e = true) →
   (∀ sql w e, (perform (DbExecute sql) w).1 = Some e → is_Exception e = true) →
   ((∀ w, (perform FileHandlerClose w).1 = None) → (run_test_case id s).1 = Return ()) ∧
   (file_handler (locals caught.2) = false → (run_test_case id s).1 = Return ())).
Proof.
  intros attempt caught.
  pose proof (run_test_case_result id s) as Hres. cbv zeta in Hres.
  fold caught in Hres.
  match type of Hres with context [save_run_results ?a ?b ?c ?d ?f ?g ?h ?i ?j] =>
    pose proof (save_run_results_raises a b c d f g h i j) as Hsave;
    destruct (save_run_results a b c d f g h i j).1 as [[]|e0]
  end.
  - destruct Hres as [Hres|(Hfh & e0 & w & Hp & Hres)].
    + split.
      * intros e He. rewrite Hres in He. left.
        apply outcome_raises in He as [Hexc Ht]. auto.
      * intros Hgentle _. rewrite Hres. split; intros _; by apply outcome_returns.
    + split.
      * intros e He. rewrite Hres in He. injection He as <-. right. eauto.
      * intros _ _. split.
        -- intros Hclose. specialize (Hclose w). rewrite Hp in Hclose. discriminate.
        -- intros Hno. rewrite Hfh in Hno. discriminate.
  - destruct (Hsave e0 eq_refl) as [Hexc (sql & w & Hp)]. split.
    + intros e He. rewrite Hres in He. injection He as <-. left. eauto.
    + intros _ Hstore. apply Hstore in Hp. congruence.
Qed.

(** *** Where the run writes *)

Lemma triple_frame {A T} (f : RunState → T) (φ : T → Prop) (m : M RunState A) :
  keeps f m →
  triple (λ st, φ (f st)) m (λ _ st, φ (f st)) (λ st, φ (f st)).
Proof.
  intros Hk st Hst. specialize (Hk st).
  destruct (m st) as [[a|e] st']; simpl in Hk; by rewrite Hk.
Qed.

Lemma triple_set_locals (φ ψ : Locals → Prop) h (E : RunState → Prop) :
  (∀ l, φ l → ψ (h l)) →
  triple (λ st, φ (locals st)) (set_locals h) (λ _ st, ψ (locals st)) E.
Proof. intros Hh st Hst. simpl. by apply Hh. Qed.

Lemma on_page_keeps_locals {A} (m : M World A) : keeps locals (on_page m).
Proof. apply (keeps_on_page_locals (λ l, l)). Qed.

Lemma on_sys_keeps_locals {A} (m : M Sys A) : keeps locals (on_sys m).
Proof. apply (keeps_on_sys_locals (λ l, l)). Qed.

Lemma run_lookup_keeps_locals id : keeps locals (run_lookup id).
Proof.
  unfold run_lookup.
  apply keeps_bind; [apply on_sys_keeps_locals|]. intros [cd|]; [|apply keeps_raise].
  apply keeps_bind; [apply on_sys_keeps_locals|]. intros [p|];
    [apply keeps_mret|apply keeps_raise].
Qed.

Lemma located_info logs dir : Forall (located dir) logs → ∀ e, screenshot_path e = None →
  Forall (located dir) (logs ++ [e]).
Proof.
  intros Hl e He. apply Forall_app. split; [done|].
  constructor; [|constructor]. unfold located. by rewrite He.
Qed.

Lemma execute_step_shot engine step w success message shot w' :
  execute_step engine step w = (Return (success, message, shot), w') →
  shot = None ∨ shot = Some (failure_screenshot_path engine step).
Proof.
  intros Hx.
  destruct (execute_step_cases engine step w)
    as [(w1 & Htry & Hex)
       |[(e & w1 & Htry & _ & [(w2 & _ & Hex)|(e' & w2 & _ & Hex)])
        |(e & w1 & Htry & _ & Hex)]];
    rewrite Hex in Hx.
  - rewrite Htry in Hx. injection Hx as _ _ <- _. by left.
  - injection Hx as _ _ <- _. by right.
  - discriminate.
  - rewrite Htry in Hx. discriminate.
Qed.

Lemma step_entry_located engine i step success message shot :
  shot = None ∨ shot = Some (failure_screenshot_path engine (set_step_id (i + 1) step)) →
  located (screenshot_dir engine) (step_entry i success message shot).
Proof.
  intros [->| ->]; unfold located; simpl; [done|].
  exists (i + 1). split; reflexivity.
Qed.

(** Whatever the loop does, it only adds entries, and the screenshots they
    name are failure screenshots in the engine's directory. *)
Lemma step_loop_adds engine steps : ∀ i st,
  ∃ new,
    locals (step_loop engine i steps st).2 = add_logs new (locals st) ∧
    Forall (located (screenshot_dir engine)) new.
Proof.
  induction steps as [|step rest IH]; intros i st.
  - exists []. by rewrite add_logs_nil.
  - rewrite step_loop_cons.
    destruct (execute_step _ _ _) as [[[[success message] shot]|e] w'] eqn:Hx.
    + apply execute_step_shot in Hx.
      apply (step_entry_located engine i step success message) in Hx.
      cbv zeta. destruct success.
      * edestruct IH as (new & -> & Hnew). simpl.
        eexists. rewrite add_logs_app. split; [reflexivity|].
        by constructor.
      * eexists. split; [reflexivity|]. by constructor.
    + exists []. by rewrite add_logs_nil.
Qed.

Lemma step_loop_stage engine steps out report :
  screenshot_dir engine = os_path_join out "screenshots" →
  triple (at_stage out report) (step_loop engine 0 steps)
    (λ _, at_stage out report) (at_stage out report).
Proof.
  intros Hdir st (Hlogs & Hlog & Hrep).
  destruct (step_loop_adds engine steps 0 st) as (new & Hl & Hnew).
  rewrite Hdir in Hnew.
  assert (Hpost : at_stage out report (step_loop engine 0 steps st).2).
  { unfold at_stage, logs_of. rewrite Hl. simpl. split_and!; [|done|done].
    apply Forall_app. by split. }
  by destruct (step_loop engine 0 steps st) as [[ok|e] st'].
Qed.

Lemma at_stage_locals out report st st' :
  locals st' = locals st → at_stage out report st → at_stage out report st'.
Proof. unfold at_stage, logs_of. by intros ->. Qed.

Lemma stage_frame {A} out report (m : M RunState A) :
  keeps locals m →
  triple (at_stage out report) m (λ _, at_stage out report) (at_stage out report).
Proof.
  intros Hk st Hst. specialize (Hk st).
  destruct (m st) as [[a|e] st']; simpl in Hk; by eapply at_stage_locals.
Qed.

Lemma at_stage_placed out report st :
  report = None ∨ report = Some (os_path_join out "report.zip") ∨
    report = Some (os_path_join out "trace.zip") →
  at_stage out report st → placed out st.
Proof.
  intros Hr (Hlogs & Hlog & Hrep). unfold placed. rewrite Hlog, Hrep. auto.
Qed.

Lemma initial_placed out st : locals st = initial_locals → placed out st.
Proof.
  intros Hl. unfold placed, logs_of. rewrite Hl. simpl.
  split_and!; [constructor|by left|by left].
Qed.

Lemma run_output_stage id t :
  triple (λ st, locals st = initial_locals) (run_output id t)
    (λ out st, out = run_directory id t ∧ at_stage out None st)
    (placed (run_directory id t)).
Proof.
  unfold run_output. fold (run_directory id t).
  set (out := run_directory id t).
  apply triple_bind with (Q := λ _ st, locals st = initial_locals).
  { eapply triple_conseq;
      [apply (triple_frame locals (λ l, l = initial_locals)), on_page_keeps_locals
      |done|done|apply initial_placed]. }
  intros [].
  apply triple_bind with (Q := λ _, at_stage out None).
  { intros st Hst. simpl. unfold at_stage, logs_of. simpl. rewrite Hst. simpl.
    split_and!; [constructor|done|done]. }
  intros [].
  apply triple_bind with (Q := λ _, at_stage out None).
  { eapply triple_conseq;
      [apply stage_frame, on_page_keeps_locals|done|done
      |intros st; apply at_stage_placed; by left]. }
  intros [].
  apply triple_bind with (Q := λ _, at_stage out None).
  { intros st Hst. simpl. exact Hst. }
  intros [] st Hst. simpl. done.
Qed.

Lemma KeywordEngine_init_dir base out w engine w' :
  KeywordEngine_init base out w = (Return engine, w') →
  screenshot_dir engine = os_path_join out "screenshots".
Proof.
  unfold KeywordEngine_init, mbind, M_bind, bind.
  destruct (call _ w) as [[[]|e] w1]; [|discriminate]. by intros [= <- _].
Qed.

Lemma session_open_stage p out :
  triple (at_stage out None) (session_open p out)
    (λ engine st, screenshot_dir engine = os_path_join out "screenshots" ∧
                  at_stage out (Some (os_path_join out "report.zip")) st)
    (placed out).
Proof.
  unfold session_open.
  set (opened := at_stage out (Some (os_path_join out "report.zip"))).
  assert (Hplaced : ∀ st, opened st → placed out st).
  { intros st. apply at_stage_placed. right. by left. }
  apply triple_bind with (Q := λ _, opened).
  { intros st (Hlogs & Hlog & _). simpl. by split_and!. }
  intros [].
  apply triple_bind with (Q := λ _, opened).
  { eapply triple_conseq; [apply stage_frame, on_page_keeps_locals|done|done|done]. }
  intros [].
  apply triple_bind with (Q := λ _, opened).
  { eapply triple_conseq; [apply stage_frame, on_page_keeps_locals|done|done|done]. }
  intros [].
  apply triple_bind with (Q := λ _, opened).
  { eapply triple_conseq; [apply stage_frame, on_page_keeps_locals|done|done|done]. }
  intros [] st Hst. rewrite on_page_eq.
  destruct (KeywordEngine_init _ out (world (sys st))) as [[engine|e] w'] eqn:Hinit; simpl.
  - split; [by eapply KeywordEngine_init_dir|]. by eapply at_stage_locals.
  - apply Hplaced. by eapply at_stage_locals.
Qed.

Lemma session_close_stage out report :
  triple (at_stage out report) (session_close out)
    (λ _, at_stage out (Some (os_path_join out "trace.zip"))) (at_stage out report).
Proof.
  unfold session_close.
  apply triple_bind with (Q := λ _, at_stage out report);
    [apply stage_frame, on_page_keeps_locals|intros []].
  apply triple_bind with (Q := λ _, at_stage out report);
    [apply stage_frame, on_page_keeps_locals|intros []].
  apply triple_bind with (Q := λ _, at_stage out report);
    [apply stage_frame, on_page_keeps_locals|intros []].
  intros st (Hlogs & Hlog & _). simpl. by split_and!.
Qed.

Lemma session_body_stage p out steps :
  triple (at_stage out None) (session_body p out steps)
    (λ _, at_stage out (Some (os_path_join out "trace.zip"))) (placed out).
Proof.
  unfold session_body.
  set (opened := at_stage out (Some (os_path_join out "report.zip"))).
  assert (Hplaced : ∀ st, opened st → placed out st).
  { intros st. apply at_stage_placed. right. by left. }
  eapply triple_bind; [apply session_open_stage|]. intros engine.
  apply triple_bind with (Q := λ _, opened).
  { intros st [Hdir Hst].
    pose proof (step_loop_stage engine steps out _ Hdir st Hst) as Hl.
    destruct (step_loop engine 0 steps st) as [[ok|e] st']; auto. }
  intros ok.
  apply triple_bind with (Q := λ _, at_stage out (Some (os_path_join out "trace.zip"))).
  { eapply triple_conseq; [apply session_close_stage|done|done|done]. }
  intros [] st Hst. exact Hst.
Qed.

Lemma run_test_case_try_stage id t :
  triple (λ st, locals st = initial_locals) (run_test_case_try id t)
    (λ _, at_stage (run_directory id t)
            (Some (os_path_join (run_directory id t) "trace.zip")))
    (placed (run_directory id t)).
Proof.
  unfold run_test_case_try.
  set (out := run_directory id t).
  assert (Hplaced : ∀ st, at_stage out None st → placed out st).
  { intros st. apply at_stage_placed. by left. }
  assert (Hdone : ∀ st, at_stage out (Some (os_path_join out "trace.zip")) st →
                        placed out st).
  { intros st. apply at_stage_placed. right. by right. }
  apply triple_bind with (Q := λ _ st, locals st = initial_locals).
  { eapply triple_conseq;
      [apply (triple_frame locals (λ l, l = initial_locals)), run_lookup_keeps_locals
      |done|done|apply initial_placed]. }
  intros [cd p].
  eapply triple_bind; [apply run_output_stage|]. fold out. intros out' st [-> Hst].
  revert st Hst.
  apply triple_bind with (Q := λ _, at_stage out (Some (os_path_join out "trace.zip"))).
  2: { intros ok st Hst. simpl. exact Hst. }
  unfold with_PlaywrightManager.
  apply triple_bind with (Q := λ _, at_stage out None).
  { eapply triple_conseq; [apply stage_frame, on_page_keeps_locals|done|done|done]. }
  intros [].
  apply triple_bind with (Q := λ _, at_stage out None).
  { eapply triple_conseq; [apply stage_frame, on_page_keeps_locals|done|done|done]. }
  intros [].
  apply triple_try_finally
    with (Q := λ _, at_stage out (Some (os_path_join out "trace.zip"))) (E := placed out).
  - apply session_body_stage.
  - intros ok. eapply triple_conseq;
      [apply stage_frame, on_page_keeps_locals|done|done|done].
  - intros st Hst. pose proof (on_page_keeps_locals PlaywrightManager_stop st) as Hk.
    assert (Hpost : placed out (on_page PlaywrightManager_stop st).2).
    { unfold placed, logs_of in *. by rewrite Hk. }
    by destruct (on_page PlaywrightManager_stop st) as [[[]|e] st'].
Qed.

(** X19: everything a run records lies in its own output directory,
    [reports/run_<case id>_<start time>]: the log file, if any, is [run.log]
    there; every screenshot named in the log is
    [screenshots/step_<n>_failure.png] there, with [n] the step id of its
    entry; the report, if any, is [report.zip] or [trace.zip] there, and it
    is [trace.zip] whenever the [try] block completed, which it did in every
    run that passed. *)
Theorem artefacts_in_run_directory id t s :
  let out := run_directory id t in
  let st0 := {| sys := s; locals := initial_locals |} in
  let l := locals (run_test_case_outcome id t st0).2 in
  (∀ e p, e ∈ run_log_entries l → screenshot_path e = Some p →
     ∃ n, entry_step_id e = Some n ∧
          p = os_path_join (os_path_join out "screenshots")
                ("step_" +:+ fmt_int n +:+ "_failure.png")) ∧
  (log_file_path l = None ∨ log_file_path l = Some (os_path_join out "run.log")) ∧
  (report_path l = None ∨ report_path l = Some (os_path_join out "report.zip") ∨
   report_path l = Some (os_path_join out "trace.zip")) ∧
  ((run_test_case_try id t st0).1 = Return () →
   log_file_path l = Some (os_path_join out "run.log") ∧
   report_path l = Some (os_path_join out "trace.zip")) ∧
  (test_status l = "Passed" → (run_test_case_try id t st0).1 = Return ()).
Proof.
  intros out st0 l. subst l. rewrite run_test_case_outcome_eq.
  pose proof (run_test_case_try_stage id t st0 eq_refl) as Ht. fold out in Ht.
  assert (Hloc : ∀ logs, Forall (located (os_path_join out "screenshots")) logs →
            ∀ e p, e ∈ logs → screenshot_path e = Some p →
              ∃ n, entry_step_id e = Some n ∧
                   p = os_path_join (os_path_join out "screenshots")
                         ("step_" +:+ fmt_int n +:+ "_failure.png")).
  { intros logs Hall e p He Hp. eapply Forall_forall in Hall; [|exact He].
    unfold located in Hall. by rewrite Hp in Hall. }
  pose proof (run_test_case_try_raise_status id t st0) as Hstatus.
  destruct (run_test_case_try id t st0) as [[[]|exc] st]; simpl in *.
  - destruct Ht as (Hlogs & Hlog & Hrep). rewrite Hlog, Hrep.
    split_and!; auto. by apply Hloc.
  - destruct Ht as (Hlogs & Hlog & Hrep).
    destruct (is_Exception exc); simpl.
    + split_and!; [|done|done|discriminate|discriminate].
      apply Hloc. apply Forall_app. split; [done|]. by repeat constructor.
    + split_and!; [by apply Hloc|done|done|discriminate|].
      rewrite (Hstatus _ _ eq_refl). discriminate.
Qed.




End Runs.
End RunFacts.

(** ** The agent's commands *)

Module ClientFacts.
Import Agent Core Client CoreFacts RunFacts.

Section CommandFacts.
Context `{Driver}.
Variable TestCaseExecutionRequest : Payload → Result Z.
Variable ModuleExecutionRequest : Payload → Result Z.
Variable ProjectExecutionRequest : Payload → Result Z.
Variable isoformat : Z → string.
Variable fmt_command : AgentCommand → string.

#[local] Abbreviation execute_command :=
  (execute_command TestCaseExecutionRequest ModuleExecutionRequest
     ProjectExecutionRequest isoformat fmt_command).

Lemma in_process_eq {A} (m : M Sys A) self :
  in_process m self =
    ((m (process self)).1,
     {| running := running self; process := (m (process self)).2 |}).
Proof. unfold in_process, zoom. by destruct (m (process self)). Qed.

Lemma run_test_case_reply payload s :
  _run_test_case TestCaseExecutionRequest payload s =
  match TestCaseExecutionRequest payload with
  | Return request =>
      match run_test_case request s with
      | (Return _, s') => (Return (executed "Test case" "case_id" request), s')
      | (Raise e, s') =>
          if is_Exception e then (Return (failed "Failed to run test case" e), s')
          else (Raise e, s')
      end
  | Raise e =>
      if is_Exception e then (Return (failed "Failed to run test case" e), s)
      else (Raise e, s)
  end.
Proof.
  unfold _run_test_case, try_except, validated, mbind, M_bind, bind.
  destruct (TestCaseExecutionRequest payload) as [request|e]; [|done].
  by destruct (run_test_case request s) as [[[]|e] s'].
Qed.

Lemma run_module_reply payload (s : Sys) :
  _run_module ModuleExecutionRequest payload s =
  match ModuleExecutionRequest payload with
  | Return request => (Return (executed "Module" "module_id" request), s)
  | Raise e =>
      if is_Exception e then (Return (failed "Failed to run module" e), s)
      else (Raise e, s)
  end.
Proof.
  unfold _run_module, try_except, validated, mbind, M_bind, bind.
  by destruct (ModuleExecutionRequest payload).
Qed.

Lemma run_project_reply payload (s : Sys) :
  _run_project ProjectExecutionRequest payload s =
  match ProjectExecutionRequest payload with
  | Return request => (Return (executed "Project" "project_id" request), s)
  | Raise e =>
      if is_Exception e then (Return (failed "Failed to run project" e), s)
      else (Raise e, s)
  end.
Proof.
  unfold _run_project, try_except, validated, mbind, M_bind, bind.
  by destruct (ProjectExecutionRequest payload).
Qed.

(** The outer handler of [execute_command] has nothing left to catch: the
    command is answered by what the branch of the command does. *)
Lemma execute_command_eq c self :
  execute_command c self =
  match command c with
  | RUN_TEST_CASE =>
      in_process (_run_test_case TestCaseExecutionRequest (payload c)) self
  | RUN_MODULE => in_process (_run_module ModuleExecutionRequest (payload c)) self
  | RUN_PROJECT => in_process (_run_project ProjectExecutionRequest (payload c)) self
  | PING =>
      (Return {| success := true; Agent.message := "Pong";
                 result := Some {[ "timestamp" := isoformat (clock (world (process self))) ]};
                 error := None |}, self)
  | SHUTDOWN =>
      (Return {| success := true; Agent.message := "Agent shutting down";
                 result := None; error := None |},
       {| running := false; process := process self |})
  end.
Proof.
  unfold Client.execute_command, try_except.
  destruct (command c).
  - rewrite in_process_eq, run_test_case_reply.
    destruct (TestCaseExecutionRequest (payload c)) as [request|e]; simpl.
    + destruct (run_test_case request (process self)) as [[[]|e] s']; simpl; [done|].
      destruct (is_Exception e) eqn:Hexc; simpl; [done|]. by rewrite Hexc.
    + destruct (is_Exception e) eqn:Hexc; simpl; [done|]. by rewrite Hexc.
  - rewrite in_process_eq, run_module_reply.
    destruct (ModuleExecutionRequest (payload c)) as [request|e]; simpl; [done|].
    destruct (is_Exception e) eqn:Hexc; simpl; [done|]. by rewrite Hexc.
  - rewrite in_process_eq, run_project_reply.
    destruct (ProjectExecutionRequest (payload c)) as [request|e]; simpl; [done|].
    destruct (is_Exception e) eqn:Hexc; simpl; [done|]. by rewrite Hexc.
  - unfold mbind, M_bind, bind. rewrite in_process_eq. simpl.
    by destruct self as [? []].
  - done.
Qed.

(** X22: [execute_command] lets no [Exception] through: it returns a
    response, or lets through an exception that does not derive from
    [Exception], such as a cancellation, raised while an execution command
    was validated or run. It returns a response whenever the validations and
    the run raise nothing but [Exception]s, and always for a ping or a
    shutdown, with success. It clears [running] for a shutdown and leaves it
    alone otherwise, and only a run-test-case command touches the process:
    the run-module and run-project commands answer that the module or
    project was executed successfully as soon as the payload validates,
    without running anything. A response that reports failure belongs to an
    execution command and carries the error text. *)
Theorem execute_command_contract c self :
  (∀ e, (execute_command c self).1 = Raise e →
     is_Exception e = false ∧ is_execution (command c) = true) ∧
  ((∀ e, TestCaseExecutionRequest (payload c) = Raise e → is_Exception e = true) →
   (∀ e, ModuleExecutionRequest (payload c) = Raise e → is_Exception e = true) →
   (∀ e, ProjectExecutionRequest (payload c) = Raise e → is_Exception e = true) →
   (∀ request e,
      (run_test_case request (process self)).1 = Raise e → is_Exception e = true) →
   ∃ r, (execute_command c self).1 = Return r) ∧
  (is_execution (command c) = false →
   ∃ r, (execute_command c self).1 = Return r ∧ success r = true) ∧
  running (execute_command c self).2 =
    (if decide (command c = SHUTDOWN) then false else running self) ∧
  (command c ≠ RUN_TEST_CASE → process (execute_command c self).2 = process self) ∧
  (∀ request, command c = RUN_MODULE →
     ModuleExecutionRequest (payload c) = Return request →
     (execute_command c self).1 = Return (executed "Module" "module_id" request)) ∧
  (∀ request, command c = RUN_PROJECT →
     ProjectExecutionRequest (payload c) = Return request →
     (execute_command c self).1 = Return (executed "Project" "project_id" request)) ∧
  (∀ r, (execute_command c self).1 = Return r → success r = false →
     is_execution (command c) = true ∧ is_Some (error r) ∧ result r = None).
Proof.
  rewrite execute_command_eq.
  destruct (command c) eqn:Hc.
  - rewrite in_process_eq, run_test_case_reply.
    destruct (TestCaseExecutionRequest (payload c)) as [request|e] eqn:Hv; simpl.
    + destruct (run_test_case request (process self)) as [[[]|e] s'] eqn:Hrun; simpl.
      * split_and!; try done; try discriminate. { by eexists. }
        intros r [= <-]. discriminate.
      * destruct (is_Exception e) eqn:Hexc; simpl.
        -- split_and!; try done; try discriminate. { by eexists. }
           intros r [= <-] _. by split_and!.
        -- split_and!; try done; try discriminate.
           ++ by intros e' [= <-].
           ++ intros _ _ _ Hrunning. specialize (Hrunning request e).
              rewrite Hrun in Hrunning. specialize (Hrunning eq_refl). congruence.
    + destruct (is_Exception e) eqn:Hexc; simpl.
      * split_and!; try done; try discriminate. { by eexists. }
        intros r [= <-] _. by split_and!.
      * split_and!; try done; try discriminate.
        -- by intros e' [= <-].
        -- intros Hvalid _ _ _. specialize (Hvalid e eq_refl). congruence.
  - rewrite in_process_eq, run_module_reply.
    destruct (ModuleExecutionRequest (payload c)) as [request|e] eqn:Hv; simpl.
    + split_and!; try done; try discriminate. { by eexists. }
      * by intros request' _ [= <-].
      * intros r [= <-]. discriminate.
    + destruct (is_Exception e) eqn:Hexc; simpl.
      * split_and!; try done; try discriminate. { by eexists. }
        intros r [= <-] _. by split_and!.
      * split_and!; try done; try discriminate.
        -- by intros e' [= <-].
        -- intros _ Hvalid _ _. specialize (Hvalid e eq_refl). congruence.
  - rewrite in_process_eq, run_project_reply.
    destruct (ProjectExecutionRequest (payload c)) as [request|e] eqn:Hv; simpl.
    + split_and!; try done; try discriminate. { by eexists. }
      * by intros request' _ [= <-].
      * intros r [= <-]. discriminate.
    + destruct (is_Exception e) eqn:Hexc; simpl.
      * split_and!; try done; try discriminate. { by eexists. }
        intros r [= <-] _. by split_and!.
      * split_and!; try done; try discriminate.
        -- by intros e' [= <-].
        -- intros _ _ Hvalid _. specialize (Hvalid e eq_refl). congruence.
  - simpl. split_and!; try done; try discriminate.
    + by eexists.
    + by eexists.
    + intros r [= <-]. discriminate.
  - simpl. split_and!; try done; try discriminate.
    + by eexists.
    + by eexists.
    + intros r [= <-]. discriminate.
Qed.

(** X23: the response to a run-test-case command says nothing about the
    test: once the payload validates, the case is run, the process is left
    as [run_test_case] leaves it, and the response is the same "executed
    successfully" whether the run was recorded as Passed or as Failed. The
    command is answered with a failure only if [run_test_case] raised an
    [Exception], which it does only when closing the log file raises; an
    exception of [run_test_case] that does not derive from [Exception]
    passes through [execute_command] and the command gets no response. A
    payload that does not validate is answered with the validation error and
    nothing is run. *)
Theorem run_reply_ignores_outcome c self :
  command c = RUN_TEST_CASE →
  (∀ request,
     TestCaseExecutionRequest (payload c) = Return request →
     process (execute_command c self).2 = (run_test_case request (process self)).2 ∧
     ((run_test_case request (process self)).1 = Return () →
      (execute_command c self).1 = Return (executed "Test case" "case_id" request)) ∧
     (∀ e, (run_test_case request (process self)).1 = Raise e →
        (is_Exception e = true ∧
         (∃ w, (perform FileHandlerClose w).1 = Some e) ∧
         (execute_command c self).1 = Return (failed "Failed to run test case" e)) ∨
        (is_Exception e = false ∧ (execute_command c self).1 = Raise e)) ∧
     (∀ r, (execute_command c self).1 = Return r →
        r = executed "Test case" "case_id" request ∨
        ∃ e, r = failed "Failed to run test case" e ∧
             (run_test_case request (process self)).1 = Raise e)) ∧
  (∀ e,
     TestCaseExecutionRequest (payload c) = Raise e →
     is_Exception e = true →
     execute_command c self = (Return (failed "Failed to run test case" e), self)).
Proof.
  intros Hc. rewrite execute_command_eq, Hc.
  rewrite in_process_eq, run_test_case_reply. split.
  - intros request ->.
    pose proof (run_raises_only_on_close request (process self)) as [Hraise _].
    destruct (run_test_case request (process self)) as [[[]|e'] s']; simpl in *.
    + split_and!; [done|done|discriminate|]. intros r [= <-]. by left.
    + destruct (is_Exception e') eqn:Hexc; simpl.
      * split_and!; [done|discriminate| |].
        -- intros e [= <-]. left. split; [done|].
           destruct (Hraise e' eq_refl) as [[Hbase _]|[_ Hclose]]; [congruence|done].
        -- intros r [= <-]. right. by eexists.
      * split_and!; [done|discriminate| |discriminate].
        intros e [= <-]. by right.
  - intros e -> Hexc. rewrite Hexc. simpl. by destruct self.
Qed.

End CommandFacts.
End ClientFacts.

(** ** Queueing a test case for an agent *)

Module DispatchFacts.
Import Agent Core Dispatch AgentFacts CoreFacts StoreFacts RegistryFacts.

Section RouteFacts.
Context `{Driver}.
Variable project_config : Project → string.

#[local] Abbreviation run_test_case_on_agent :=
  (run_test_case_on_agent project_config).

Lemma in_store_eq {A} (m : M Sys A) sv :
  in_store m sv =
    ((m (store sv)).1, {| router := router sv; store := (m (store sv)).2 |}).
Proof. unfold in_store, zoom. by destruct (m (store sv)). Qed.

(** X24: the route that queues a test case for an agent never looks the
    agent up. When the case and its project exist, the command is appended
    to the backlog kept under the given id and the answer is success,
    whether or not an agent is registered under that id; the manager and the
    tables are not touched. For an id that is not registered the command
    cannot be fetched: polling answers 404, and registering an agent that
    draws this id starts it on an empty backlog. A missing case or project
    is answered 404 and nothing is queued. *)
Theorem dispatch_skips_registration agent_id case_id sv :
  (∀ cd s1 p s2,
     get_test_case case_id (store sv) = (Return (Some cd), s1) →
     get_project (case_project_id (case_row cd)) s1 = (Return (Some p), s2) →
     let sv' := (run_test_case_on_agent agent_id case_id sv).2 in
     (run_test_case_on_agent agent_id case_id sv).1 =
       Return (Router.Ok200 (queued_for case_id agent_id)) ∧
     backlog (router sv') agent_id =
       backlog (router sv) agent_id ++ [execution_command project_config case_id p] ∧
     Router.agent_manager (router sv') = Router.agent_manager (router sv) ∧
     db (store sv') = db (store sv) ∧
     (get_agent (Router.agent_manager (router sv)) agent_id = None →
        (∀ now, Router.get_agent_commands (router sv') agent_id now =
                  (Router.HTTPException 404 "Agent not found", router sv')) ∧
        (∀ reg t0 t1 t_created t_seen,
           backlog (Router.register_agent (router sv') reg agent_id
                      t0 t1 t_created t_seen).2 agent_id = []))) ∧
  (∀ s1, get_test_case case_id (store sv) = (Return None, s1) →
     run_test_case_on_agent agent_id case_id sv =
       (Return (Router.HTTPException 404 "Test case not found"),
        {| router := router sv; store := s1 |})) ∧
  (∀ cd s1 s2,
     get_test_case case_id (store sv) = (Return (Some cd), s1) →
     get_project (case_project_id (case_row cd)) s1 = (Return None, s2) →
     run_test_case_on_agent agent_id case_id sv =
       (Return (Router.HTTPException 404 "Project not found"),
        {| router := router sv; store := s2 |})).
Proof.
  split_and!.
  - intros cd s1 p s2 Hc Hp sv'. subst sv'.
    pose proof (get_test_case_inv _ _ _ _ Hc) as [Hdb1 _].
    pose proof (get_project_inv _ _ _ _ Hp) as [Hdb2 _].
    unfold Dispatch.run_test_case_on_agent, mbind, M_bind, bind.
    rewrite in_store_eq, Hc. simpl. rewrite in_store_eq. simpl. rewrite Hp. simpl.
    split_and!; [done| |done|congruence|].
    + unfold backlog. simpl. by rewrite lookup_insert_eq.
    + intros Hnone. split.
      * intros now. by apply poll_404.
      * intros reg t0 t1 t_created t_seen. unfold backlog. simpl.
        by rewrite lookup_insert_eq.
  - intros s1 Hc.
    unfold Dispatch.run_test_case_on_agent, mbind, M_bind, bind.
    rewrite in_store_eq, Hc. done.
  - intros cd s1 s2 Hc Hp.
    unfold Dispatch.run_test_case_on_agent, mbind, M_bind, bind.
    rewrite in_store_eq, Hc. simpl. rewrite in_store_eq. simpl. by rewrite Hp.
Qed.

End RouteFacts.
End DispatchFacts.

(** ** Starting and stopping the browser *)

Module LifecycleFacts.
Import Core Store Lifecycle CoreFacts RunFacts.

Section LoggedFacts.
Context `{Driver}.
Variable log : World → list Event.
Hypothesis Hlog : logging log.

#[local] Abbreviation silent := (silent log).
#[local] Abbreviation traced := (traced log).

(** *** Computations without lifecycle calls *)

Lemma quiet_app q1 q2 : quiet q1 → quiet q2 → quiet (q1 ++ q2).
Proof. intros H1 H2. apply Forall_app. by split. Qed.

Lemma silent_ret {S A} (π : S → World) (a : A) : silent π (ret a).
Proof. intros s. exists []. rewrite app_nil_r. split; [done|constructor]. Qed.

Lemma silent_mret {S A} (π : S → World) (a : A) : silent π (mret a).
Proof. apply silent_ret. Qed.

Lemma silent_raise {S A} (π : S → World) e : silent π (raise (A:=A) e).
Proof. intros s. exists []. rewrite app_nil_r. split; [done|constructor]. Qed.

Lemma silent_gets {S A} (π : S → World) (f : S → A) : silent π (gets f).
Proof. intros s. exists []. rewrite app_nil_r. split; [done|constructor]. Qed.

Lemma silent_modify {S} (π : S → World) (f : S → S) :
  (∀ s, π (f s) = π s) → silent π (modify f).
Proof.
  intros Hf s. exists []. simpl. rewrite Hf, app_nil_r. split; [done|constructor].
Qed.

Lemma silent_bind {S A B} (π : S → World) (m : M S A) (k : A → M S B) :
  silent π m → (∀ a, silent π (k a)) → silent π (m ≫= k).
Proof.
  intros Hm Hk s. unfold mbind, M_bind, bind.
  destruct (Hm s) as (e1 & H1 & Hq1). destruct (m s) as [[a|e] s1]; simpl in *.
  - destruct (Hk a s1) as (e2 & H2 & Hq2). exists (e1 ++ e2).
    rewrite H2, H1, app_assoc. split; [done|by apply quiet_app].
  - by exists e1.
Qed.

Lemma silent_try_except {S A} (π : S → World) (m : M S A) h :
  silent π m → (∀ e, silent π (h e)) → silent π (try_except m h).
Proof.
  intros Hm Hh s. unfold try_except.
  destruct (Hm s) as (e1 & H1 & Hq1). destruct (m s) as [[a|e] s1]; simpl in *.
  - by exists e1.
  - destruct (is_Exception e); [|by exists e1].
    destruct (Hh e s1) as (e2 & H2 & Hq2). exists (e1 ++ e2).
    rewrite H2, H1, app_assoc. split; [done|by apply quiet_app].
Qed.

Lemma silent_try_finally {S A} (π : S → World) (m : M S A) fin :
  silent π m → silent π fin → silent π (try_finally m fin).
Proof.
  intros Hm Hf s. unfold try_finally.
  destruct (Hm s) as (e1 & H1 & Hq1). destruct (m s) as [r s1]; simpl in *.
  destruct (Hf s1) as (e2 & H2 & Hq2).
  exists (e1 ++ e2). split; [|by apply quiet_app].
  destruct (fin s1) as [[[]|e] s2]; simpl in *; by rewrite H2, H1, app_assoc.
Qed.

Lemma silent_zoom {S T A} (πS : S → World) (πT : T → World)
    (get : S → T) (set : T → S → S) (m : M T A) :
  (∀ s, πT (get s) = πS s) → (∀ t s, πS (set t s) = πT t) →
  silent πT m → silent πS (zoom get set m).
Proof.
  intros Hget Hset Hm s. unfold zoom.
  destruct (Hm (get s)) as (ext & Hext & Hq).
  destruct (m (get s)) as [r t']; simpl in *.
  exists ext. by rewrite Hset, Hext, Hget.
Qed.

Lemma silent_call c : lifecycle c = false → silent (λ w, w) (call c).
Proof.
  intros Hc w. unfold call. pose proof (Hlog c w) as Hl.
  destruct (perform c w) as [[e|] w']; simpl in *; eexists; (split; [exact Hl|]);
    by repeat constructor.
Qed.

Lemma silent_on_world {A} (m : M World A) :
  silent (λ w, w) m → silent world (on_world m).
Proof. apply silent_zoom; done. Qed.

Lemma silent_on_sys {A} (m : M Sys A) :
  silent world m → silent (λ st, world (sys st)) (on_sys m).
Proof. apply silent_zoom; done. Qed.

Lemma silent_on_page {A} (m : M World A) :
  silent (λ w, w) m → silent (λ st, world (sys st)) (on_page m).
Proof. intros Hm. by apply silent_on_sys, silent_on_world. Qed.

Lemma silent_get_db_cursor {A} commit (body : M Sys A) :
  silent world body → silent world (get_db_cursor commit body).
Proof.
  intros Hb s. unfold get_db_cursor. pose proof (Hlog DbConnect (world s)) as Hl.
  destruct (perform DbConnect (world s)) as [[e|] w]; simpl in *.
  - eexists. split; [exact Hl|]. by repeat constructor.
  - destruct (Hb {| world := w; db := db s |}) as (ext & Hext & Hq). simpl in Hext.
    exists ([(DbConnect, None)] ++ ext). split; [|by apply quiet_app; [repeat constructor|]].
    rewrite Hl, <- app_assoc in Hext.
    by destruct (body _) as [[a|e] s']; destruct commit.
Qed.

Ltac silent_tac :=
  repeat first
    [ apply silent_bind; [|intros ?]
    | apply silent_try_except; [|intros ?]
    | apply silent_try_finally
    | apply silent_ret | apply silent_mret | apply silent_raise | apply silent_gets
    | apply silent_call; reflexivity
    | apply silent_on_page | apply silent_on_sys | apply silent_on_world
    | apply silent_get_db_cursor
    | apply silent_modify; intros []; reflexivity
    | match goal with |- Lifecycle.silent _ _ (match ?x with _ => _ end) => destruct x end
    | match goal with |- Lifecycle.silent _ _ (if ?x then _ else _) => destruct x end
    | match goal with |- Lifecycle.silent _ _ (let '(_, _) := ?x in _) => destruct x end ].

Lemma silent_cursor_query {A} sql (rows : Db → A) : silent world (cursor_query sql rows).
Proof. unfold cursor_query. silent_tac. Qed.

Lemma silent_cursor_execute sql effect : silent world (cursor_execute sql effect).
Proof. unfold cursor_execute, set_db. silent_tac. Qed.

Lemma silent_get_test_case id : silent world (get_test_case id).
Proof.
  unfold get_test_case, get_steps_for_case.
  silent_tac; apply silent_cursor_query.
Qed.

Lemma silent_get_project id : silent world (get_project id).
Proof. unfold get_project. silent_tac; apply silent_cursor_query. Qed.

Lemma silent_insert_run_logs n logs : silent world (insert_run_logs n logs).
Proof.
  induction logs as [|l logs IH]; simpl; [silent_tac|].
  apply silent_bind; [apply silent_cursor_execute|by intros []].
Qed.

Lemma silent_save_run_results id status t0 t1 dur rp lp logs :
  silent world (save_run_results id status t0 t1 dur rp lp logs).
Proof.
  unfold save_run_results, save_run_results_transaction.
  silent_tac; first [apply silent_cursor_execute|apply silent_cursor_query
                    |apply silent_insert_run_logs].
Qed.

Lemma silent_method self k method locator value :
  getattr_method self k = Some method → silent (λ w, w) (method locator value).
Proof.
  unfold getattr_method.
  repeat match goal with
         | |- context [String.eqb k ?s] => destruct (String.eqb k s)
         end; intros [= <-];
    unfold goto, click, fill, press, select_option, wait_for_selector, wait_for_url,
      expect_text, expect_title, screenshot; silent_tac.
Qed.

Lemma silent_execute_step engine step : silent (λ w, w) (execute_step engine step).
Proof.
  unfold execute_step, execute_step_try.
  apply silent_try_except.
  - destruct (negb _); [apply silent_raise|].
    destruct (getattr_method _ _) as [method|] eqn:Hm; [|apply silent_raise].
    apply silent_bind; [by eapply silent_method|intros []; apply silent_mret].
  - intros e. unfold screenshot. silent_tac.
Qed.

Lemma silent_set_locals h : silent (λ st, world (sys st)) (set_locals h).
Proof. intros st. exists []. rewrite app_nil_r. split; [done|constructor]. Qed.

Lemma silent_step_loop engine steps : ∀ i,
  silent (λ st, world (sys st)) (step_loop engine i steps).
Proof.
  induction steps as [|step rest IH]; intros i; simpl; [apply silent_mret|].
  apply silent_bind; [apply silent_on_page, silent_execute_step|].
  intros [[success message] shot].
  apply silent_bind; [apply silent_set_locals|]. intros [].
  destruct success; [apply IH|apply silent_mret].
Qed.

Lemma silent_session_body p out steps :
  silent (λ st, world (sys st)) (session_body p out steps).
Proof.
  unfold session_body, session_open, session_close, KeywordEngine_init.
  repeat first
    [ apply silent_step_loop | apply silent_set_locals
    | apply silent_bind; [|intros ?]
    | apply silent_on_page
    | apply silent_call; reflexivity
    | apply silent_ret | apply silent_mret ].
Qed.

Lemma silent_run_lookup id : silent (λ st, world (sys st)) (run_lookup id).
Proof.
  unfold run_lookup.
  apply silent_bind; [apply silent_on_sys, silent_get_test_case|]. intros [cd|];
    [|apply silent_raise].
  apply silent_bind; [apply silent_on_sys, silent_get_project|]. intros [p|];
    [apply silent_mret|apply silent_raise].
Qed.

Lemma silent_run_output id t : silent (λ st, world (sys st)) (run_output id t).
Proof.
  unfold run_output.
  repeat first
    [ apply silent_set_locals
    | apply silent_bind; [|intros ?]
    | apply silent_on_page
    | apply silent_call; reflexivity
    | apply silent_ret | apply silent_mret ].
Qed.

Lemma silent_finally id t : silent (λ st, world (sys st)) (run_test_case_finally id t).
Proof.
  unfold run_test_case_finally.
  apply silent_bind; [apply silent_on_page, silent_gets|]. intros end_time.
  apply silent_bind; [apply silent_gets|]. intros l.
  apply silent_bind; [apply silent_on_sys, silent_save_run_results|]. intros [].
  destruct (file_handler l); [|apply silent_ret].
  apply silent_on_page, silent_call. reflexivity.
Qed.

Lemma silent_except e : silent (λ st, world (sys st)) (run_test_case_except e).
Proof.
  unfold run_test_case_except.
  apply silent_bind; [apply silent_set_locals|]. intros []. apply silent_set_locals.
Qed.

(** *** The stages of the lifecycle *)

Lemma traced_silent {A} w0 (P : list Event → Prop) (m : M RunState A) :
  absorbs P → silent (λ st, world (sys st)) m →
  triple (traced w0 P) m (λ _, traced w0 P) (traced w0 P).
Proof.
  intros HP Hm st (new & Hnew & Hp).
  destruct (Hm st) as (ext & Hext & Hq).
  assert (Hpost : traced w0 P (m st).2).
  { exists (new ++ ext). rewrite Hext, Hnew, app_assoc. split; [done|by apply HP]. }
  by destruct (m st) as [[a|e] st'].
Qed.

Lemma absorbs_never_started : absorbs never_started.
Proof. intros old ext. apply quiet_app. Qed.

Lemma absorbs_start_failed : absorbs start_failed.
Proof.
  intros old ext (q & e & q' & -> & Hq & Hq') Hext.
  exists q, e, (q' ++ ext). rewrite <- !app_assoc.
  split_and!; [done|done|by apply quiet_app].
Qed.

Lemma absorbs_launch_failed : absorbs launch_failed.
Proof.
  intros old ext (q & b & h & e & q' & -> & Hq & Hq') Hext.
  exists q, b, h, e, (q' ++ ext). rewrite <- !app_assoc.
  split_and!; [done|done|by apply quiet_app].
Qed.

Lemma absorbs_live : absorbs live.
Proof.
  intros old ext (q & b & h & q1 & -> & Hq & Hq1) Hext.
  exists q, b, h, (q1 ++ ext). rewrite <- !app_assoc.
  split_and!; [done|done|by apply quiet_app].
Qed.

Lemma absorbs_stopped : absorbs stopped.
Proof.
  intros old ext (q & b & h & q1 & tail & q' & -> & Hq & Hq1 & Ht & Hq') Hext.
  exists q, b, h, q1, tail, (q' ++ ext). rewrite <- !app_assoc.
  split_and!; [done|done|done|done|by apply quiet_app].
Qed.

Lemma absorbs_shape : absorbs lifecycle_shape.
Proof.
  intros old ext [Hs|[Hs|[Hs|Hs]]] Hext.
  - left. by apply absorbs_never_started.
  - right. left. by apply absorbs_start_failed.
  - do 2 right. left. by apply absorbs_launch_failed.
  - do 3 right. by apply absorbs_stopped.
Qed.

(** [start]: Playwright, then the browser. *)
Lemma start_stage w0 browser headless :
  triple (traced w0 never_started) (on_page (PlaywrightManager_start browser headless))
    (λ _, traced w0 live)
    (traced w0 (λ new, start_failed new ∨ launch_failed new)).
Proof.
  intros st (new & Hnew & Hq). rewrite on_page_eq.
  unfold PlaywrightManager_start, mbind, M_bind, bind, call. simpl.
  pose proof (Hlog PlaywrightStart (world (sys st))) as H1.
  destruct (perform PlaywrightStart (world (sys st))) as [[e|] w1]; simpl in *.
  - exists (new ++ [(PlaywrightStart, Some e)]). simpl.
    rewrite H1, Hnew, app_assoc. split; [done|left].
    exists new, e, []. rewrite app_nil_r. split_and!; [done|done|constructor].
  - pose proof (Hlog (BrowserLaunch browser headless) w1) as H2.
    destruct (perform (BrowserLaunch browser headless) w1) as [[e|] w2]; simpl in *.
    + exists (new ++ [(PlaywrightStart, None); (BrowserLaunch browser headless, Some e)]). simpl.
      rewrite H2, H1, Hnew, <- !app_assoc. split; [done|right].
      exists new, browser, headless, e, []. rewrite app_nil_r.
      split_and!; [done|done|constructor].
    + exists (new ++ [(PlaywrightStart, None); (BrowserLaunch browser headless, None)]). simpl.
      rewrite H2, H1, Hnew, <- !app_assoc. split; [done|].
      exists new, browser, headless, []. rewrite app_nil_r.
      split_and!; [done|done|constructor].
Qed.

(** [stop]: the browser if it is connected, then Playwright unless closing
    the browser raised. *)
Lemma stop_stage w0 st :
  traced w0 live st → traced w0 stopped (on_page PlaywrightManager_stop st).2.
Proof.
  intros (new & Hnew & q & b & h & q1 & -> & Hq & Hq1). rewrite on_page_eq.
  unfold PlaywrightManager_stop, mbind, M_bind, bind, gets, call. simpl.
  assert (Hend : ∀ tail w,
            log w = log (world (sys st)) ++ tail → stop_calls tail →
            traced w0 stopped (with_world w st)).
  { intros tail w Hw Htail.
    exists ((q ++ [(PlaywrightStart, None); (BrowserLaunch b h, None)] ++ q1) ++ tail).
    simpl. rewrite Hw, Hnew. split; [by rewrite <- !app_assoc|].
    exists q, b, h, q1, tail, []. rewrite app_nil_r, <- !app_assoc.
    split_and!; [done|done|done|done|constructor]. }
  destruct (is_connected (world (sys st))).
  - pose proof (Hlog BrowserClose (world (sys st))) as H1.
    destruct (perform BrowserClose (world (sys st))) as [[e|] w1]; simpl in *.
    + apply (Hend [(BrowserClose, Some e)]); [done|]. left. by eexists.
    + pose proof (Hlog PlaywrightStop w1) as H2.
      destruct (perform PlaywrightStop w1) as [r w2] eqn:Ep; simpl in *.
      assert (Hw : log w2 = log (world (sys st)) ++
                     [(BrowserClose, None); (PlaywrightStop, r)]).
      { by rewrite H2, H1, <- app_assoc. }
      destruct r as [e|]; simpl; (eapply Hend; [exact Hw|]); right; left; by eexists.
  - simpl. pose proof (Hlog PlaywrightStop (world (sys st))) as H2.
    destruct (perform PlaywrightStop (world (sys st))) as [r w2]; simpl in *.
    destruct r as [e|]; simpl; (eapply Hend; [exact H2|]); do 2 right; by eexists.
Qed.

Lemma with_PlaywrightManager_stage w0 browser headless p out steps :
  triple (traced w0 never_started)
    (with_PlaywrightManager browser headless (session_body p out steps))
    (λ _, traced w0 lifecycle_shape) (traced w0 lifecycle_shape).
Proof.
  assert (Hweaken : ∀ (P : list Event → Prop), (∀ new, P new → lifecycle_shape new) →
            ∀ st, traced w0 P st → traced w0 lifecycle_shape st).
  { intros P HP st (new & Hnew & Hp). exists new. auto. }
  unfold with_PlaywrightManager.
  apply triple_bind with (Q := λ _, traced w0 never_started).
  { eapply triple_conseq; [apply traced_silent; [apply absorbs_never_started|]|done|done|].
    - unfold PlaywrightManager_init. apply silent_on_page.
      destruct (negb _); [apply silent_raise|apply silent_ret].
    - apply Hweaken. by left. }
  intros [].
  apply triple_bind with (Q := λ _, traced w0 live).
  { eapply triple_conseq; [apply start_stage|done|done|].
    apply Hweaken. intros new [Hs|Hs]; [right; by left|do 2 right; by left]. }
  intros [].
  apply triple_try_finally with (Q := λ _, traced w0 live) (E := traced w0 live).
  - apply traced_silent; [apply absorbs_live|apply silent_session_body].
  - intros ok st Hst. apply stop_stage in Hst.
    assert (traced w0 lifecycle_shape (on_page PlaywrightManager_stop st).2) as Hs.
    { revert Hst. apply Hweaken. intros new Hn. by do 3 right. }
    by destruct (on_page PlaywrightManager_stop st) as [[[]|e] st'].
  - intros st Hst. apply stop_stage in Hst.
    assert (traced w0 lifecycle_shape (on_page PlaywrightManager_stop st).2) as Hs.
    { revert Hst. apply Hweaken. intros new Hn. by do 3 right. }
    by destruct (on_page PlaywrightManager_stop st) as [[[]|e] st'].
Qed.

Lemma run_test_case_try_stage_calls w0 id t :
  triple (traced w0 never_started) (run_test_case_try id t)
    (λ _, traced w0 lifecycle_shape) (traced w0 lifecycle_shape).
Proof.
  assert (Hidle : ∀ st, traced w0 never_started st → traced w0 lifecycle_shape st).
  { intros st (new & Hnew & Hp). exists new. split; [done|by left]. }
  unfold run_test_case_try.
  apply triple_bind with (Q := λ _, traced w0 never_started).
  { eapply triple_conseq;
      [apply traced_silent; [apply absorbs_never_started|apply silent_run_lookup]
      |done|done|done]. }
  intros [cd p].
  apply triple_bind with (Q := λ _, traced w0 never_started).
  { eapply triple_conseq;
      [apply traced_silent; [apply absorbs_never_started|apply silent_run_output]
      |done|done|done]. }
  intros out.
  apply triple_bind with (Q := λ _, traced w0 lifecycle_shape).
  { apply with_PlaywrightManager_stage. }
  intros ok. apply traced_silent; [apply absorbs_shape|apply silent_set_locals].
Qed.

Lemma run_test_case_calls id s :
  ∃ new, log (world (run_test_case id s).2) = log (world s) ++ new ∧ lifecycle_shape new.
Proof.
  unfold run_test_case.
  set (st0 := {| sys := s; locals := initial_locals |}).
  assert (H0 : traced (world s) never_started st0).
  { exists []. rewrite app_nil_r. split; [done|constructor]. }
  assert (H1 : traced (world s) lifecycle_shape
                 (run_test_case_outcome id (clock (world s)) st0).2).
  { unfold run_test_case_outcome, try_except.
    pose proof (run_test_case_try_stage_calls (world s) id (clock (world s)) st0 H0) as Ht.
    destruct (run_test_case_try id (clock (world s)) st0) as [[[]|e] st1]; [done|].
    destruct (is_Exception e); [|done].
    pose proof (traced_silent (world s) lifecycle_shape (run_test_case_except e)
                  absorbs_shape (silent_except e) st1 Ht) as He.
    by destruct (run_test_case_except e st1) as [[[]|e'] st2]. }
  unfold try_finally.
  destruct (run_test_case_outcome id (clock (world s)) st0) as [r st1]. simpl in H1.
  pose proof (traced_silent (world s) lifecycle_shape
                (run_test_case_finally id (clock (world s)))
                absorbs_shape (silent_finally id (clock (world s))) st1 H1) as Hf.
  destruct (run_test_case_finally id (clock (world s)) st1) as [[[]|e] st2]; exact Hf.
Qed.

(** *** Reading the log *)

Lemma quiet_elem q c r : quiet q → (c, r) ∈ q → lifecycle c = false.
Proof. intros Hq Hin. by eapply Forall_forall in Hq; [|exact Hin]. Qed.

Ltac log_tac :=
  repeat match goal with
         | H : _ ∈ _ ++ _ |- _ => apply elem_of_app in H as [H|H]
         | H : _ ∈ _ :: _ |- _ => apply elem_of_cons in H as [H|H]
         | H : _ ∈ [] |- _ => by apply elem_of_nil in H
         | H : (_, _) = (_, _) |- _ => injection H as ? ?; subst
         | H : (?c, _) ∈ ?q, Hq : quiet ?q |- _ =>
             apply (quiet_elem _ _ _ Hq) in H; try discriminate H
         end.

Lemma shape_launched new b h :
  lifecycle_shape new → (BrowserLaunch b h, None) ∈ new →
  (∃ r, (BrowserClose, r) ∈ new) ∨ (∃ r, (PlaywrightStop, r) ∈ new).
Proof.
  intros [Hq|[(q & e & q' & -> & Hq & Hq')|[(q & b' & h' & e & q' & -> & Hq & Hq')
         |(q & b' & h' & q1 & tail & q' & -> & Hq & Hq1 & Ht & Hq')]]] Hin.
  - apply (quiet_elem _ _ _ Hq) in Hin. discriminate.
  - log_tac; discriminate.
  - log_tac; discriminate.
  - clear Hin.
    destruct Ht as [(e & ->)|[(r & ->)|(r & ->)]]; [left|left|right]; eexists;
      rewrite !elem_of_app; right; right; right; left; apply elem_of_cons; by left.
Qed.

Lemma shape_launch_failed new b h e :
  lifecycle_shape new → (BrowserLaunch b h, Some e) ∈ new →
  (PlaywrightStart, None) ∈ new ∧
  ∀ r, ((PlaywrightStop, r) ∉ new) ∧ ((BrowserClose, r) ∉ new).
Proof.
  intros [Hq|[(q & e' & q' & -> & Hq & Hq')|[(q & b' & h' & e' & q' & -> & Hq & Hq')
         |(q & b' & h' & q1 & tail & q' & -> & Hq & Hq1 & Ht & Hq')]]] Hin.
  - apply (quiet_elem _ _ _ Hq) in Hin. discriminate.
  - log_tac; discriminate.
  - clear Hin. split.
    + rewrite !elem_of_app. right. left. apply elem_of_cons. by left.
    + intros r. split; intros Hr; log_tac; discriminate.
  - destruct Ht as [(e' & ->)|[(r' & ->)|(r' & ->)]]; log_tac; discriminate.
Qed.

Lemma shape_stopped new r :
  lifecycle_shape new → (PlaywrightStop, r) ∈ new →
  (∃ b h, (BrowserLaunch b h, None) ∈ new) ∧ ∀ e, (BrowserClose, Some e) ∉ new.
Proof.
  intros [Hq|[(q & e' & q' & -> & Hq & Hq')|[(q & b' & h' & e' & q' & -> & Hq & Hq')
         |(q & b' & h' & q1 & tail & q' & -> & Hq & Hq1 & Ht & Hq')]]] Hin.
  - apply (quiet_elem _ _ _ Hq) in Hin. discriminate.
  - log_tac; discriminate.
  - log_tac; discriminate.
  - split.
    + exists b', h'. rewrite !elem_of_app. right. left.
      apply elem_of_cons. right. apply elem_of_cons. by left.
    + intros e He.
      destruct Ht as [(e' & ->)|[(r' & ->)|(r' & ->)]]; log_tac; discriminate.
Qed.

(** X25: for a driver that logs its calls, the calls a run adds to the log
    follow one of four courses: it never starts Playwright; Playwright fails
    to start; Playwright starts and the launch of the browser fails; or the
    browser is launched, used, and then [stop] is entered on every path,
    closing the browser if it is connected and stopping Playwright unless
    closing raised. So a launched browser is always followed by an attempt
    to close it or to stop Playwright; Playwright is stopped only after a
    successful launch and never after the close raised; and when the launch
    fails after Playwright has started, neither the browser nor Playwright
    is stopped in that run. *)
Theorem browser_lifecycle id s :
  ∃ new,
    log (world (run_test_case id s).2) = log (world s) ++ new ∧
    lifecycle_shape new ∧
    (∀ b h, (BrowserLaunch b h, None) ∈ new →
       (∃ r, (BrowserClose, r) ∈ new) ∨ (∃ r, (PlaywrightStop, r) ∈ new)) ∧
    (∀ b h e, (BrowserLaunch b h, Some e) ∈ new →
       (PlaywrightStart, None) ∈ new ∧
       ∀ r, ((PlaywrightStop, r) ∉ new) ∧ ((BrowserClose, r) ∉ new)) ∧
    (∀ r, (PlaywrightStop, r) ∈ new →
       (∃ b h, (BrowserLaunch b h, None) ∈ new) ∧
       ∀ e, (BrowserClose, Some e) ∉ new).
Proof.
  destruct (run_test_case_calls id s) as (new & Hnew & Hshape).
  exists new. split_and!; [done|done| | |].
  - intros b h. by apply shape_launched.
  - intros b h e. by apply shape_launch_failed.
  - intros r. by apply shape_stopped.
Qed.

End LoggedFacts.
End LifecycleFacts.

(** ** The further properties on concrete inputs *)

Module SampleFacts.
Import Agent Core Demo Client Dispatch Samples Registry Keywords Store.
Import AgentFacts CoreFacts RegistryFacts KeywordFacts StoreFacts RunFacts ClientFacts.
Import DispatchFacts Lifecycle LifecycleFacts.

Lemma well_formed_one_agent : well_formed one_agent.
Proof.
  apply well_formed_register. split; [apply consistent_empty|].
  intros k a Hk. simpl in Hk. by rewrite lookup_empty in Hk.
Qed.

(** The registry with [agent-1] stays well formed when the agent is
    unregistered or swept. *)
Lemma registry_stays_well_formed_witness :
  well_formed one_agent ∧
  well_formed (unregister_agent one_agent "agent-1") ∧
  well_formed (cleanup_inactive_agents one_agent 1000 5).
Proof.
  destruct (registry_stays_well_formed one_agent well_formed_one_agent)
    as (_ & Hun & _ & _ & Hclean & _).
  split_and!; [exact well_formed_one_agent|apply Hun|apply Hclean].
Defined.

(** [agent-1] was last seen at 100: a sweep at 1000 with a threshold of
    five minutes removes it, a sweep at 400 keeps it. *)
Lemma cleanup_removes_exactly_stale_witness :
  stale one_agent (1000 - 5 * 60) "agent-1" ∧
  agents (cleanup_inactive_agents one_agent 1000 5) !! "agent-1" = None ∧
  agents (cleanup_inactive_agents one_agent 400 5) !! "agent-1" =
    Some (stored_info []).
Proof.
  assert (Hstale : stale one_agent (1000 - 5 * 60) "agent-1").
  { exists (stored_info []). split; [reflexivity|]. simpl. lia. }
  destruct (cleanup_removes_exactly_stale one_agent 1000 5 "agent-1") as (Hin & _ & _).
  destruct (cleanup_removes_exactly_stale one_agent 400 5 "agent-1") as (_ & _ & Hedge).
  split_and!; [exact Hstale|by apply Hin|].
  apply Hedge; reflexivity.
Defined.

Lemma keyed_one_agent : keyed one_agent.
Proof. apply well_formed_one_agent. Qed.

(** While [agent-1] runs case 7 it is not offered as available. *)
Lemma busy_agent_not_available_witness :
  keyed one_agent ∧
  get_available_agents (mark_busy one_agent "agent-1" (run_case 7) 101) = [] ∧
  set_status ONLINE 120 (set_status BUSY 101 (stored_info [])) ∈
    get_available_agents
      (reset_online (mark_busy one_agent "agent-1" (run_case 7) 101) "agent-1"
         (run_case 7) 120).
Proof.
  destruct (busy_agent_not_available one_agent "agent-1" (run_case 7) (stored_info [])
              101 120 keyed_one_agent eq_refl eq_refl) as (_ & _ & Hback).
  split_and!; [exact keyed_one_agent|vm_compute; reflexivity|exact Hback].
Defined.


(** The command for [agent-1] that nobody answers is still queued after
    the timeout. *)
Lemma dispatched_command_stays_queued_witness :
  command_queues one_agent !! "agent-1" = Some [] ∧
  Forall (harmless "agent-1") [ActStatus "agent-1" ONLINE 150] ∧
  command_queues
    (send_command one_agent "agent-1" (run_case 7) [ActStatus "agent-1" ONLINE 150]
       101 401 401).2 !! "agent-1" = Some [run_case 7].
Proof.
  assert (Hq : command_queues one_agent !! "agent-1" = Some []) by reflexivity.
  assert (Hh : Forall (harmless "agent-1") [ActStatus "agent-1" ONLINE 150]).
  { repeat constructor. }
  split_and!; [exact Hq|exact Hh|].
  exact (dispatched_command_stays_queued one_agent "agent-1" (run_case 7) _ []
           101 401 401 Hq Hh).
Defined.

(** While the command for [agent-1] waits, [agent-1] is seen again and
    another agent answers: the command times out. *)
Lemma unanswered_command_times_out_witness :
  Forall (λ a, ¬ answers "agent-1" a)
    [ActStatus "agent-1" ONLINE 150; ActResponse "agent-2" pong] ∧
  (send_command one_agent "agent-1" (run_case 7)
     [ActStatus "agent-1" ONLINE 150; ActResponse "agent-2" pong] 101 401 401).1
    = timeout_response.
Proof.
  assert (Hn : Forall (λ a, ¬ answers "agent-1" a)
                 [ActStatus "agent-1" ONLINE 150; ActResponse "agent-2" pong]).
  { repeat constructor; intros [r Hr]; discriminate Hr. }
  split; [exact Hn|].
  exact (unanswered_command_times_out one_agent "agent-1" (run_case 7) _ []
           101 401 401 eq_refl eq_refl Hn).
Defined.

(** [agent-1] polls at 900 and survives the sweep at 1000. *)
Lemma poll_keeps_agent_alive_witness :
  get_agent (Router.agent_manager one_agent_router) "agent-1" =
    Some (stored_info ["playwright"; "ui_testing"]) ∧
  1000 - 5 * 60 ≤ 900 ∧
  is_Some (get_agent
             (cleanup_inactive_agents
                (Router.agent_manager
                   (Router.get_agent_commands one_agent_router "agent-1" 900).2)
                1000 5) "agent-1").
Proof.
  assert (Ha : get_agent (Router.agent_manager one_agent_router) "agent-1" =
               Some (stored_info ["playwright"; "ui_testing"])) by reflexivity.
  assert (Hle : 1000 - 5 * 60 ≤ 900) by lia.
  destruct (poll_keeps_agent_alive one_agent_router "agent-1" _ 900 1000 5 Ha Hle)
    as [_ Hkept].
  split_and!; [exact Ha|exact Hle|]. rewrite Hkept. by eexists.
Defined.

(** [agent-1] is sent two commands and never polls: after the sweep they
    are still in the backlog and a poll answers 404. *)
Lemma swept_agent_backlog_unreachable_witness :
  get_agent (Router.agent_manager one_agent_router) "agent-1" =
    Some (stored_info ["playwright"; "ui_testing"]) ∧
  backlog (sweep (enqueue_all one_agent_router "agent-1" [run_case 7; run_case 8]) 1000 5)
    "agent-1" = [run_case 7; run_case 8] ∧
  (Router.get_agent_commands
     (sweep (enqueue_all one_agent_router "agent-1" [run_case 7; run_case 8]) 1000 5)
     "agent-1" 1001).1 = Router.HTTPException 404 "Agent not found".
Proof.
  assert (Ha : get_agent (Router.agent_manager one_agent_router) "agent-1" =
               Some (stored_info ["playwright"; "ui_testing"])) by reflexivity.
  assert (Hold : last_seen (stored_info ["playwright"; "ui_testing"]) < 1000 - 5 * 60).
  { simpl. lia. }
  destruct (swept_agent_backlog_unreachable one_agent_router "agent-1" _
              [run_case 7; run_case 8] 1001 1000 5 Ha Hold) as (_ & Hb & Hp).
  split_and!; [exact Ha|exact Hb|by rewrite Hp].
Defined.

(** [click] is listed with a locator only: the value makes no difference. *)
Lemma keyword_table_names_handlers_witness :
  params_of "click" = Some ["locator"] ∧
  click (H:=obliging) demo_engine (Some "#submit") (Some "ignored") =
  click (H:=obliging) demo_engine (Some "#submit") None.
Proof.
  assert (Hp : params_of "click" = Some ["locator"]) by (vm_compute; reflexivity).
  destruct (keyword_table_names_handlers (H:=obliging) demo_engine)
    as (_ & _ & _ & _ & Hargs).
  split; [exact Hp|].
  apply (Hargs "click" ["locator"] _ _ _ _ _ Hp eq_refl).
  intros p Hin. apply list_elem_of_singleton in Hin as ->. reflexivity.
Defined.

Lemma obliging_answers : page_answers (H:=obliging).
Proof. intros c w. reflexivity. Qed.

(** [fill] without a value raises before the page is touched; with both
    arguments it returns. *)
Lemma listed_params_are_required_witness :
  params_of "fill" = Some ["locator"; "value"] ∧
  page_answers (H:=obliging) ∧
  (∃ msg, fill (H:=obliging) demo_engine (Some "#user") None [] =
            (Raise (ValueError msg), [])) ∧
  (∃ w', fill (H:=obliging) demo_engine (Some "#user") (Some "bob") [] =
           (Return (), w')).
Proof.
  assert (Hp : params_of "fill" = Some ["locator"; "value"]) by (vm_compute; reflexivity).
  destruct (listed_params_are_required (H:=obliging) demo_engine "fill" _ _
              (Some "#user") None [] Hp eq_refl) as (Hmiss & _ & _).
  destruct (listed_params_are_required (H:=obliging) demo_engine "fill" _ _
              (Some "#user") (Some "bob") [] Hp eq_refl) as (_ & Hok & _).
  split_and!; [exact Hp|exact obliging_answers| |].
  - apply (Hmiss ltac:(discriminate) "value"); [set_solver|reflexivity].
  - apply Hok; [exact obliging_answers|].
    intros p Hin. apply elem_of_cons in Hin as [->|Hin]; [reflexivity|].
    apply list_elem_of_singleton in Hin as ->. reflexivity.
Defined.

(** The unknown keyword and the [fill] without a value make one call each:
    the failure screenshot. *)
Lemma rejected_step_only_screenshots_witness :
  keyword_in_KEYWORDS (keyword unknown_step) = false ∧
  (execute_step (H:=obliging) demo_engine unknown_step []).2 =
    [PageScreenshot "reports/run_7/screenshots/step_1_failure.png"] ∧
  ∃ msg, execute_step (H:=obliging) demo_engine fill_without_value [] =
           rejected (H:=obliging) demo_engine fill_without_value (ValueError msg) [].
Proof.
  destruct (rejected_step_only_screenshots (H:=obliging) demo_engine unknown_step [])
    as [Hunknown _].
  destruct (rejected_step_only_screenshots (H:=obliging) demo_engine fill_without_value [])
    as [_ Hmissing].
  split_and!; [reflexivity| |].
  - rewrite (Hunknown eq_refl). reflexivity.
  - apply (Hmissing "fill" ["locator"; "value"] "value");
      [reflexivity|discriminate|vm_compute; reflexivity|set_solver|reflexivity].
Defined.

(** Case 7 comes back with its four steps in order. *)
Lemma case_steps_complete_and_sorted_witness :
  ∃ cd s',
    get_test_case (H:=obliging) 7 (start_sys obliging []) = (Return (Some cd), s') ∧
    case_id (case_row cd) = 7 ∧ ascending (steps cd) ∧
    steps cd ≡ₚ filter (λ st, step_case_id st = 7) (test_steps demo_db).
Proof.
  assert (Hc : get_test_case (H:=obliging) 7 (start_sys obliging []) = login_case)
    by (vm_compute; reflexivity).
  unfold login_case in Hc. do 2 eexists. split; [exact Hc|].
  destruct (case_steps_complete_and_sorted (H:=obliging) 7 (start_sys obliging []))
    as (_ & Hcase & _).
  destruct (Hcase _ _ Hc) as (_ & Hid & Hperm & Hasc & _).
  split_and!; [exact Hid|exact Hasc|exact Hperm].
Defined.

(** The demo project runs on chromium, headless by default. *)
Lemma stored_project_is_launchable_witness :
  ∃ p s',
    get_project (H:=obliging) 1 (start_sys obliging []) = (Return (Some p), s') ∧
    p_browser p ∈ ["chromium"; "firefox"; "webkit"] ∧
    PlaywrightManager_init (H:=obliging) (p_browser p) (p_headless p) [] = (Return (), []).
Proof.
  assert (Hp : get_project (H:=obliging) 1 (start_sys obliging []) = shop_project)
    by (vm_compute; reflexivity).
  unfold shop_project in Hp. do 2 eexists. split; [exact Hp|].
  destruct (stored_project_is_launchable (H:=obliging) 1 (start_sys obliging []))
    as (Hsome & _).
  destruct (Hsome _ _ Hp) as (_ & _ & _ & Hb & Hinit & _).
  split; [exact Hb|apply Hinit].
Defined.

(** The run of case 7 cancelled while its first page loads is Failed, and
    its log holds no entry. *)
Lemma run_log_shape_witness :
  (run_test_case_outcome (H:=cancelled_load) 7 0 (start cancelled_load [])).1
    = Raise cancelled ∧
  is_Exception cancelled = false ∧
  test_status
    (locals (run_test_case_outcome (H:=cancelled_load) 7 0 (start cancelled_load [])).2)
    = "Failed".
Proof.
  assert (Hr : (run_test_case_outcome (H:=cancelled_load) 7 0
                  (start cancelled_load [])).1 = Raise cancelled)
    by (vm_compute; reflexivity).
  split; [exact Hr|].
  destruct (run_log_shape (H:=cancelled_load) 7 0 (start_sys cancelled_load []))
    as (_ & _ & Hraise).
  destruct (Hraise _ Hr) as (Hbase & Hs & _).
  split; [exact Hbase|exact Hs].
Defined.

Lemma store_ok_demo_db : store_ok demo_db.
Proof.
  split_and!.
  - intros r Hr. simpl in Hr. by apply elem_of_nil in Hr.
  - unfold run_ids_unique. simpl. constructor.
  - intros l Hl. simpl in Hl. by apply elem_of_nil in Hl.
Qed.

(** The demo tables are consistent, and still are after a run of case 8. *)
Lemma store_stays_consistent_witness :
  store_ok demo_db ∧
  store_ok (db (run_test_case (H:=reachable_target) 8 (start_sys reachable_target [])).2).
Proof.
  split; [exact store_ok_demo_db|].
  apply (store_stays_consistent (H:=reachable_target) 8 (start_sys reachable_target [])
           store_ok_demo_db).
Defined.

(** The log file of the run of case 9 cannot be closed: the error reaches
    the caller.  When it can be closed, the run returns. *)
Lemma run_raises_only_on_close_witness :
  (run_test_case (H:=log_locked) 9 (start_sys log_locked [])).1 =
    Raise (mkExc "OSError" "Bad file descriptor") ∧
  (∃ w, (perform (Driver:=log_locked) FileHandlerClose w).1 =
          Some (mkExc "OSError" "Bad file descriptor")) ∧
  (run_test_case (H:=obliging) 9 (start_sys obliging [])).1 = Return ().
Proof.
  assert (Hr : (run_test_case (H:=log_locked) 9 (start_sys log_locked [])).1 =
               Raise (mkExc "OSError" "Bad file descriptor")) by (vm_compute; reflexivity).
  split; [exact Hr|].
  destruct (run_raises_only_on_close (H:=log_locked) 9 (start_sys log_locked []))
    as (Hraise & _).
  destruct (run_raises_only_on_close (H:=obliging) 9 (start_sys obliging []))
    as (_ & Hreturns).
  split.
  - destruct (Hraise _ Hr) as [[Hbase _]|[_ Hclose]]; [|exact Hclose].
    vm_compute in Hbase. discriminate Hbase.
  - destruct Hreturns as [Hclosed _].
    + intros e. vm_compute. discriminate.
    + intros sql w e. simpl. discriminate.
    + apply Hclosed. intros w. reflexivity.
Defined.

(** The screenshot of the failing click of case 8 is in the run's own
    directory. *)
Lemma artefacts_in_run_directory_witness :
  typo_third_entry ∈ run_log_entries (locals typo_outcome.2) ∧
  ∃ n, entry_step_id typo_third_entry = Some n ∧
       "reports/run_8_20240101_120000/screenshots/step_3_failure.png" =
       os_path_join (os_path_join (run_directory (H:=reachable_target) 8 0) "screenshots")
         ("step_" +:+ fmt_int n +:+ "_failure.png").
Proof.
  assert (Ho : run_test_case_outcome (H:=reachable_target) 8 0 (start reachable_target [])
               = typo_outcome) by (vm_compute; reflexivity).
  assert (Hin : typo_third_entry ∈ run_log_entries (locals typo_outcome.2)).
  { vm_compute. do 2 right. left. }
  split; [exact Hin|].
  destruct (artefacts_in_run_directory (H:=reachable_target) 8 0
              (start_sys reachable_target [])) as (Hshots & _).
  apply (Hshots typo_third_entry); [|reflexivity].
  change (typo_third_entry ∈
            run_log_entries (locals (run_test_case_outcome (H:=reachable_target) 8 0
                                       (start reachable_target [])).2)).
  rewrite Ho. exact Hin.
Defined.



(** A module command is answered with success and nothing is touched. *)
Lemma execute_command_contract_witness :
  (sample_execute (sample_command RUN_MODULE "module_id") idle_agent).1 =
    Return (executed "Module" "module_id" 8) ∧
  process (sample_execute (sample_command RUN_MODULE "module_id") idle_agent).2 =
    process idle_agent.
Proof.
  destruct (execute_command_contract (H:=reachable_target)
              (sample_request "case_id") (sample_request "module_id")
              (sample_request "project_id") (λ t, pretty t) (λ _, "command")
              (sample_command RUN_MODULE "module_id") idle_agent)
    as (_ & _ & _ & _ & Hsame & Hmodule & _).
  split.
  - apply Hmodule; reflexivity.
  - apply Hsame. discriminate.
Defined.

(** Case 8 fails at its third step, and the agent reports that it was
    executed successfully. *)
Lemma run_reply_ignores_outcome_witness :
  command (sample_command RUN_TEST_CASE "case_id") = RUN_TEST_CASE ∧
  (sample_execute (sample_command RUN_TEST_CASE "case_id") idle_agent).1 =
    Return (executed "Test case" "case_id" 8) ∧
  run_status <$>
    test_runs (db (process
      (sample_execute (sample_command RUN_TEST_CASE "case_id") idle_agent).2))
    = ["Failed"].
Proof.
  destruct (run_reply_ignores_outcome (H:=reachable_target)
              (sample_request "case_id") (sample_request "module_id")
              (sample_request "project_id") (λ t, pretty t) (λ _, "command")
              (sample_command RUN_TEST_CASE "case_id") idle_agent eq_refl)
    as (Hvalid & _).
  destruct (Hvalid 8 eq_refl) as (Hprocess & Hreply & _).
  split_and!; [reflexivity| |].
  - apply Hreply. vm_compute. reflexivity.
  - unfold sample_execute. rewrite Hprocess. vm_compute. reflexivity.
Defined.

(** Case 7 is queued for [ghost], which never registered and cannot poll. *)
Lemma dispatch_skips_registration_witness :
  get_agent (Router.agent_manager (router fresh_server)) "ghost" = None ∧
  sample_dispatch.1 = Return (Router.Ok200 (queued_for 7 "ghost")) ∧
  length (backlog (router sample_dispatch.2) "ghost") = 1%nat ∧
  (Router.get_agent_commands (router sample_dispatch.2) "ghost" 5).1 =
    Router.HTTPException 404 "Agent not found".
Proof.
  assert (Hc : get_test_case (H:=obliging) 7 (store fresh_server) = login_case)
    by (vm_compute; reflexivity).
  unfold login_case in Hc.
  assert (Hp : get_project (H:=obliging) 1 (snd login_case) =
               (Return (Some {| p_id := 1; p_name := "shop"; p_description := None;
                                p_base_url := Some "http://shop.test";
                                p_browser := "chromium"; p_headless := true;
                                p_created_at := 0 |}),
                (get_project (H:=obliging) 1 (snd login_case)).2))
    by (vm_compute; reflexivity).
  destruct (dispatch_skips_registration (H:=obliging) (λ p, p_name p) "ghost" 7 fresh_server)
    as (Hqueue & _).
  destruct (Hqueue _ _ _ _ Hc Hp) as (Hreply & Hback & _ & _ & Hghost).
  assert (Hnone : get_agent (Router.agent_manager (router fresh_server)) "ghost" = None)
    by reflexivity.
  destruct (Hghost Hnone) as [Hpoll _].
  unfold sample_dispatch.
  split_and!; [exact Hnone|exact Hreply| |by rewrite Hpoll].
  rewrite Hback. reflexivity.
Defined.

Lemma scripted_logging fails : logging (H:=scripted fails) (scripted_log fails).
Proof. intros c w. unfold scripted_log. simpl. by rewrite fmap_app. Qed.

(** The browser cannot be launched for the run of case 9: Playwright was
    started and is not stopped. *)
Lemma browser_lifecycle_witness :
  logging (H:=no_launch) (scripted_log launch_fails) ∧
  (PlaywrightStart, None) ∈ no_launch_calls ∧
  ∀ r, (PlaywrightStop, r) ∉ no_launch_calls.
Proof.
  split; [apply scripted_logging|].
  destruct (browser_lifecycle (H:=no_launch) (scripted_log launch_fails)
              (scripted_logging launch_fails) 9 (start_sys no_launch []))
    as (new & Hnew & _ & _ & Hfailed & _).
  change (scripted_log launch_fails
            (world (run_test_case (H:=no_launch) 9 (start_sys no_launch [])).2))
    with no_launch_calls in Hnew.
  simpl in Hnew. subst new.
  destruct (Hfailed "chromium" true (mkExc "Error" "Executable doesn't exist"))
    as [Hstart Hnone].
  { vm_compute. do 9 right. left. }
  split; [exact Hstart|]. intros r. apply Hnone.
Defined.

End SampleFacts.
